(** * The hashmap backend: hash-mapped directory index over a flat store

    A shallow embedding of [backend/hashmap] (entries.go, hash.go, dir.go,
    object.go, hashmap.go).  Go pointers to [dirEntry] become addresses in
    an explicit heap, slices become a header over a backing array kept in
    a store of arrays (so that a [range] loop and an in-place [append]
    alias exactly as they do in Go), Go maps become [gmap]s, and the
    wrapped remote ([f.base]) is an oracle over the history of calls made
    to it. *)

From Stdlib Require Import String Ascii List Arith Lia.
From stdpp Require Import base option list gmap strings sorting.

Open Scope string_scope.
Open Scope list_scope.
Open Scope nat_scope.
Open Scope stdpp_scope.

(** ** Strings and paths (Go's [strings] and [path] packages) *)

Module GoString.

Definition nl : ascii := "010"%char.
Definition slash : ascii := "/"%char.
Definition space : ascii := " "%char.
Definition NL : string := String nl "".

Definition eqb_ascii (a b : ascii) : bool := Ascii.eqb a b.

(** [strings.Contains(s, string(c))] for a one-byte needle. *)
Fixpoint containsChar (c : ascii) (s : string) : bool :=
  match s with
  | "" => false
  | String a r => eqb_ascii a c || containsChar c r
  end.

(** [strings.HasPrefix]. *)
Fixpoint HasPrefix (s p : string) : bool :=
  match p, s with
  | "", _ => true
  | String _ _, "" => false
  | String b p', String a s' => eqb_ascii a b && HasPrefix s' p'
  end.

Fixpoint dropn (n : nat) (s : string) : string :=
  match n, s with
  | 0, _ => s
  | S n', String _ r => dropn n' r
  | S _, "" => ""
  end.

(** [strings.TrimPrefix]. *)
Definition TrimPrefix (s p : string) : string :=
  if HasPrefix s p then dropn (String.length p) s else s.

(** [strings.TrimSuffix(s, string(c))] for a one-byte suffix. *)
Fixpoint TrimSuffixChar (c : ascii) (s : string) : string :=
  match s with
  | "" => ""
  | String a "" => if eqb_ascii a c then "" else s
  | String a r => String a (TrimSuffixChar c r)
  end.

(** [strings.Split(s, string(c))]: never returns the empty list. *)
Fixpoint Split (c : ascii) (s : string) : list string :=
  match s with
  | "" => [""]
  | String a r =>
      if eqb_ascii a c then "" :: Split c r
      else match Split c r with
           | x :: xs => String a x :: xs
           | [] => [String a ""]
           end
  end.

(** [strings.Join(l, string(c))]. *)
Fixpoint Join (c : ascii) (l : list string) : string :=
  match l with
  | [] => ""
  | [x] => x
  | x :: xs => x +:+ String c (Join c xs)
  end.

(** [strings.SplitN(s, string(c), 2)]: cut at the first separator;
    [None] stands for the one-element result (no separator). *)
Fixpoint SplitN2 (c : ascii) (s : string) : option (string * string) :=
  match s with
  | "" => None
  | String a r =>
      if eqb_ascii a c then Some ("", r)
      else match SplitN2 c r with
           | Some (x, y) => Some (String a x, y)
           | None => None
           end
  end.

(** [path.Split]: the directory part keeps its final slash. *)
Fixpoint path_Split (p : string) : string * string :=
  match p with
  | "" => ("", "")
  | String a r =>
      let '(d, f) := path_Split r in
      match d with
      | String _ _ => (String a d, f)
      | "" => if eqb_ascii a slash then (String a "", f) else ("", String a f)
      end
  end.

(** [path.Clean], element by element: empty and [.] elements vanish, a
    [..] removes the element before it when there is one that is not
    itself a kept [..]; at the start of a rooted path it is dropped, at
    the start of a relative path it is kept.  [out] is the reversed
    list of elements written so far. *)
Fixpoint cleanElems (rooted : bool) (out : list string) (els : list string)
  : list string :=
  match els with
  | [] => rev out
  | e :: rest =>
      if String.eqb e "" then cleanElems rooted out rest
      else if String.eqb e "." then cleanElems rooted out rest
      else if String.eqb e ".." then
        match out with
        | top :: out' =>
            if String.eqb top ".." then cleanElems rooted (e :: out) rest
            else cleanElems rooted out' rest
        | [] =>
            if rooted then cleanElems rooted out rest
            else cleanElems rooted (e :: out) rest
        end
      else cleanElems rooted (e :: out) rest
  end.

Definition path_Clean (p : string) : string :=
  match p with
  | "" => "."
  | String a _ =>
      let rooted := eqb_ascii a slash in
      let body := Join slash (cleanElems rooted [] (Split slash p)) in
      if rooted then String slash body
      else match body with "" => "." | _ => body end
  end.

(** [path.Join]: empty elements are ignored, the rest is joined with
    slashes and cleaned; all-empty gives the empty string. *)
Definition path_Join (elems : list string) : string :=
  match List.filter (fun e => negb (String.eqb e "")) elems with
  | [] => ""
  | l => path_Clean (Join slash l)
  end.

(** [path.Base]. *)
Definition path_Base (p : string) : string :=
  match p with
  | "" => "."
  | _ =>
      match List.filter (fun e => negb (String.eqb e "")) (Split slash p) with
      | [] => "/"
      | l => List.last l ""
      end
  end.

(** The lines a [bufio.Reader.ReadString('\n')] loop hands out before it
    reaches the end of [s]: every newline-terminated piece, terminator
    removed; the unterminated rest comes back with the end-of-input
    condition and is the second component. *)
Fixpoint readLines (s : string) : list string * string :=
  match s with
  | "" => ([], "")
  | String a r =>
      let '(ls, rest) := readLines r in
      if eqb_ascii a nl then ("" :: ls, rest)
      else match ls with
           | l :: ls' => (String a l :: ls', rest)
           | [] => ([], String a rest)
           end
  end.

(** [sort.Strings]: ascending byte-wise order. *)
Definition str_le (a b : string) : Prop := String.leb a b = true.

#[global] Instance str_le_dec : RelDecision str_le.
Proof. intros a b. unfold str_le. apply _. Defined.

Definition sortStrings (l : list string) : list string := merge_sort str_le l.

End GoString.

Import GoString.

(** ** Errors ([error] values, [fmt.Errorf], [errors.Is]) *)

Inductive error : Type :=
| ErrorObjectNotFound            (* fs.ErrorObjectNotFound *)
| ErrorDirNotFound               (* fs.ErrorDirNotFound *)
| ErrorIsDir                     (* fs.ErrorIsDir *)
| ErrorDirExists                 (* fs.ErrorDirExists *)
| ErrorDirectoryNotEmpty         (* fs.ErrorDirectoryNotEmpty *)
| ErrorCantDirMove               (* fs.ErrorCantDirMove *)
| ErrorCantPurge                 (* fs.ErrorCantPurge *)
| ErrorCantCopy                  (* fs.ErrorCantCopy *)
| ErrNew (msg : string)          (* errors.New(msg), fmt.Errorf(msg) *)
| ErrorfQ (msg arg : string)     (* fmt.Errorf(msg + ": %q", arg) *)
| ErrorfW (msg : string) (inner : error).  (* fmt.Errorf(msg + ": %w", inner) *)

#[global] Instance error_eq_dec : EqDecision error.
Proof. solve_decision. Defined.

(** [errors.Is(err, target)]: [target] is [err] or is wrapped in it. *)
Fixpoint errors_Is (err target : error) : bool :=
  bool_decide (err = target) ||
  match err with
  | ErrorfW _ inner => errors_Is inner target
  | _ => false
  end.

(** The messages of this package. *)
Definition msg_bad_state := "directory in a bad state, refusing to modify".
Definition msg_dir_newline := "directory name may not contain newline".
Definition msg_file_newline := "file name may not contain newline".
Definition msg_malformed := "malformed map file, refusing to load: invalid entry".
Definition msg_open_map := "error opening map file".
Definition msg_read_map := "error reading map file entry".
Definition msg_not_loaded := "map file is not loaded".
Definition msg_fetch_files := "error fetching original list of files".
Definition msg_mkdir_file := "error creating directory for file".
Definition msg_name_file := "error creating name file".
Definition msg_data_file := "error creating data file".
Definition msg_base_object := "error fetching base object".
Definition msg_invalid_map := "cannot rewrite name files with invalid map file".
Definition msg_find_name := "cannot find name file to delete".
Definition msg_delete_name := "cannot delete name file".
Definition msg_refuse_map := "refusing to modify map file: cannot load map file".
Definition msg_remove_root := "cannot remove root directory".
Definition msg_inconsistent := "inconsistent internal tree".
Definition msg_nil := "invalid memory address or nil pointer dereference".
Definition msg_bounds := "slice bounds out of range".

(** ** The wrapped remote [f.base]

    Every call this package makes on the wrapped remote is an event; the
    remote answers as a function of the events so far, which covers any
    deterministic store, with or without faults. *)

Inductive BaseCall : Type :=
| CNewObject (remote : string)          (* base.NewObject(ctx, remote) *)
| COpen (remote : string)               (* obj.Open(ctx) *)
| CPut (remote content : string)        (* base.Put(ctx, in, info): the bytes read from [in] *)
| CMkdir (dir : string)                 (* base.Mkdir(ctx, dir) *)
| CDirMove (srcHash dstHash : string)   (* base.Features().DirMove *)
| CPurge (dir : string)                 (* base.Features().Purge *)
| COperationsPurge (dir : string)       (* operations.Purge(ctx, base, dir) *)
| CCopy (srcRemote dstRemote : string)  (* base.Features().Copy *)
| CRemove (remote : string).            (* obj.Remove(ctx) *)

#[global] Instance BaseCall_eq_dec : EqDecision BaseCall.
Proof. solve_decision. Defined.

(** A call together with the error it returned ([None] is [nil]). *)
Definition Event : Type := BaseCall * option error.

(** What an opened object delivers: its bytes, then end of input
    ([None]) or a read error. *)
Definition Reader : Type := string * option error.

Record Base : Type := {
  reply : list Event -> BaseCall -> option error;
  content : list Event -> string -> Reader;
  feat_ChangeNotify : bool;
  feat_DirMove : bool;
  feat_Purge : bool;
  feat_Copy : bool;
  CanHaveEmptyDirectories : bool
}.

(** ** The receiver [*Fs]: the fields fixed by [NewFs] *)

Record Fs : Type := {
  base : Base;
  hasher : string -> string;
  root : string
}.

(** hash.go *)
Definition hashNone (a : string) : string := a.

(** ** Memory: directory entries, the arrays behind [Children], the map *)

(** A [*dirEntry] is an address. *)
Abbreviation ptr := nat (only parsing).

(** A slice header over a backing array of the store; every slice of this
    package starts at the first slot of its array, the capacity is the
    length of the array. *)
Record slice : Type := { s_arr : nat; s_len : nat }.

Record dirEntry : Type := {
  Path : string;
  Hash : string;
  Parent : option ptr;
  Children : slice;
  files : option (gmap string string)
}.

Record dirMap : Type := {
  dirMap_Hash : gmap string ptr;
  dirMap_Path : gmap string ptr
}.

Record World : Type := {
  entries : gmap ptr dirEntry;
  arrays : gmap nat (list ptr);
  nextPtr : ptr;
  nextArr : nat;
  dmap : dirMap;
  trace : list Event
}.

Definition nilptr : ptr := 0.

Definition emptyWorld : World :=
  {| entries := ∅; arrays := ∅; nextPtr := 1; nextArr := 0;
     dmap := {| dirMap_Hash := ∅; dirMap_Path := ∅ |}; trace := [] |}.

Definition set_entries (w : World) (m : gmap ptr dirEntry) : World :=
  {| entries := m; arrays := arrays w; nextPtr := nextPtr w;
     nextArr := nextArr w; dmap := dmap w; trace := trace w |}.
Definition set_arrays (w : World) (m : gmap nat (list ptr)) : World :=
  {| entries := entries w; arrays := m; nextPtr := nextPtr w;
     nextArr := nextArr w; dmap := dmap w; trace := trace w |}.
Definition set_dmap (w : World) (d : dirMap) : World :=
  {| entries := entries w; arrays := arrays w; nextPtr := nextPtr w;
     nextArr := nextArr w; dmap := d; trace := trace w |}.
Definition set_trace (w : World) (t : list Event) : World :=
  {| entries := entries w; arrays := arrays w; nextPtr := nextPtr w;
     nextArr := nextArr w; dmap := dmap w; trace := t |}.

Definition set_Children (e : dirEntry) (s : slice) : dirEntry :=
  {| Path := Path e; Hash := Hash e; Parent := Parent e;
     Children := s; files := files e |}.
Definition set_files (e : dirEntry) (m : option (gmap string string)) : dirEntry :=
  {| Path := Path e; Hash := Hash e; Parent := Parent e;
     Children := Children e; files := m |}.

(** ** Computations: state, panics, and the fuel of the recursions *)

Inductive result (A : Type) : Type :=
| Ok (a : A) (w : World)
| Panic (msg : string)
| OutOfFuel.
Arguments Ok {A} a w.
Arguments Panic {A} msg.
Arguments OutOfFuel {A}.

Definition M (A : Type) : Type := World -> result A.

Definition ret {A} (a : A) : M A := fun w => Ok a w.
Definition bind {A B} (m : M A) (k : A -> M B) : M B :=
  fun w => match m w with
           | Ok a w' => k a w'
           | Panic msg => Panic msg
           | OutOfFuel => OutOfFuel
           end.
Definition panic {A} (msg : string) : M A := fun _ => Panic msg.

Notation "'let*' x := c1 'in' c2" := (bind c1 (fun x => c2))
  (at level 10, x name, c1 at level 100, c2 at level 200).
Notation "'let*' ' x := c1 'in' c2" := (bind c1 (fun x => c2))
  (at level 10, x strict pattern, c1 at level 100, c2 at level 200).
Notation "'do' c1 ; c2" := (bind c1 (fun _ => c2))
  (at level 10, c1 at level 100, c2 at level 200).

Definition get : M World := fun w => Ok w w.
Definition modify (g : World -> World) : M unit := fun w => Ok tt (g w).

(** [*p] *)
Definition deref (p : ptr) : M dirEntry :=
  fun w => match entries w !! p with
           | Some e => Ok e w
           | None => Panic msg_nil
           end.
Definition store (p : ptr) (e : dirEntry) : M unit :=
  modify (fun w => set_entries w (<[p := e]> (entries w))).
Definition alloc (e : dirEntry) : M ptr :=
  fun w => Ok (nextPtr w)
    {| entries := <[nextPtr w := e]> (entries w); arrays := arrays w;
       nextPtr := S (nextPtr w); nextArr := nextArr w;
       dmap := dmap w; trace := trace w |}.
Definition allocArray (a : list ptr) : M nat :=
  fun w => Ok (nextArr w)
    {| entries := entries w; arrays := <[nextArr w := a]> (arrays w);
       nextPtr := nextPtr w; nextArr := S (nextArr w);
       dmap := dmap w; trace := trace w |}.
Definition getArray (a : nat) : M (list ptr) :=
  fun w => match arrays w !! a with
           | Some l => Ok l w
           | None => Panic msg_nil
           end.
Definition putArray (a : nat) (l : list ptr) : M unit :=
  modify (fun w => set_arrays w (<[a := l]> (arrays w))).

(** One call on the wrapped remote. *)
Definition call (f : Fs) (c : BaseCall) : M (option error) :=
  fun w => let r := reply (base f) (trace w) c in
           Ok r (set_trace w (trace w ++ [(c, r)])).

(** [obj.Open(ctx)] on the object found at [remote]. *)
Definition openObj (f : Fs) (remote : string) : M (error + Reader) :=
  fun w => let rd := content (base f) (trace w) remote in
           match call f (COpen remote) w with
           | Ok (Some e) w' => Ok (inl e) w'
           | Ok None w' => Ok (inr rd) w'
           | Panic msg => Panic msg
           | OutOfFuel => OutOfFuel
           end.

(** ** Slices of [*dirEntry] *)

(** The capacity the runtime gives a slice that [append] has to move to
    a new array: twice the old one below 256 slots, a quarter more plus
    192 beyond (rounding up to an allocation size class left out). *)
Definition growCap (oldCap : nat) : nat :=
  if oldCap <? 256 then Nat.max 1 (2 * oldCap)
  else oldCap + (oldCap + 768) / 4.

(** [make([]*dirEntry, 0)] *)
Definition makeSlice : M slice :=
  let* a := allocArray [] in ret {| s_arr := a; s_len := 0 |}.

(** [append(s, x)]: in place while the array has room, else into a new
    array. *)
Definition slice_append (s : slice) (x : ptr) : M slice :=
  let* l := getArray (s_arr s) in
  if decide (s_len s < length l) then
    do putArray (s_arr s) (<[s_len s := x]> l);
    ret {| s_arr := s_arr s; s_len := S (s_len s) |}
  else
    let* a := allocArray (take (s_len s) l ++ x ::
                          replicate (growCap (length l) - S (s_len s)) nilptr) in
    ret {| s_arr := a; s_len := S (s_len s) |}.

(** [append(s[:idx], s[idx+1:]...)]: the slots after [idx] move one place
    down inside the same array; the slot that was last keeps its value. *)
Definition slice_delete (s : slice) (idx : nat) : M slice :=
  let* l := getArray (s_arr s) in
  if decide (idx < s_len s /\ s_len s <= length l) then
    let moved := take (s_len s - S idx) (drop (S idx) l) in
    do putArray (s_arr s) (take idx l ++ moved ++ drop (s_len s - 1) l);
    ret {| s_arr := s_arr s; s_len := s_len s - 1 |}
  else panic msg_bounds.

(** Slot [i] of array [a]. *)
Definition arrayAt (a i : nat) : M ptr :=
  let* l := getArray a in
  match l !! i with
  | Some p => ret p
  | None => panic msg_bounds
  end.

(** [for _, v := range s { if err := body(v); err != nil { return err } }]:
    the header [s] is read once, so the loop makes [s_len s] turns, and
    turn [i] reads slot [i] of the array as it is at that moment. *)
Fixpoint rangeFrom (a : nat) (k i : nat) (body : ptr -> M (option error))
  : M (option error) :=
  match k with
  | 0 => ret None
  | S k' =>
      let* v := arrayAt a i in
      let* err := body v in
      match err with
      | Some _ => ret err
      | None => rangeFrom a k' (S i) body
      end
  end.

Definition rangeSlice (s : slice) (body : ptr -> M (option error))
  : M (option error) :=
  rangeFrom (s_arr s) (s_len s) 0 body.

(** The elements of a slice as the store has them now. *)
Definition slice_elems (w : World) (s : slice) : list ptr :=
  take (s_len s) (default [] (arrays w !! s_arr s)).

(** ** entries.go: the per-directory file index *)

Definition setFiles (d : ptr) (m : option (gmap string string)) : M unit :=
  let* e := deref d in store d (set_files e m).

(** [d.files[name] = hash] *)
Definition filesInsert (d : ptr) (name hash : string) : M unit :=
  let* e := deref d in
  match files e with
  | Some m => store d (set_files e (Some (<[name := hash]> m)))
  | None => panic "assignment to entry in nil map"
  end.

(** [delete(d.files, name)] *)
Definition filesDelete (d : ptr) (name : string) : M unit :=
  let* e := deref d in
  match files e with
  | Some m => store d (set_files e (Some (delete name m)))
  | None => ret tt
  end.

(** The body of the read loop, one iteration per line handed out. *)
Fixpoint fillLines (d : ptr) (lines : list string) : M (option error) :=
  match lines with
  | [] => ret None
  | entry :: rest =>
      if String.eqb entry "" then fillLines d rest
      else match SplitN2 space entry with
           | None => ret (Some (ErrorfQ msg_malformed entry))
           | Some (h, name) => do filesInsert d name h; fillLines d rest
           end
  end.

(** What [Files] and [fillFiles] share once [d.files] has been made:
    find the map file, open it, read it line by line. *)
Definition readMapFile (f : Fs) (d : ptr) (remote : string) : M (option error) :=
  let* r := call f (CNewObject remote) in
  match r with
  | Some err =>
      if errors_Is err ErrorObjectNotFound then ret None else ret (Some err)
  | None =>
      let* o := openObj f remote in
      match o with
      | inl err => ret (Some (ErrorfW msg_open_map err))
      | inr (data, tail) =>
          let* r := fillLines d (fst (readLines data)) in
          match r with
          | Some err => ret (Some err)
          | None =>
              match tail with
              | Some err => ret (Some (ErrorfW msg_read_map err))
              | None => ret None
              end
          end
      end
  end.

(** [fillFiles] (the revision with the deferred reset). *)
Definition fillFiles (f : Fs) (d : ptr) : M (option error) :=
  let* e := deref d in
  match files e with
  | Some _ => ret None
  | None =>
      do setFiles d (Some ∅);
      let* err := readMapFile f d (path_Join [Hash e; "map"]) in
      match err with
      | Some _ => do setFiles d None; ret err   (* the deferred function *)
      | None => ret None
      end
  end.

(** [Files] over [fillFiles]. *)
Definition Files (f : Fs) (d : ptr) : M (error + gmap string string) :=
  let* err := fillFiles f d in
  match err with
  | Some err => ret (inl err)
  | None => let* e := deref d in ret (inr (default ∅ (files e)))
  end.

Definition addFile (f : Fs) (d : ptr) (file hash : string) : M (option error) :=
  let* err := fillFiles f d in
  match err with
  | Some err => ret (Some (ErrorfW "refusing to modify map file in bad state" err))
  | None => do filesInsert d file hash; ret None
  end.

Definition removeFile (f : Fs) (d : ptr) (file : string) : M (option error) :=
  let* err := fillFiles f d in
  match err with
  | Some err => ret (Some (ErrorfW "refusing to modify map file in bad state" err))
  | None => do filesDelete d file; ret None
  end.

(** The bytes of a file index: one line per file name, names ascending. *)
Definition fileIndexBytes (m : gmap string string) : string :=
  String.concat ""
    (map (fun name => default "" (m !! name) +:+ " " +:+ name +:+ NL)
         (sortStrings (map fst (map_to_list m)))).

(** [dirEntry.write] *)
Definition dirEntry_write (f : Fs) (d : ptr) : M (option error) :=
  let* e := deref d in
  match files e with
  | None => ret (Some (ErrNew msg_not_loaded))
  | Some m => call f (CPut (path_Join [Hash e; "map"]) (fileIndexBytes m))
  end.

(** ** entries.go: the directory map *)

Definition lookupPath (p : string) : M (option ptr) :=
  fun w => Ok (dirMap_Path (dmap w) !! p) w.
Definition lookupHash (h : string) : M (option ptr) :=
  fun w => Ok (dirMap_Hash (dmap w) !! h) w.

(** [parentPath, _ := path.Split(p); strings.TrimSuffix(parentPath, "/")] *)
Definition parentPathOf (overlayPath : string) : string :=
  TrimSuffixChar slash (fst (path_Split overlayPath)).

Definition register (overlayPath hashed : string) (entry : ptr) : M unit :=
  modify (fun w => set_dmap w
    {| dirMap_Hash := <[hashed := entry]> (dirMap_Hash (dmap w));
       dirMap_Path := <[overlayPath := entry]> (dirMap_Path (dmap w)) |}).

Definition unregister (overlayPath hashed : string) : M unit :=
  modify (fun w => set_dmap w
    {| dirMap_Hash := delete hashed (dirMap_Hash (dmap w));
       dirMap_Path := delete overlayPath (dirMap_Path (dmap w)) |}).

(** The part of [newDirEntry] after the parent has been found. *)
Definition linkEntry (f : Fs) (overlayPath : string) (parent : option ptr) : M unit :=
  let hashed := hasher f overlayPath in
  let* ch := makeSlice in
  let* entry := alloc {| Path := overlayPath; Hash := hashed; Parent := parent;
                         Children := ch; files := None |} in
  do register overlayPath hashed entry;
  match parent with
  | Some p =>
      let* pe := deref p in
      let* s := slice_append (Children pe) entry in
      store p (set_Children pe s)
  | None => ret tt
  end.

(** [newDirEntry]: the recursion on the parent path is on a strictly
    shorter string; [fuel] counts its depth. *)
Fixpoint newDirEntry_rec (fuel : nat) (f : Fs) (overlayPath : string) : M unit :=
  match fuel with
  | 0 => fun _ => OutOfFuel
  | S n =>
      let* here := lookupPath overlayPath in
      match here with
      | Some _ => ret tt
      | None =>
          let* parent :=
            (if String.eqb overlayPath "" then ret None
             else
               let parentPath := parentPathOf overlayPath in
               let* p := lookupPath parentPath in
               match p with
               | Some p => ret (Some p)
               | None => do newDirEntry_rec n f parentPath; lookupPath parentPath
               end) in
          linkEntry f overlayPath parent
      end
  end.

Definition newDirEntry (f : Fs) (overlayPath : string) : M unit :=
  newDirEntry_rec (S (String.length overlayPath)) f overlayPath.

(** The index of the first slot holding [x]. *)
Definition indexOf (x : ptr) (l : list ptr) : option nat :=
  fst <$> list_find (fun y => y = x) l.

(** [removeEntry] *)
Definition removeEntry (path : string) : M unit :=
  let* here := lookupPath path in
  match here with
  | None => ret tt
  | Some entry =>
      let* e := deref entry in
      match Parent e with
      | None => panic msg_remove_root
      | Some parent =>
          let* pe := deref parent in
          let* l := getArray (s_arr (Children pe)) in
          match indexOf entry (take (s_len (Children pe)) l) with
          | None => panic msg_inconsistent
          | Some idx =>
              let* s := slice_delete (Children pe) idx in
              do store parent (set_Children pe s);
              unregister path (Hash e)
          end
      end
  end.

(** The lines of the root index for the given paths, in that order. *)
Fixpoint rootIndexLines (paths : list string) : M (list string) :=
  match paths with
  | [] => ret []
  | p :: rest =>
      let* entry := lookupPath p in
      match entry with
      | None => panic msg_nil
      | Some entry =>
          let* e := deref entry in
          let* ls := rootIndexLines rest in
          ret ((Hash e +:+ " " +:+ p +:+ NL) :: ls)
      end
  end.

(** [dirMap.write] *)
Definition dirMap_write (f : Fs) : M (option error) :=
  let* w := get in
  let path := sortStrings (map fst (map_to_list (dirMap_Path (dmap w)))) in
  let* ls := rootIndexLines path in
  call f (CPut "map" (String.concat "" ls)).

(** [newDirMap] *)
Definition newDirMap (f : Fs) : M unit :=
  do modify (fun w => set_dmap w {| dirMap_Hash := ∅; dirMap_Path := ∅ |});
  newDirEntry f "".

Fixpoint loadLines (f : Fs) (lines : list string) : M (option error) :=
  match lines with
  | [] => ret None
  | entry :: rest =>
      if String.eqb entry "" then loadLines f rest
      else match SplitN2 space entry with
           | None => ret (Some (ErrorfQ msg_malformed entry))
           | Some (_, name) => do newDirEntry f name; loadLines f rest
           end
  end.

(** [loadDirectoryMap]; [input] is [None] for a nil reader. *)
Definition loadDirectoryMap (f : Fs) (input : option Reader) : M (option error) :=
  do newDirMap f;
  match input with
  | None => ret None
  | Some (data, tail) =>
      let* r := loadLines f (fst (readLines data)) in
      match r with
      | Some err => ret (Some err)
      | None =>
          match tail with
          | Some err => ret (Some (ErrorfW msg_read_map err))
          | None => ret None
          end
      end
  end.

(** hashmap.go, [NewFs]: the part that loads the directory map. *)
Definition NewFs (f : Fs) : M (option error) :=
  let* r := call f (CNewObject "map") in
  match r with
  | Some _ => loadDirectoryMap f None
  | None =>
      let* o := openObj f "map" in
      match o with
      | inl err =>
          if errors_Is err ErrorObjectNotFound then loadDirectoryMap f None
          else ret (Some err)
      | inr rd => loadDirectoryMap f (Some rd)
      end
  end.

(** hash.go, [toHash] *)
Definition toHash (f : Fs) (remote : string) : M (option ptr * string) :=
  let '(parent, leaf) := path_Split remote in
  let parent := TrimSuffixChar slash parent in
  let parent := path_Join [root f; parent] in
  let fileHash := hasher f leaf in
  let* entry := lookupPath parent in
  ret (entry, fileHash).

(** ** entries.go, earlier revision

    Before [fillFiles] was split out of [Files], before [newDirEntry]
    learnt to return early on an indexed path, and before [removeEntry]
    checked that it had found the entry. *)

Module Earlier.

(** [Files]: nothing resets [d.files] when the load fails. *)
Definition Files (f : Fs) (d : ptr) : M (error + gmap string string) :=
  let* e := deref d in
  match files e with
  | Some m => ret (inr m)
  | None =>
      do setFiles d (Some ∅);
      let* err := readMapFile f d (path_Join [Hash e; "map"]) in
      match err with
      | Some err => ret (inl err)
      | None => let* e := deref d in ret (inr (default ∅ (files e)))
      end
  end.

(** [dirEntry.write] *)
Definition dirEntry_write (f : Fs) (d : ptr) : M (option error) :=
  let* fl := Files f d in
  match fl with
  | inl err => ret (Some (ErrorfW msg_fetch_files err))
  | inr m =>
      let* e := deref d in
      call f (CPut (path_Join [Hash e; "map"]) (fileIndexBytes m))
  end.

(** [newDirEntry] *)
Fixpoint newDirEntry_rec (fuel : nat) (f : Fs) (overlayPath : string) : M unit :=
  match fuel with
  | 0 => fun _ => OutOfFuel
  | S n =>
      let* parent :=
        (if String.eqb overlayPath "" then ret None
         else
           let parentPath := parentPathOf overlayPath in
           let* p := lookupPath parentPath in
           match p with
           | Some p => ret (Some p)
           | None => do newDirEntry_rec n f parentPath; lookupPath parentPath
           end) in
      linkEntry f overlayPath parent
  end.

Definition newDirEntry (f : Fs) (overlayPath : string) : M unit :=
  newDirEntry_rec (S (String.length overlayPath)) f overlayPath.

(** [removeEntry]: [idx] stays 0 when the entry is not found. *)
Definition removeEntry (path : string) : M unit :=
  let* here := lookupPath path in
  match here with
  | None => ret tt
  | Some entry =>
      let* e := deref entry in
      match Parent e with
      | None => panic msg_remove_root
      | Some parent =>
          let* pe := deref parent in
          let* l := getArray (s_arr (Children pe)) in
          let idx := default 0 (indexOf entry (take (s_len (Children pe)) l)) in
          let* s := slice_delete (Children pe) idx in
          do store parent (set_Children pe s);
          unregister path (Hash e)
      end
  end.

End Earlier.

(** ** dir.go *)

(** [fs.EntryType] *)
Inductive EntryType : Type := EntryDirectory | EntryObject.

(** [Mkdir] *)
Definition Mkdir (f : Fs) (dir : string) : M (option error) :=
  let dir := path_Join [root f; dir] in
  let* here := lookupPath dir in
  match here with
  | Some _ => ret None
  | None =>
      if containsChar nl dir then ret (Some (ErrorfQ msg_dir_newline dir))
      else
        do newDirEntry f dir;
        let* entry := lookupPath dir in
        match entry with
        | None => panic msg_nil
        | Some entry =>
            let* e := deref entry in
            let* err :=
              (if CanHaveEmptyDirectories (base f) then call f (CMkdir (Hash e))
               else ret None) in
            match err with
            | Some err => ret (Some err)
            | None => dirMap_write f
            end
        end
  end.

(** [Rmdir] *)
Definition Rmdir (f : Fs) (dir : string) : M (option error) :=
  let dir := path_Join [root f; dir] in
  let* here := lookupPath dir in
  match here with
  | None => ret (Some ErrorDirNotFound)
  | Some entry =>
      let* fl := Files f entry in
      match fl with
      | inl err => ret (Some (ErrorfW msg_bad_state err))
      | inr fls =>
          let* e := deref entry in
          if (0 <? size fls) || (0 <? s_len (Children e)) then
            ret (Some ErrorDirectoryNotEmpty)
          else
            do removeEntry dir;
            let* err := dirMap_write f in
            match err with
            | Some err => ret (Some err)
            | None =>
                let* err := call f (COperationsPurge (Hash e)) in
                match err with
                | Some err =>
                    if errors_Is err ErrorDirNotFound then ret None
                    else ret (Some err)
                | None => ret None
                end
            end
      end
  end.

(** The closure [wrappedNotify] of [ChangeNotify]: the call it makes on
    [notify], if any.  The scan of the file index stops at the first
    match in the iteration order of the map, which Go leaves open; the
    order of [map_to_list] stands for it. *)
Definition wrappedNotify (f : Fs) (path : string) (typ : EntryType)
  : M (option (string * EntryType)) :=
  let split := Split slash path in
  if negb (String.eqb (List.last split "") "data") then ret None
  else if length split <? 3 then ret None
  else
    let dirHash := Join slash (take (length split - 2) split) in
    let fileHash := default "" (split !! (length split - 2)) in
    let* entry := lookupHash dirHash in
    match entry with
    | None => ret None
    | Some entry =>
        let* fl := Files f entry in
        match fl with
        | inl _ => ret None
        | inr fls =>
            match list_find (fun kv => snd kv = fileHash) (map_to_list fls) with
            | Some (_, (path, _)) => ret (Some (path, typ))
            | None => ret None
            end
        end
    end.

(** [ChangeNotify] run against the events the wrapped remote raises:
    the calls made on [notify], in order. *)
Fixpoint notifyAll (f : Fs) (events : list (string * EntryType))
  : M (list (string * EntryType)) :=
  match events with
  | [] => ret []
  | (path, typ) :: rest =>
      let* r := wrappedNotify f path typ in
      let* rs := notifyAll f rest in
      ret (match r with Some n => n :: rs | None => rs end)
  end.

Definition ChangeNotify (f : Fs) (events : list (string * EntryType))
  : M (list (string * EntryType)) :=
  if feat_ChangeNotify (base f) then notifyAll f events else ret [].

(** The loop of [rewriteNameFiles] over the entries of the file index. *)
Fixpoint rewriteNames (f : Fs) (dirHash dstLocation : string)
  (fls : list (string * string)) : M (option error) :=
  match fls with
  | [] => ret None
  | (fileName, hash) :: rest =>
      let name := path_Join [dirHash; hash; "name"] in
      let* err := call f (CNewObject name) in
      match err with
      | Some err => ret (Some (ErrorfW msg_find_name err))
      | None =>
          let* err := call f (CRemove name) in
          match err with
          | Some err => ret (Some (ErrorfW msg_delete_name err))
          | None =>
              let fileDst := path_Join [dstLocation; fileName] in
              let* err := call f (CPut name (fileDst +:+ NL)) in
              match err with
              | Some err => ret (Some err)
              | None => rewriteNames f dirHash dstLocation rest
              end
          end
      end
  end.

(** [rewriteNameFiles] *)
Definition rewriteNameFiles (f : Fs) (dstLocation : string) : M (option error) :=
  let* entry := lookupPath dstLocation in
  match entry with
  | None => panic msg_nil
  | Some entry =>
      let* fl := Files f entry in
      match fl with
      | inl err => ret (Some (ErrorfW msg_invalid_map err))
      | inr fls =>
          let* e := deref entry in
          rewriteNames f (Hash e) dstLocation (map_to_list fls)
      end
  end.

(** The closure [recurse] of [DirMove], for a move inside one [Fs]
    ([src] is the receiver, so [srcFs.dirMap] and [f.dirMap] are one
    map). *)
Fixpoint DirMove_recurse (fuel : nat) (f : Fs) (srcRemote dstRemote : string)
  (entry : ptr) : M (option error) :=
  match fuel with
  | 0 => fun _ => OutOfFuel
  | S n =>
      let* e := deref entry in
      let* err := rangeSlice (Children e) (DirMove_recurse n f srcRemote dstRemote) in
      match err with
      | Some _ => ret err
      | None =>
          let srcRelative := TrimPrefix (Path e) srcRemote in
          let srcRelative := TrimPrefix srcRelative "/" in
          let dstLocation := path_Join [dstRemote; srcRelative] in
          let srcHash := hasher f (Path e) in
          let dstHash := hasher f dstLocation in
          let* err := call f (CDirMove srcHash dstHash) in
          match err with
          | Some _ => ret err
          | None =>
              do newDirEntry f dstLocation;
              do removeEntry (Path e);
              rewriteNameFiles f dstLocation
          end
      end
  end.

(** [DirMove] with the receiver itself as [src], as for a move inside
    one [Fs]: [srcFs] is [f], and both directory maps are one map.  A
    move between two [Fs] values, each with a directory map of its own,
    is not modelled.

    [recurse] goes down into entries that the move itself has made when
    the destination lies under the source, so no bound on its depth is
    known before the move: [fuel] is the depth that [recurse] may reach.
    A run that comes back is the same with any larger [fuel]
    ([DirMove_more_fuel]), so a run of the Go code that comes back is
    the run of the model with enough [fuel]. *)
Definition DirMove (fuel : nat) (f : Fs) (srcRemote dstRemote : string)
  : M (option error) :=
  if negb (feat_DirMove (base f)) then ret (Some ErrorCantDirMove)
  else
    let srcRemote := path_Join [root f; srcRemote] in
    let dstRemote := path_Join [root f; dstRemote] in
    let* srcEntry := lookupPath srcRemote in
    match srcEntry with
    | None => ret (Some ErrorDirNotFound)
    | Some srcEntry =>
        let* dst := lookupPath dstRemote in
        match dst with
        | Some _ => ret (Some ErrorDirExists)
        | None =>
            let* recurseErr :=
              DirMove_recurse fuel f srcRemote dstRemote srcEntry in
            let* err := dirMap_write f in
            match err with
            | Some _ => ret err
            | None =>
                let* err := dirMap_write f in
                match err with
                | Some _ => ret err
                | None => ret recurseErr
                end
            end
        end
    end.

(** The closure [purge] of [Purge]. *)
Fixpoint Purge_purge (fuel : nat) (f : Fs) (entry : ptr) : M (option error) :=
  match fuel with
  | 0 => fun _ => OutOfFuel
  | S n =>
      let* e := deref entry in
      let* err := rangeSlice (Children e) (Purge_purge n f) in
      match err with
      | Some _ => ret err
      | None =>
          let* err := call f (CPurge (Hash e)) in
          match err with
          | Some _ => ret err
          | None => do unregister (Path e) (Hash e); ret None
          end
      end
  end.

(** [Purge] *)
Definition Purge (f : Fs) (dir : string) : M (option error) :=
  if negb (feat_Purge (base f)) then ret (Some ErrorCantPurge)
  else
    let dir := path_Join [root f; dir] in
    let* entry := lookupPath dir in
    match entry with
    | None => ret (Some ErrorDirNotFound)
    | Some entry =>
        let* w := get in
        let* purgeErr := Purge_purge (nextPtr w) f entry in
        let* err := dirMap_write f in
        match err with
        | Some _ => ret err
        | None => ret purgeErr
        end
    end.

(** ** object.go *)

(** [object]: [obj] is the wrapped data file, named by its remote. *)
Record object : Type := {
  obj : string;
  o_path : string;
  basePath : string;
  o_dirEntry : ptr
}.

(** [NewObject] *)
Definition NewObject (f : Fs) (remote : string) : M (error + object) :=
  let* here := lookupPath remote in
  match here with
  | Some _ => ret (inl ErrorIsDir)
  | None =>
      let leaf := snd (path_Split remote) in
      let* '(entry, fileHash) := toHash f remote in
      match entry with
      | None => ret (inl ErrorObjectNotFound)
      | Some entry =>
          let* fl := Files f entry in
          match fl with
          | inl err => ret (inl err)
          | inr fls =>
              match fls !! leaf with
              | None => ret (inl ErrorObjectNotFound)
              | Some _ =>
                  let* e := deref entry in
                  let basePath := path_Join [Hash e; fileHash] in
                  let* err := call f (CNewObject (path_Join [basePath; "data"])) in
                  match err with
                  | Some err => ret (inl (ErrorfW msg_base_object err))
                  | None =>
                      ret (inr {| obj := path_Join [basePath; "data"];
                                  o_path := remote;
                                  basePath := basePath;
                                  o_dirEntry := entry |})
                  end
              end
          end
      end
  end.

(** [prepareDest] *)
Definition prepareDest (f : Fs) (overlay dirHash fileHash : string)
  : M (option error) :=
  let* err := call f (CMkdir dirHash) in
  match err with
  | Some err => ret (Some err)
  | None =>
      let* err := call f (CMkdir (path_Join [dirHash; fileHash])) in
      match err with
      | Some err => ret (Some (ErrorfW msg_mkdir_file err))
      | None =>
          let* err := call f (CPut (path_Join [dirHash; fileHash; "name"])
                                   (overlay +:+ NL)) in
          match err with
          | Some err => ret (Some (ErrorfW msg_name_file err))
          | None => ret None
          end
      end
  end.

(** [put] with [f.base.Put] for [do]; [remote] is [src.Remote()] and
    [data] what [in] delivers. *)
Definition put (f : Fs) (data remote : string) : M (option object * option error) :=
  if containsChar nl remote then ret (None, Some (ErrorfQ msg_file_newline remote))
  else
    let leaf := snd (path_Split remote) in
    let* '(entry, fileHash) := toHash f remote in
    match entry with
    | None => ret (None, Some ErrorDirNotFound)
    | Some entry =>
        let* e := deref entry in
        let* err := prepareDest f remote (Hash e) fileHash in
        match err with
        | Some err => ret (None, Some err)
        | None =>
            let dataRemote := path_Join [Hash e; fileHash; "data"] in
            let* err := call f (CPut dataRemote data) in
            match err with
            | Some err => ret (None, Some (ErrorfW msg_data_file err))
            | None =>
                let* fl := Files f entry in
                match fl with
                | inl err => ret (None, Some err)
                | inr _ =>
                    do filesInsert entry leaf fileHash;
                    let o := {| obj := dataRemote; o_path := remote;
                                basePath := path_Join [Hash e; fileHash];
                                o_dirEntry := entry |} in
                    let* err := dirEntry_write f entry in
                    ret (Some o, err)
                end
            end
        end
    end.

(** [Put] *)
Definition Put (f : Fs) (data remote : string) : M (option object * option error) :=
  put f data remote.

(** [Copy]: the result is the object the wrapped remote made, named by
    its remote. *)
Definition Copy (f : Fs) (src : object) (remote : string)
  : M (option string * option error) :=
  if negb (feat_Copy (base f)) then ret (None, Some ErrorCantCopy)
  else if containsChar nl remote then
    ret (None, Some (ErrorfQ msg_file_newline (o_path src)))
  else
    let* '(entry, fileHash) := toHash f remote in
    match entry with
    | None => ret (None, Some ErrorDirNotFound)
    | Some entry =>
        let* e := deref entry in
        let* err := prepareDest f (o_path src) (Hash e) fileHash in
        match err with
        | Some err => ret (None, Some err)
        | None =>
            let* err := dirEntry_write f entry in
            match err with
            | Some err => ret (None, Some err)
            | None =>
                let dst := path_Join [Hash e; fileHash; "data"] in
                let* err := call f (CCopy (obj src) dst) in
                match err with
                | Some err => ret (None, Some err)
                | None => ret (Some dst, None)
                end
            end
        end
    end.

(** [object.Remove] *)
Definition Remove (f : Fs) (o : object) : M (option error) :=
  let* err := call f (COperationsPurge (basePath o)) in
  match err with
  | Some err => ret (Some err)
  | None =>
      let* fl := Files f (o_dirEntry o) in
      match fl with
      | inl err => ret (Some (ErrorfW msg_refuse_map err))
      | inr _ =>
          do filesDelete (o_dirEntry o) (path_Base (o_path o));
          dirEntry_write f (o_dirEntry o)
      end
  end.

(** ** A wrapped remote for the examples: objects in memory

    The objects are those of the successful [Put]s and [Copy]s so far,
    less what [Remove], [Purge] and [operations.Purge] took away and with
    the renames of [DirMove] applied; directories exist by their
    objects.  [fault] makes a call fail. *)

Module MemBase.

Definition under (dir remote : string) : bool :=
  String.eqb dir "" || HasPrefix remote (dir +:+ "/").

Definition rekey (srcDir dstDir remote : string) : string :=
  if HasPrefix remote (srcDir +:+ "/")
  then dstDir +:+ dropn (String.length srcDir) remote
  else remote.

Definition apply (objs : list (string * string)) (ev : Event)
  : list (string * string) :=
  match ev with
  | (CPut remote data, None) =>
      (remote, data) :: List.filter (fun kv => negb (String.eqb (fst kv) remote)) objs
  | (CCopy srcRemote dstRemote, None) =>
      match List.find (fun kv => String.eqb (fst kv) srcRemote) objs with
      | Some (_, data) =>
          (dstRemote, data)
            :: List.filter (fun kv => negb (String.eqb (fst kv) dstRemote)) objs
      | None => objs
      end
  | (CRemove remote, None) =>
      List.filter (fun kv => negb (String.eqb (fst kv) remote)) objs
  | (CPurge dir, None) | (COperationsPurge dir, None) =>
      List.filter (fun kv => negb (under dir (fst kv))) objs
  | (CDirMove srcDir dstDir, None) =>
      map (fun kv => (rekey srcDir dstDir (fst kv), snd kv)) objs
  | _ => objs
  end.

Definition objects (h : list Event) : list (string * string) :=
  fold_left apply h [].

Definition lookup (h : list Event) (remote : string) : option string :=
  snd <$> List.find (fun kv => String.eqb (fst kv) remote) (objects h).

Definition answer (h : list Event) (c : BaseCall) : option error :=
  match c with
  | CNewObject remote | COpen remote | CRemove remote =>
      match lookup h remote with
      | Some _ => None
      | None => Some ErrorObjectNotFound
      end
  | CCopy srcRemote _ =>
      match lookup h srcRemote with
      | Some _ => None
      | None => Some ErrorObjectNotFound
      end
  | _ => None
  end.

Definition make (fault : list Event -> BaseCall -> option error) : Base :=
  {| reply := fun h c => match fault h c with
                         | Some e => Some e
                         | None => answer h c
                         end;
     content := fun h remote => (default "" (lookup h remote), None);
     feat_ChangeNotify := true;
     feat_DirMove := true;
     feat_Purge := true;
     feat_Copy := true;
     CanHaveEmptyDirectories := true |}.

Definition noFault : list Event -> BaseCall -> option error := fun _ _ => None.

End MemBase.

(** The receiver of the examples: identity hashing ([hash_type = none]),
    empty root. *)
Definition fsNone (b : Base) : Fs := {| base := b; hasher := hashNone; root := "" |}.
Definition fs0 : Fs := fsNone (MemBase.make MemBase.noFault).

(** Running one operation after another. *)
Definition run {A} (m : M A) (w : World) : option World :=
  match m w with
  | Ok _ w' => Some w'
  | _ => None
  end.

Definition value {A} (m : M A) (w : World) : option A :=
  match m w with
  | Ok a _ => Some a
  | _ => None
  end.

Definition calls (w : World) : list BaseCall := map fst (trace w).

(** ** Notions used by the statements *)

(** The part of an entry that makes the tree. *)
Definition skeleton (e : dirEntry) : string * string * option ptr * slice :=
  (Path e, Hash e, Parent e, Children e).

(** The tree, both indices and the arrays are the same; only file
    indices and the trace may differ. *)
Definition sameTree (w w' : World) : Prop :=
  dmap w' = dmap w /\ arrays w' = arrays w /\
  nextPtr w' = nextPtr w /\ nextArr w' = nextArr w /\
  skeleton <$> entries w' = skeleton <$> entries w.

(** A computation that comes back (with a value or a panic) from every
    state. *)
Definition returns {A} (m : M A) : Prop := forall w, m w <> OutOfFuel.

(** The children of [p] as its slice shows them. *)
Definition childrenIn (es : gmap ptr dirEntry) (ars : gmap nat (list ptr))
  (p : ptr) : option (list ptr) :=
  match es !! p with
  | None => None
  | Some e =>
      match ars !! s_arr (Children e) with
      | None => None
      | Some a =>
          if decide (s_len (Children e) <= length a)
          then Some (take (s_len (Children e)) a) else None
      end
  end.

Definition childrenOf (w : World) (p : ptr) : list ptr :=
  default [] (childrenIn (entries w) (arrays w) p).

(** Children first, depth first: the nodes under [p], each after
    everything below it. *)
Fixpoint postorder (fuel : nat) (es : gmap ptr dirEntry)
  (ars : gmap nat (list ptr)) (p : ptr) : option (list ptr) :=
  match fuel with
  | 0 => None
  | S n =>
      match childrenIn es ars p with
      | None => None
      | Some cs =>
          match mapM (postorder n es ars) cs with
          | None => None
          | Some ls => Some (concat ls ++ [p])
          end
      end
  end.

(** One node after the other, stopping at the first that fails: delete
    the container, then drop the node from both indices. *)
Fixpoint purgeEach (f : Fs) (l : list ptr) : M (option error) :=
  match l with
  | [] => ret None
  | p :: rest =>
      let* e := deref p in
      let* err := call f (CPurge (Hash e)) in
      match err with
      | Some _ => ret err
      | None => do unregister (Path e) (Hash e); purgeEach f rest
      end
  end.

Definition hashAt (w : World) (p : ptr) : string :=
  default "" (Hash <$> entries w !! p).
Definition pathAt (w : World) (p : ptr) : string :=
  default "" (Path <$> entries w !! p).

(** The events of a traversal that purged [done] and then, when [r] is
    an error, failed on the first of [rest]. *)
Definition purgeEvents (w : World) (done rest : list ptr) (r : option error)
  : list Event :=
  map (fun p => (CPurge (hashAt w p), None)) done ++
  match r, rest with
  | Some err, p :: _ => [(CPurge (hashAt w p), Some err)]
  | _, _ => []
  end.

Definition dropAll (ks : list string) (m : gmap string ptr) : gmap string ptr :=
  foldl (fun m k => delete k m) m ks.

(** Well-formed memory: every entry was allocated before its children,
    its slice fits its array, no two entries share an array, and the
    path index points at entries. *)
Record wf (w : World) : Prop := {
  wf_entry : forall p e, entries w !! p = Some e ->
    p < nextPtr w /\ s_arr (Children e) < nextArr w /\
    exists a, arrays w !! s_arr (Children e) = Some a /\
              s_len (Children e) <= length a /\
              (forall c, c ∈ take (s_len (Children e)) a -> c <> nilptr) /\
              (forall c, c ∈ a -> c <> nilptr ->
                         p < c /\ is_Some (entries w !! c));
  wf_index : forall k p, dirMap_Path (dmap w) !! k = Some p ->
                         is_Some (entries w !! p);
  wf_arrays : forall i a, arrays w !! i = Some a -> i < nextArr w;
  wf_noshare : forall p q e1 e2,
    entries w !! p = Some e1 -> entries w !! q = Some e2 ->
    s_arr (Children e1) = s_arr (Children e2) -> p = q;
  wf_next : 0 < nextPtr w
}.

(** The entries of the tree: the root, and the children of an entry of
    the tree. *)
Inductive reachable (w : World) : ptr -> Prop :=
| reach_root r : dirMap_Path (dmap w) !! "" = Some r -> reachable w r
| reach_child p c : reachable w p -> c ∈ childrenOf w p -> reachable w c.

(** The invariant of the directory tree as the data model states it. *)
Definition tree_invariant (f : Fs) (w : World) : Prop :=
  (forall p e, reachable w p -> entries w !! p = Some e ->
     Hash e = hasher f (Path e)) /\
  (forall p e q, reachable w p -> entries w !! p = Some e ->
     Parent e = Some q -> count_occ Nat.eq_dec (childrenOf w q) p = 1) /\
  (forall p q e1 e2, reachable w p -> reachable w q ->
     entries w !! p = Some e1 -> entries w !! q = Some e2 -> p <> q ->
     Path e1 <> Path e2 /\ Hash e1 <> Hash e2).

(** The pairs of the root index, by ascending path. *)
Definition indexPairs (w : World) : list (string * string) :=
  map (fun p => (default "" (hashAt w <$> dirMap_Path (dmap w) !! p), p))
      (sortStrings (map fst (map_to_list (dirMap_Path (dmap w))))).

(** The source and destination of every directory move asked of the
    wrapped remote. *)
Definition moves (w : World) : list (string * string) :=
  omap (fun c => match c with CDirMove s d => Some (s, d) | _ => None end)
       (calls w).

(** The bytes of the root index: one line per indexed path, ascending,
    made of the key of the entry, a space, the path and a newline. *)
Definition rootIndexBytes (w : World) : string :=
  String.concat ""
    (map (fun p => default "" (hashAt w <$> dirMap_Path (dmap w) !! p)
                   +:+ " " +:+ p +:+ NL)
         (sortStrings (map fst (map_to_list (dirMap_Path (dmap w)))))).

(** The outcome of [Rmdir] once the directory, with entry [e] and parent
    [parent], has been found empty in state [w1]: the entry leaves the
    children of its parent and both indices, the root index of what is
    then indexed is written, and if that write succeeds the container is
    purged. *)
Definition Rmdir_removed (f : Fs) (d : string) (entry : ptr) (e : dirEntry)
  (parent : ptr) (w1 : World) (res : result (option error)) : Prop :=
  exists w2 before after,
    childrenOf w1 parent = before ++ entry :: after /\ (entry ∉ before) /\
    childrenOf w2 parent = before ++ after /\
    (forall q, q <> parent -> childrenOf w2 q = childrenOf w1 q) /\
    (forall q, q <> parent -> entries w2 !! q = entries w1 !! q) /\
    dirMap_Path (dmap w2) = delete d (dirMap_Path (dmap w1)) /\
    dirMap_Hash (dmap w2) = delete (Hash e) (dirMap_Hash (dmap w1)) /\
    trace w2 = trace w1 /\ wf w2 /\
    let put := CPut "map" (rootIndexBytes w2) in
    let werr := reply (base f) (trace w1) put in
    let w3 := set_trace w2 (trace w1 ++ [(put, werr)]) in
    match werr with
    | Some err => res = Ok (Some err) w3
    | None =>
        let purge := COperationsPurge (Hash e) in
        let perr := reply (base f) (trace w3) purge in
        res = Ok (match perr with
                  | Some err =>
                      if errors_Is err ErrorDirNotFound then None else Some err
                  | None => None
                  end)
                 (set_trace w3 (trace w3 ++ [(purge, perr)]))
    end.


(** *** The statements that the code does not meet, as they are worded *)

(** "Every node of the subtree has its container purged, whatever
    failed before it." *)
Definition Purge_best_effort (f : Fs) (dir : string) (w : World) : Prop :=
  forall entry l r w',
    dirMap_Path (dmap w) !! path_Join [root f; dir] = Some entry ->
    postorder (nextPtr w) (entries w) (arrays w) entry = Some l ->
    Purge f dir w = Ok r w' ->
    forall p, p ∈ l -> CPurge (hashAt w p) ∈ calls w'.

(** "NotFound, BadState, NotEmpty and success are the only outcomes." *)
Definition Rmdir_listed (r : option error) : Prop :=
  r = None \/ r = Some ErrorDirNotFound \/ r = Some ErrorDirectoryNotEmpty \/
  exists err, r = Some (ErrorfW msg_bad_state err).

Definition Rmdir_only_listed (f : Fs) (dir : string) (w : World) : Prop :=
  exists r w', Rmdir f dir w = Ok r w' /\ Rmdir_listed r.

(** "A name with a newline makes Mkdir and Put fail, the state
    untouched." *)
Definition rejects_newline (f : Fs) (w : World) : Prop :=
  forall name, containsChar nl name = true ->
    (exists q, Mkdir f name w = Ok (Some (ErrorfQ msg_dir_newline q)) w) /\
    (forall data, exists q,
       Put f data name w = Ok (None, Some (ErrorfQ msg_file_newline q)) w).

(** ** Notions used to show that memory stays well-formed *)

(** A new entry with an empty slice of its own. *)
Definition withEntry (w : World) (e : dirEntry) : World :=
  {| entries := <[nextPtr w := e]> (entries w);
     arrays := <[nextArr w := []]> (arrays w);
     nextPtr := S (nextPtr w); nextArr := S (nextArr w);
     dmap := dmap w; trace := trace w |}.

Definition newEntry (f : Fs) (overlayPath : string) (parent : option ptr)
  (w : World) : dirEntry :=
  {| Path := overlayPath; Hash := hasher f overlayPath; Parent := parent;
     Children := {| s_arr := nextArr w; s_len := 0 |}; files := None |}.

Definition registered (f : Fs) (overlayPath : string) (w : World) : dirMap :=
  {| dirMap_Hash := <[hasher f overlayPath := nextPtr w]> (dirMap_Hash (dmap w));
     dirMap_Path := <[overlayPath := nextPtr w]> (dirMap_Path (dmap w)) |}.

(** Computations that keep memory well-formed. *)
Definition preserves {A} (m : M A) : Prop :=
  forall w a w', wf w -> m w = Ok a w' -> wf w'.

(** The tree agrees with the path index: an indexed path points at the
    entry of that path, which has no parent when the path is empty and
    no other, and an indexed entry that has a parent is among the
    children of the parent. *)
Record linked (w : World) : Prop := {
  linked_path : forall k p e,
    dirMap_Path (dmap w) !! k = Some p -> entries w !! p = Some e -> Path e = k;
  linked_root : forall k p e,
    dirMap_Path (dmap w) !! k = Some p -> entries w !! p = Some e ->
    (Parent e = None <-> k = "");
  linked_child : forall k p e parent,
    dirMap_Path (dmap w) !! k = Some p -> entries w !! p = Some e ->
    Parent e = Some parent -> p ∈ childrenOf w parent
}.

(** Computations that keep memory well-formed and the tree in agreement
    with the path index. *)
Definition keeps {A} (m : M A) : Prop :=
  forall w a w', wf w -> linked w -> m w = Ok a w' -> wf w' /\ linked w'.

(** The operations of the backend, to speak of sequences of them;
    [OpDirMove] says how deep [recurse] may go. *)
Inductive Op : Type :=
| OpMkdir (dir : string)
| OpRmdir (dir : string)
| OpPurge (dir : string)
| OpDirMove (fuel : nat) (srcRemote dstRemote : string)
| OpNewObject (remote : string)
| OpPut (data remote : string)
| OpCopy (srcRemote remote : string)
| OpRemove (remote : string)
| OpNotify (events : list (string * EntryType))
| OpReload.

Definition exec (f : Fs) (op : Op) : M unit :=
  match op with
  | OpMkdir dir => let* _ := Mkdir f dir in ret tt
  | OpRmdir dir => let* _ := Rmdir f dir in ret tt
  | OpPurge dir => let* _ := Purge f dir in ret tt
  | OpDirMove n s d => let* _ := DirMove n f s d in ret tt
  | OpNewObject r => let* _ := NewObject f r in ret tt
  | OpPut data r => let* _ := Put f data r in ret tt
  | OpCopy s r =>
      let* o := NewObject f s in
      match o with
      | inr o => let* _ := Copy f o r in ret tt
      | inl _ => ret tt
      end
  | OpRemove r =>
      let* o := NewObject f r in
      match o with
      | inr o => let* _ := Remove f o in ret tt
      | inl _ => ret tt
      end
  | OpNotify evs => let* _ := ChangeNotify f evs in ret tt
  | OpReload => let* _ := NewFs f in ret tt
  end.

Fixpoint execAll (f : Fs) (ops : list Op) : M unit :=
  match ops with
  | [] => ret tt
  | op :: rest => do exec f op; execAll f rest
  end.

(** [NewFs] and then the given operations, from an empty memory. *)
Definition runOps (f : Fs) (ops : list Op) : result unit :=
  (do NewFs f; execAll f ops) emptyWorld.

(** The state in which a run that has come back leaves memory.  It
    names the states of the examples, whose runs all come back
    ([examples_come_back]); statements about every run are made of
    [runOps]. *)
Definition stateAfter (f : Fs) (ops : list Op) : World :=
  match runOps f ops with
  | Ok _ w => w
  | _ => emptyWorld
  end.

Definition comesBack (f : Fs) (ops : list Op) : bool :=
  match runOps f ops with
  | Ok _ _ => true
  | _ => false
  end.

(** ** Fixtures *)

(** A fault that hits the first call equal to [c0] only. *)
Definition once (c0 : BaseCall) (e : error) : list Event -> BaseCall -> option error :=
  fun h c =>
    if bool_decide (c = c0) && negb (existsb (fun ev => bool_decide (fst ev = c0)) h)
    then Some e else None.

(** A fault that hits every call equal to [c0]. *)
Definition always (c0 : BaseCall) (e : error) : list Event -> BaseCall -> option error :=
  fun _ c => if bool_decide (c = c0) then Some e else None.

(** A second move of a directory that has been moved finds nothing. *)
Definition movedAway : list Event -> BaseCall -> option error :=
  fun h c =>
    match c with
    | CDirMove s _ =>
        if existsb (fun ev => match ev with
                              | (CDirMove s' _, None) => String.eqb s s'
                              | _ => false
                              end) h
        then Some ErrorDirNotFound else None
    | _ => None
    end.

(** Writing the root index fails from the [n]-th event on. *)
Definition quotaAfter (n : nat) : list Event -> BaseCall -> option error :=
  fun h c =>
    match c with
    | CPut "map" _ => if n <=? length h then Some (ErrNew "quota exceeded") else None
    | _ => None
    end.

(** A remote that refuses to purge "a/1". *)
Definition fsFail : Fs :=
  fsNone (MemBase.make (always (CPurge "a/1") (ErrNew "permission denied"))).

(** A remote on which the root index can no longer be written after
    three events. *)
Definition fsQuota : Fs := fsNone (MemBase.make (quotaAfter 3)).

(** A remote on which the first look for the file index of "a" times
    out. *)
Definition fsTimeout : Fs :=
  fsNone (MemBase.make (once (CNewObject "a/map") (ErrNew "timeout"))).

(** The state of a new [Fs] over an empty remote. *)
Definition w0 : World := default emptyWorld (run (NewFs fs0) emptyWorld).

Definition after {A} (m : M A) (w : World) : World := default w (run m w).

(** ** Notions used by the further properties *)

(** The last byte of [s] is a slash. *)
Fixpoint endsWithSlash (s : string) : bool :=
  match s with
  | "" => false
  | String a "" => eqb_ascii a slash
  | String _ r => endsWithSlash r
  end.

(** The tree that [newDirMap] makes: the root alone, in both indices,
    with an empty slice of children and no file index loaded; the
    entries made before stay in memory. *)
Definition freshTree (f : Fs) (w : World) : World :=
  {| entries := <[nextPtr w := {| Path := ""; Hash := hasher f ""; Parent := None;
                                  Children := {| s_arr := nextArr w; s_len := 0 |};
                                  files := None |}]> (entries w);
     arrays := <[nextArr w := []]> (arrays w);
     nextPtr := S (nextPtr w); nextArr := S (nextArr w);
     dmap := {| dirMap_Hash := <[hasher f "" := nextPtr w]> ∅;
                dirMap_Path := <["" := nextPtr w]> ∅ |};
     trace := trace w |}.

(** A name and a key that the line format of an index can hold: no
    newline in either, no space in the key. *)
Definition plainLine (key name : string) : bool :=
  negb (containsChar nl name) && negb (containsChar nl key)
  && negb (containsChar space key).

Definition plainFiles (m : gmap string string) : bool :=
  forallb (fun kv => plainLine (snd kv) (fst kv)) (map_to_list m).

(** [w'] is [w] with more directories: the trace and the indexed paths
    of [w] are kept, the entries of [w] keep their path, key, parent
    and file index and their children, and every path indexed since is
    that of a new entry, keyed by the hash of the path, with no file
    index loaded, which is a child of the entry indexed for its parent
    path (the root has no parent). *)
Record grows (f : Fs) (w w' : World) : Prop := {
  grows_trace : trace w' = trace w;
  grows_next : nextPtr w <= nextPtr w';
  grows_index : forall k q,
    dirMap_Path (dmap w) !! k = Some q -> dirMap_Path (dmap w') !! k = Some q;
  grows_entries : forall q e, entries w !! q = Some e ->
    exists e', entries w' !! q = Some e' /\ Path e' = Path e /\ Hash e' = Hash e /\
               Parent e' = Parent e /\ files e' = files e;
  grows_children : forall q c, c ∈ childrenOf w q -> c ∈ childrenOf w' q;
  grows_new : forall k q,
    dirMap_Path (dmap w') !! k = Some q -> dirMap_Path (dmap w) !! k = None ->
    nextPtr w <= q /\
    exists e, entries w' !! q = Some e /\ Path e = k /\ Hash e = hasher f k /\
              files e = None /\
              if String.eqb k "" then Parent e = None
              else exists pp, Parent e = Some pp /\
                     dirMap_Path (dmap w') !! parentPathOf k = Some pp /\
                     q ∈ childrenOf w' pp
}.

(** [k] is [p] or one of the paths above it. *)
Inductive pathAbove : string -> string -> Prop :=
| above_self p : pathAbove p p
| above_parent k p : p <> "" -> pathAbove k (parentPathOf p) -> pathAbove k p.

(** The path index points [k] at an entry with that path whose key is
    the hash of the path. *)
Definition indexedAt (f : Fs) (w : World) (k : string) (p : ptr) : bool :=
  match entries w !! p with
  | Some e => String.eqb (Path e) k && String.eqb (Hash e) (hasher f k)
  | None => false
  end.

(** An index that its own lines can hold: the root is indexed, and every
    indexed path has no newline, a key without newline or space, an
    entry of its own, and its parent path indexed. *)
Definition reloadable (f : Fs) (w : World) : bool :=
  bool_decide (is_Some (dirMap_Path (dmap w) !! "")) &&
  forallb (fun kp =>
             plainLine (hasher f (fst kp)) (fst kp) && indexedAt f w (fst kp) (snd kp)
             && bool_decide (is_Some (dirMap_Path (dmap w) !! parentPathOf (fst kp))))
          (map_to_list (dirMap_Path (dmap w))).

(** A line that the readers of an index take: empty, or with a space. *)
Definition lineOk (l : string) : bool :=
  String.eqb l "" || containsChar space l.

(** ** More fixtures *)

(** A remote that cannot move directories. *)
Definition fsNoMove : Fs :=
  fsNone {| reply := reply (MemBase.make MemBase.noFault);
            content := content (MemBase.make MemBase.noFault);
            feat_ChangeNotify := true; feat_DirMove := false;
            feat_Purge := true; feat_Copy := true;
            CanHaveEmptyDirectories := true |}.

(** A remote on which the root index cannot be looked up. *)
Definition fsNoLookup : Fs :=
  fsNone (MemBase.make (always (CNewObject "map") (ErrNew "timeout"))).

(** A remote on which the root index cannot be opened. *)
Definition fsNoOpen : Fs :=
  fsNone (MemBase.make (always (COpen "map") (ErrNew "permission denied"))).

(** A remote that refuses to make the container "a". *)
Definition fsNoMkdir : Fs :=
  fsNone (MemBase.make (always (CMkdir "a") (ErrNew "permission denied"))).

(** A receiver whose root is the directory "r" of the remote. *)
Definition fsRooted : Fs :=
  {| base := MemBase.make MemBase.noFault; hasher := hashNone; root := "r" |}.

(** The runs of the examples. *)
Definition exampleRuns : list (Fs * list Op) :=
  [(fs0, []);
   (fs0, [OpMkdir "a"]);
   (fs0, [OpMkdir "a b"]);
   (fs0, [OpMkdir "a b"; OpReload]);
   (fs0, [OpMkdir "a/b"]);
   (fs0, [OpMkdir "a"; OpMkdir "b"]);
   (fs0, [OpMkdir "a"; OpDirMove 1 "a" ("x" +:+ NL +:+ "y")]);
   (fs0, [OpMkdir "a"; OpPurge "a"; OpMkdir "a"]);
   (fs0, [OpMkdir "a"; OpPut "hello" "a/x"]);
   (fs0, [OpMkdir "a"; OpPut "hello" "a/x"; OpReload]);
   (fs0, [OpMkdir "a"; OpMkdir "b"; OpPut "hello" "a/x"]);
   (fs0, [OpMkdir "a"; OpMkdir "b"; OpPut "hello" "a/x"; OpNewObject "b/x"]);
   (fs0, [OpMkdir "a/1"; OpMkdir "a/2"]);
   (fs0, [OpMkdir "a/1"; OpMkdir "a/2"; OpMkdir "a/3"]);
   (fs0, [OpMkdir "a/1"; OpMkdir "a/2"; OpDirMove 7 "a" "a/2/x/y/z/w";
          OpPurge "a/2/x"; OpMkdir "a"; OpRmdir "a"]);
   (fsNone (MemBase.make movedAway), [OpMkdir "a/1"; OpMkdir "a/2"; OpMkdir "a/3"]);
   (fsFail, [OpMkdir "a/1"; OpMkdir "a/2"]);
   (fsQuota, [OpMkdir "a"]);
   (fsNoMkdir, []);
   (fsRooted, [OpMkdir "a"])].

(** The entries of the examples: a directory under the root, as
    [newDirEntry] makes it under identity hashing. *)
Definition entryOf (path : string) (parent : ptr) (arr len : nat)
  (fls : option (gmap string string)) : dirEntry :=
  {| Path := path; Hash := path; Parent := Some parent;
     Children := {| s_arr := arr; s_len := len |}; files := fls |}.

(** ** dir.go: listings *)

(** [directory]: [dir_base] is the directory of the wrapped remote, named
    by its remote, when one was found; [dir_entry] is the entry. *)
Record directory : Type := { dir_base : option string; dir_entry : ptr }.

(** An element of [fs.DirEntries]. *)
Inductive DirEntry : Type :=
| EntDir (d : directory)
| EntObj (o : object).

(** [f.base.List(ctx, "")]: the error, or the remotes of the directories
    that the wrapped remote lists at its root, as a function of the
    events so far. *)
Definition Lister : Type := list Event -> error + list string.

(** [subdirNames[child.Hash] = child] for every child. *)
Fixpoint childNames (cs : list ptr) (m : gmap string ptr) : M (gmap string ptr) :=
  match cs with
  | [] => ret m
  | c :: rest => let* e := deref c in childNames rest (<[Hash e := c]> m)
  end.

(** The function handed to [ForDir]: a listed directory whose remote is
    the key of a child is appended with that child, and the child is
    taken out of the map. *)
Fixpoint matchDirs (subdirNames : gmap string ptr) (baseDirs : list string)
  : list DirEntry * gmap string ptr :=
  match baseDirs with
  | [] => ([], subdirNames)
  | d :: rest =>
      match subdirNames !! d with
      | None => matchDirs subdirNames rest
      | Some entry =>
          let '(es, m) := matchDirs (delete d subdirNames) rest in
          (EntDir {| dir_base := Some d; dir_entry := entry |} :: es, m)
      end
  end.

(** The loop over the file names: a file that [NewObject] does not
    return is left out. *)
Fixpoint listFiles (f : Fs) (entryPath : string) (names : list string)
  : M (list DirEntry) :=
  match names with
  | [] => ret []
  | k :: rest =>
      let filePath := path_Join [entryPath; k] in
      let filePath := TrimPrefix filePath (root f) in
      let filePath := TrimPrefix filePath "/" in
      let* o := NewObject f filePath in
      let* es := listFiles f entryPath rest in
      ret (match o with inr o => EntObj o :: es | inl _ => es end)
  end.

(** [list]; the two maps are gone through in the order of
    [map_to_list], which stands for the order of Go. *)
Definition Fs_list (f : Fs) (ls : Lister) (entry : ptr) : M (error + list DirEntry) :=
  let* e := deref entry in
  let* a := getArray (s_arr (Children e)) in
  let* subdirNames := childNames (take (s_len (Children e)) a) ∅ in
  let* fl := Files f entry in
  match fl with
  | inl err => ret (inl err)
  | inr fls =>
      let subpathNames := map fst (map_to_list fls) in
      let* w := get in
      let matched :=
        if 0 <? size subdirNames then
          match ls (trace w) with
          | inl err => inl err
          | inr baseDirs => inr (matchDirs subdirNames baseDirs)
          end
        else inr ([], subdirNames) in
      match matched with
      | inl err => ret (inl err)
      | inr (dirs, unmatched) =>
          let rest := map (fun kv => EntDir {| dir_base := None; dir_entry := snd kv |})
                          (map_to_list unmatched) in
          let* e := deref entry in
          let* objs := listFiles f (Path e) subpathNames in
          ret (inr (dirs ++ rest ++ objs))
      end
  end.

(** [List] *)
Definition Fs_List (f : Fs) (ls : Lister) (dir : string) : M (error + list DirEntry) :=
  let dir := path_Join [root f; dir] in
  let* entry := lookupPath dir in
  match entry with
  | None => ret (inl ErrorDirNotFound)
  | Some entry => Fs_list f ls entry
  end.

(** The closure [recurse] of [ListR]; [callback] answers each tranche. *)
Fixpoint ListR_recurse (fuel : nat) (f : Fs) (ls : Lister)
  (callback : list DirEntry -> option error) (e : ptr) : M (option error) :=
  match fuel with
  | 0 => fun _ => OutOfFuel
  | S n =>
      let* r := Fs_list f ls e in
      match r with
      | inl err => ret (Some err)
      | inr ents =>
          match callback ents with
          | Some err => ret (Some err)
          | None =>
              let* en := deref e in
              rangeSlice (Children en) (ListR_recurse n f ls callback)
          end
      end
  end.

(** [ListR] *)
Definition Fs_ListR (f : Fs) (ls : Lister) (dir : string)
  (callback : list DirEntry -> option error) : M (option error) :=
  let dir := path_Join [root f; dir] in
  let* entry := lookupPath dir in
  match entry with
  | None => ret (Some ErrorDirNotFound)
  | Some entry =>
      let* w := get in
      ListR_recurse (nextPtr w) f ls callback entry
  end.

(** The directories of a listing, and its objects. *)
Definition dirsOf (ents : list DirEntry) : list directory :=
  omap (fun x => match x with EntDir d => Some d | EntObj _ => None end) ents.
Definition objsOf (ents : list DirEntry) : list object :=
  omap (fun x => match x with EntObj o => Some o | EntDir _ => None end) ents.

(** The children of [p] by key, as [list] collects them. *)
Definition childKeys (w : World) (p : ptr) : gmap string ptr :=
  foldl (fun m c => <[hashAt w c := c]> m) ∅ (childrenOf w p).

(** A wrapped remote that lists the given directories, and one whose
    listing fails. *)
Definition listerOf (dirs : list string) : Lister := fun _ => inr dirs.
Definition listerFails : Lister := fun _ => inl (ErrNew "listing failed").

(** * Properties *)

(** ** The string and path functions on examples *)

Example path_Split_ex1 : path_Split "a/b/c" = ("a/b/", "c").
Proof. reflexivity. Qed.
Example path_Split_ex2 : path_Split "abc" = ("", "abc").
Proof. reflexivity. Qed.
Example path_Clean_ex1 : path_Clean "a//b/./c/.." = "a/b".
Proof. reflexivity. Qed.
Example path_Clean_ex2 : path_Clean "/../a" = "/a".
Proof. reflexivity. Qed.
Example path_Clean_ex3 : path_Clean "../../a/.." = "../..".
Proof. reflexivity. Qed.
Example path_Join_ex1 : path_Join [""; "a/b"] = "a/b".
Proof. reflexivity. Qed.
Example path_Join_ex2 : path_Join [""; ""] = "".
Proof. reflexivity. Qed.
Example path_Join_ex3 : path_Join ["a"; ".."] = ".".
Proof. reflexivity. Qed.
Example Split_ex1 : Split slash "a/b/data" = ["a"; "b"; "data"].
Proof. reflexivity. Qed.
Example readLines_ex1 :
  readLines ("x a" +:+ NL +:+ NL +:+ "y b" +:+ NL +:+ "tail") = (["x a"; ""; "y b"], "tail").
Proof. reflexivity. Qed.
Example sortStrings_ex1 : sortStrings ["b"; ""; "a/b"; "a"] = [""; "a"; "a/b"; "b"].
Proof. vm_compute. reflexivity. Qed.

(** ** Frame properties *)

Lemma sameTree_refl w : sameTree w w.
Proof. repeat split. Qed.

Lemma sameTree_trans w1 w2 w3 : sameTree w1 w2 -> sameTree w2 w3 -> sameTree w1 w3.
Proof.
  intros (?&?&?&?&?) (?&?&?&?&?). repeat split; congruence.
Qed.

Lemma sameTree_lookup w w' p e :
  sameTree w w' -> entries w !! p = Some e ->
  exists e', entries w' !! p = Some e' /\ skeleton e' = skeleton e.
Proof.
  intros (_&_&_&_&H) He.
  assert (Hs : (skeleton <$> entries w') !! p = Some (skeleton e))
    by (rewrite H, lookup_fmap, He; reflexivity).
  rewrite lookup_fmap in Hs. destruct (entries w' !! p) as [e'|]; [|discriminate].
  exists e'. split; [reflexivity|]. simpl in Hs. congruence.
Qed.

Lemma sameTree_set_trace w t : sameTree w (set_trace w t).
Proof. repeat split. Qed.

Lemma sameTree_set_files w p e m :
  entries w !! p = Some e ->
  sameTree w (set_entries w (<[p := set_files e m]> (entries w))).
Proof.
  intros He. repeat split; simpl.
  apply map_eq. intros q. rewrite !lookup_fmap.
  destruct (decide (p = q)) as [->|Hne].
  - rewrite lookup_insert_eq, He. reflexivity.
  - by rewrite lookup_insert_ne.
Qed.

Tactic Notation "mdestruct" hyp(H) "as" ident(a) ident(w) ident(E) :=
  match type of H with
  | context [match ?m with Ok _ _ => _ | Panic _ => _ | OutOfFuel => _ end] =>
      destruct m as [a w| |] eqn:E; try discriminate
  end.

Lemma call_spec f c w r w' :
  call f c w = Ok r w' ->
  r = reply (base f) (trace w) c /\ w' = set_trace w (trace w ++ [(c, r)]).
Proof. unfold call. intros H. inversion H. subst. auto. Qed.

Lemma setFiles_spec d m w r w' :
  setFiles d m w = Ok r w' ->
  exists e, entries w !! d = Some e /\
            w' = set_entries w (<[d := set_files e m]> (entries w)).
Proof.
  unfold setFiles, bind, deref, store, modify. destruct (entries w !! d) as [e|]; [|discriminate].
  intros H. inversion H. eauto.
Qed.

Lemma filesInsert_frame d n h w r w' :
  filesInsert d n h w = Ok r w' -> sameTree w w' /\ trace w' = trace w.
Proof.
  unfold filesInsert, bind, deref, store, modify, panic.
  destruct (entries w !! d) as [e|] eqn:He; [|discriminate].
  destruct (files e); [|discriminate]. intros H. inversion H. subst.
  split; [by apply sameTree_set_files|reflexivity].
Qed.

Lemma fillLines_frame d lines : forall w r w',
  fillLines d lines w = Ok r w' -> sameTree w w' /\ trace w' = trace w.
Proof.
  induction lines as [|l ls IH]; intros w r w' H; simpl in H.
  - inversion H. split; [apply sameTree_refl|reflexivity].
  - destruct (String.eqb l ""); [eauto|].
    destruct (SplitN2 space l) as [[h n]|].
    + unfold bind in H. mdestruct H as u w1 E. apply filesInsert_frame in E as [? ?].
      apply IH in H as [? ?]. split; [eapply sameTree_trans; eauto|congruence].
    + inversion H. split; [apply sameTree_refl|reflexivity].
Qed.

Lemma fillLines_loaded d lines : forall w r w' e,
  entries w !! d = Some e -> is_Some (files e) ->
  fillLines d lines w = Ok r w' ->
  exists e', entries w' !! d = Some e' /\ is_Some (files e').
Proof.
  induction lines as [|l ls IH]; intros w r w' e He Hf H; simpl in H.
  - inversion H. subst. eauto.
  - destruct (String.eqb l ""); [eauto|].
    destruct (SplitN2 space l) as [[h n]|].
    + unfold bind in H. mdestruct H as u w1 E.
      unfold filesInsert, bind, deref, store, modify, panic in E. rewrite He in E.
      destruct Hf as [m Hm]. rewrite Hm in E. inversion E. subst.
      eapply IH in H; [exact H|simpl; apply lookup_insert_eq|simpl; eauto].
    + inversion H. subst. eauto.
Qed.

Lemma openObj_spec f remote w r w' :
  openObj f remote w = Ok r w' ->
  exists err, w' = set_trace w (trace w ++ [(COpen remote, err)]).
Proof.
  unfold openObj, call. destruct (reply _ _ _); intros H; inversion H; subst; eauto.
Qed.

Lemma readMapFile_frame f d remote w r w' :
  readMapFile f d remote w = Ok r w' ->
  sameTree w w' /\ exists evs, trace w' = trace w ++ evs.
Proof.
  unfold readMapFile, bind. intros H. mdestruct H as r1 w1 E.
  apply call_spec in E as [-> ->].
  destruct (reply _ _ _) as [err|].
  - destruct (errors_Is _ _); inversion H; subst;
      (split; [apply sameTree_set_trace|simpl; eauto]).
  - mdestruct H as o w2 E. apply openObj_spec in E as [oe ->].
    destruct o as [err|[data tail]].
    + inversion H; subst. split; [repeat split|simpl].
      rewrite <- app_assoc. eauto.
    + mdestruct H as r3 w3 E. apply fillLines_frame in E as [Hs Ht].
      assert (sameTree w w3 /\ exists evs, trace w3 = trace w ++ evs) as [Hs' Ht'].
      { split.
        - eapply sameTree_trans; [|exact Hs]. repeat split.
        - rewrite Ht. simpl. rewrite <- app_assoc. eauto. }
      destruct r3; [inversion H; subst; auto|].
      destruct tail; inversion H; subst; auto.
Qed.

Lemma readMapFile_loaded f d remote w r w' e :
  entries w !! d = Some e -> is_Some (files e) ->
  readMapFile f d remote w = Ok r w' ->
  exists e', entries w' !! d = Some e' /\ is_Some (files e').
Proof.
  intros He Hf. unfold readMapFile, bind. intros H. mdestruct H as r1 w1 E.
  apply call_spec in E as [-> ->].
  destruct (reply _ _ _) as [err|].
  - destruct (errors_Is _ _); inversion H; subst; simpl; eauto.
  - mdestruct H as o w2 E. apply openObj_spec in E as [oe ->].
    destruct o as [err|[data tail]].
    + inversion H; subst. simpl. eauto.
    + mdestruct H as r3 w3 E. eapply fillLines_loaded in E; [|simpl; eauto|eauto].
      destruct r3; [inversion H; subst; auto|].
      destruct tail; inversion H; subst; auto.
Qed.

(** What [fillFiles] does to the entry and to the rest of the state. *)
Lemma fillFiles_spec f d w r w' :
  fillFiles f d w = Ok r w' ->
  sameTree w w' /\ (exists evs, trace w' = trace w ++ evs) /\
  exists e', entries w' !! d = Some e' /\
    match r with
    | Some _ => files e' = None
    | None => is_Some (files e')
    end.
Proof.
  unfold fillFiles, bind, deref. destruct (entries w !! d) as [e|] eqn:He; [|discriminate].
  destruct (files e) as [m|] eqn:Hf.
  - intros H. inversion H. subst. split; [apply sameTree_refl|].
    split; [exists []; by rewrite app_nil_r|]. exists e. rewrite Hf. eauto.
  - intros H. mdestruct H as u w0 E. apply setFiles_spec in E as (e0 & He0 & ->).
    rewrite He in He0. inversion He0. subst e0.
    mdestruct H as a w1 E.
    pose proof (readMapFile_frame _ _ _ _ _ _ E) as [Hs Ht].
    eapply readMapFile_loaded in E as (e1 & He1 & Hf1);
      [|simpl; apply lookup_insert_eq|simpl; eauto].
    assert (Hs0 : sameTree w w1).
    { eapply sameTree_trans; [|exact Hs]. by apply sameTree_set_files. }
    destruct a as [err|].
    + mdestruct H as u2 w2 E2. apply setFiles_spec in E2 as (e2 & He2 & ->).
      inversion H. subst. split.
      { eapply sameTree_trans; [exact Hs0|]. by apply sameTree_set_files. }
      split; [exact Ht|]. eexists. split; [simpl; apply lookup_insert_eq|reflexivity].
    + inversion H. subst. split; [exact Hs0|]. split; [exact Ht|]. eauto.
Qed.

Lemma Files_spec f d w r w' :
  Files f d w = Ok r w' ->
  sameTree w w' /\ (exists evs, trace w' = trace w ++ evs) /\
  exists e', entries w' !! d = Some e' /\
    match r with
    | inl _ => files e' = None
    | inr m => files e' = Some m
    end.
Proof.
  unfold Files, bind. intros H. mdestruct H as r1 w1 E.
  apply fillFiles_spec in E as (Hs & Ht & e' & He' & Hr).
  destruct r1 as [err|].
  - inversion H. subst. eauto 6.
  - unfold deref in H. rewrite He' in H. inversion H. subst.
    destruct Hr as [m Hm]. rewrite Hm. simpl. eauto 6.
Qed.

Lemma rootIndexLines_frame paths : forall w ls w',
  rootIndexLines paths w = Ok ls w' -> w' = w.
Proof.
  induction paths as [|p ps IH]; intros w ls w' H; simpl in H.
  - by inversion H.
  - unfold bind, lookupPath, deref in H.
    destruct (dirMap_Path (dmap w) !! p) as [entry|]; [|discriminate].
    destruct (entries w !! entry) as [e|]; [|discriminate].
    mdestruct H as ls1 w1 E. apply IH in E. inversion H. congruence.
Qed.

Lemma dirMap_write_spec f w r w' :
  dirMap_write f w = Ok r w' ->
  exists bytes, w' = set_trace w (trace w ++ [(CPut "map" bytes, r)]).
Proof.
  unfold dirMap_write, bind, get. intros H. mdestruct H as ls w1 E.
  apply rootIndexLines_frame in E. subst w1.
  apply call_spec in H as [-> ->]. eauto.
Qed.

Lemma removeEntry_spec path w u w' entry e :
  dirMap_Path (dmap w) !! path = Some entry ->
  entries w !! entry = Some e ->
  removeEntry path w = Ok u w' ->
  dmap w' = {| dirMap_Hash := delete (Hash e) (dirMap_Hash (dmap w));
               dirMap_Path := delete path (dirMap_Path (dmap w)) |} /\
  trace w' = trace w /\ is_Some (Parent e).
Proof.
  intros Hp He. unfold removeEntry, bind, lookupPath, deref. rewrite Hp, He.
  destruct (Parent e) as [parent|]; [|discriminate].
  destruct (entries w !! parent) as [pe|]; [|discriminate].
  unfold getArray. destruct (arrays w !! s_arr (Children pe)) as [l|] eqn:Hl; [|discriminate].
  destruct (indexOf _ _) as [idx|]; [|discriminate].
  unfold slice_delete, bind, getArray. rewrite Hl.
  destruct (decide _); [|discriminate].
  unfold putArray, store, unregister, modify, ret, bind. intros H. inversion H. subst.
  simpl. eauto.
Qed.

(** ** Computations without recursion on fuel always come back *)

Lemma returns_bind {A B} (m : M A) (k : A -> M B) :
  returns m -> (forall a, returns (k a)) -> returns (bind m k).
Proof.
  intros Hm Hk w. unfold bind. destruct (m w) eqn:E; [apply Hk|discriminate|].
  by apply Hm in E.
Qed.

Lemma returns_ret {A} (a : A) : returns (ret a).
Proof. intros w; discriminate. Qed.
Lemma returns_panic {A} msg : returns (@panic A msg).
Proof. intros w; discriminate. Qed.
Lemma returns_get : returns get.
Proof. intros w; discriminate. Qed.
Lemma returns_modify g : returns (modify g).
Proof. intros w; discriminate. Qed.
Lemma returns_deref p : returns (deref p).
Proof. intros w. unfold deref. destruct (_ !! _); discriminate. Qed.
Lemma returns_store p e : returns (store p e).
Proof. apply returns_modify. Qed.
Lemma returns_getArray a : returns (getArray a).
Proof. intros w. unfold getArray. destruct (_ !! _); discriminate. Qed.
Lemma returns_putArray a l : returns (putArray a l).
Proof. apply returns_modify. Qed.
Lemma returns_alloc e : returns (alloc e).
Proof. intros w; discriminate. Qed.
Lemma returns_allocArray l : returns (allocArray l).
Proof. intros w; discriminate. Qed.
Lemma returns_call f c : returns (call f c).
Proof. intros w; discriminate. Qed.
Lemma returns_openObj f r : returns (openObj f r).
Proof. intros w. unfold openObj, call. destruct (reply _ _ _); discriminate. Qed.
Lemma returns_lookupPath p : returns (lookupPath p).
Proof. intros w; discriminate. Qed.
Lemma returns_lookupHash p : returns (lookupHash p).
Proof. intros w; discriminate. Qed.
Lemma returns_register p h e : returns (register p h e).
Proof. apply returns_modify. Qed.
Lemma returns_unregister p h : returns (unregister p h).
Proof. apply returns_modify. Qed.

Create HintDb returns.
#[export] Hint Resolve returns_ret returns_panic returns_get returns_modify
  returns_deref returns_store returns_getArray returns_putArray returns_alloc
  returns_allocArray returns_call returns_openObj returns_lookupPath
  returns_lookupHash returns_register returns_unregister : returns.

Ltac returns_step :=
  match goal with
  | |- returns (bind _ _) => apply returns_bind; [|intros ?]
  | |- returns (match ?x with _ => _ end) => destruct x
  | |- returns (if ?x then _ else _) => destruct x
  | |- returns (let '(_, _) := ?x in _) => destruct x
  | |- returns _ => solve [auto with returns]
  end.
Ltac returns_tac := repeat returns_step.

Lemma returns_setFiles d m : returns (setFiles d m).
Proof. unfold setFiles. returns_tac. Qed.
Lemma returns_filesInsert d n h : returns (filesInsert d n h).
Proof. unfold filesInsert. returns_tac. Qed.
Lemma returns_filesDelete d n : returns (filesDelete d n).
Proof. unfold filesDelete. returns_tac. Qed.
#[export] Hint Resolve returns_setFiles returns_filesInsert returns_filesDelete : returns.

Lemma returns_fillLines d lines : returns (fillLines d lines).
Proof. induction lines; simpl; returns_tac. Qed.
#[export] Hint Resolve returns_fillLines : returns.

Lemma returns_readMapFile f d r : returns (readMapFile f d r).
Proof. unfold readMapFile. returns_tac. Qed.
#[export] Hint Resolve returns_readMapFile : returns.

Lemma returns_fillFiles f d : returns (fillFiles f d).
Proof. unfold fillFiles. returns_tac. Qed.
#[export] Hint Resolve returns_fillFiles : returns.

Lemma returns_Files f d : returns (Files f d).
Proof. unfold Files. returns_tac. Qed.
#[export] Hint Resolve returns_Files : returns.

Lemma returns_dirEntry_write f d : returns (dirEntry_write f d).
Proof. unfold dirEntry_write. returns_tac. Qed.
#[export] Hint Resolve returns_dirEntry_write : returns.

Lemma returns_slice_append s x : returns (slice_append s x).
Proof. unfold slice_append. returns_tac. Qed.
Lemma returns_slice_delete s i : returns (slice_delete s i).
Proof. unfold slice_delete. returns_tac. Qed.
Lemma returns_arrayAt a i : returns (arrayAt a i).
Proof. unfold arrayAt. returns_tac. Qed.
Lemma returns_makeSlice : returns makeSlice.
Proof. unfold makeSlice. returns_tac. Qed.
#[export] Hint Resolve returns_slice_append returns_slice_delete
  returns_arrayAt returns_makeSlice : returns.

Lemma returns_removeEntry path : returns (removeEntry path).
Proof. unfold removeEntry. returns_tac. Qed.
#[export] Hint Resolve returns_removeEntry : returns.

Lemma returns_rootIndexLines paths : returns (rootIndexLines paths).
Proof. induction paths; simpl; returns_tac. Qed.
#[export] Hint Resolve returns_rootIndexLines : returns.

Lemma returns_dirMap_write f : returns (dirMap_write f).
Proof. unfold dirMap_write. returns_tac. Qed.
#[export] Hint Resolve returns_dirMap_write : returns.

Lemma returns_Rmdir f dir : returns (Rmdir f dir).
Proof. unfold Rmdir. returns_tac. Qed.


(** ** Purge: the traversal as a list *)

Lemma purgeEach_app f l1 : forall l2 w,
  purgeEach f (l1 ++ l2) w =
  (let* err := purgeEach f l1 in
   match err with
   | Some _ => ret err
   | None => purgeEach f l2
   end) w.
Proof.
  induction l1 as [|p l1 IH]; intros l2 w; simpl; [reflexivity|].
  unfold bind. destruct (deref p w) as [e w1| |]; [|reflexivity..].
  destruct (call f _ w1) as [err w2| |]; [|reflexivity..].
  destruct err; [reflexivity|].
  destruct (unregister _ _ w2) as [u w3| |]; [|reflexivity..].
  rewrite IH. reflexivity.
Qed.

Lemma purgeEach_heap f l : forall w r w',
  purgeEach f l w = Ok r w' ->
  entries w' = entries w /\ arrays w' = arrays w /\
  nextPtr w' = nextPtr w /\ nextArr w' = nextArr w.
Proof.
  induction l as [|p l IH]; intros w r w' H; simpl in H.
  - inversion H. auto.
  - unfold bind, deref in H. destruct (entries w !! p) as [e|]; [|discriminate].
    unfold call in H. destruct (reply _ _ _).
    + inversion H. auto.
    + unfold unregister, modify in H. apply IH in H. exact H.
Qed.

Lemma rangeFrom_purge f n a arr :
  (forall c w l, postorder n (entries w) (arrays w) c = Some l ->
                 Purge_purge n f c w = purgeEach f l w) ->
  forall cs ls i w,
    arrays w !! arr = Some a ->
    (forall j c, cs !! j = Some c -> a !! (i + j) = Some c) ->
    Forall2 (fun c l => postorder n (entries w) (arrays w) c = Some l) cs ls ->
    rangeFrom arr (length cs) i (Purge_purge n f) w = purgeEach f (concat ls) w.
Proof.
  intros IHn. induction cs as [|c cs IH]; intros ls i w Ha Hcs HF.
  - inversion HF. subst. reflexivity.
  - inversion HF as [|? l ? ls' Hc HF']. subst. simpl.
    rewrite purgeEach_app. unfold bind, arrayAt, getArray. unfold bind.
    rewrite Ha. specialize (Hcs 0 c eq_refl) as Hi. rewrite Nat.add_0_r in Hi.
    rewrite Hi. unfold ret at 1. rewrite (IHn _ _ _ Hc).
    destruct (purgeEach f l w) as [r w1| |] eqn:E; [|reflexivity..].
    destruct r; [reflexivity|].
    apply purgeEach_heap in E as (He & Harr & _).
    apply IH.
    + by rewrite Harr.
    + intros j c' Hj. specialize (Hcs (S j) c' Hj). by rewrite <- Nat.add_succ_comm in Hcs.
    + rewrite He, Harr. exact HF'.
Qed.

(** [purge] is [purgeEach] over the children-first order. *)
Lemma Purge_purge_postorder f n : forall p w l,
  postorder n (entries w) (arrays w) p = Some l ->
  Purge_purge n f p w = purgeEach f l w.
Proof.
  induction n as [|n IHn]; intros p w l H; [discriminate|].
  simpl in H. unfold childrenIn in H.
  destruct (entries w !! p) as [e|] eqn:He; [|discriminate].
  destruct (arrays w !! s_arr (Children e)) as [a|] eqn:Ha; [|discriminate].
  destruct (decide _) as [Hlen|]; [|discriminate].
  destruct (mapM _ _) as [ls|] eqn:Hm; [|discriminate].
  inversion H. subst l. clear H.
  apply mapM_Some in Hm.
  rewrite purgeEach_app. simpl. unfold bind, deref. rewrite He.
  unfold rangeSlice.
  replace (s_len (Children e)) with (length (take (s_len (Children e)) a))
    by (rewrite length_take; lia).
  erewrite (rangeFrom_purge f n a); eauto.
  2:{ intros j c Hj. simpl. apply lookup_take_Some in Hj. tauto. }
  destruct (purgeEach f (concat ls) w) as [r w1| |] eqn:E; [|reflexivity..].
  destruct r; [reflexivity|].
  apply purgeEach_heap in E as (He1 & _).
  rewrite He1, He.
  destruct (call f _ w1) as [err w2| |]; [|reflexivity..].
  destruct err; [reflexivity|].
  destruct (unregister _ _ w2); reflexivity.
Qed.

(** ** Well-formed memory *)

Lemma postorder_mono n es ars : forall m p l,
  n <= m -> postorder n es ars p = Some l -> postorder m es ars p = Some l.
Proof.
  induction n as [|n IH]; intros m p l Hle H; [discriminate|].
  destruct m as [|m]; [lia|]. simpl in *.
  destruct (childrenIn es ars p) as [cs|]; [|discriminate].
  destruct (mapM (postorder n es ars) cs) as [ls|] eqn:Hm; [|discriminate].
  apply mapM_Some in Hm.
  assert (Hm' : mapM (postorder m es ars) cs = Some ls).
  { apply mapM_Some. eapply Forall2_impl; [exact Hm|].
    intros c l' Hc. apply IH; [lia|exact Hc]. }
  by rewrite Hm'.
Qed.

(** On well-formed memory the traversal is defined: the fuel that
    [Purge] takes is enough. *)
Lemma postorder_defined w : wf w -> forall n p,
  is_Some (entries w !! p) -> nextPtr w - p <= n ->
  is_Some (postorder n (entries w) (arrays w) p).
Proof.
  intros Hwf. induction n as [|n IH]; intros p [e He] Hn.
  - destruct (wf_entry w Hwf p e He) as (Hlt & _). lia.
  - destruct (wf_entry w Hwf p e He) as (Hlt & _ & a & Ha & Hlen & Hnn & Hch).
    cbn [postorder]. unfold childrenIn. rewrite He, Ha.
    destruct (decide _); [|lia].
    assert (HS : is_Some (mapM (postorder n (entries w) (arrays w))
                               (take (s_len (Children e)) a))).
    { apply mapM_is_Some. apply Forall_forall. intros c Hc.
      destruct (Hch c) as [Hpc Hsc].
      - by apply (subseteq_take (s_len (Children e)) a).
      - by apply Hnn.
      - apply IH; [exact Hsc|lia]. }
    destruct HS as [ls ->]. eauto.
Qed.

Lemma postorder_elem n es ars : forall p l q,
  postorder n es ars p = Some l -> q ∈ l -> is_Some (es !! q).
Proof.
  induction n as [|n IH]; intros p l q H Hq; [discriminate|].
  simpl in H. destruct (childrenIn es ars p) as [cs|] eqn:Hc; [|discriminate].
  destruct (mapM _ _) as [ls|] eqn:Hm; [|discriminate].
  inversion H. subst l. apply mapM_Some in Hm.
  apply elem_of_app in Hq as [Hq|Hq].
  - apply list_elem_of_In, in_concat in Hq as (l' & Hl' & Hq).
    apply list_elem_of_In in Hl', Hq.
    apply list_elem_of_lookup in Hl' as [i Hi].
    destruct (Forall2_lookup_r _ _ _ _ _ Hm Hi) as (c & _ & Hc').
    eapply IH; eauto.
  - apply list_elem_of_singleton in Hq as ->.
    unfold childrenIn in Hc. destruct (es !! p); [eauto|discriminate].
Qed.

(** ** Purge: what the list traversal does *)

Lemma purgeEach_spec f l : forall w,
  (forall p, p ∈ l -> is_Some (entries w !! p)) ->
  exists r w' done rest,
    purgeEach f l w = Ok r w' /\ l = done ++ rest /\
    (r = None -> rest = []) /\ (is_Some r -> rest <> []) /\
    entries w' = entries w /\
    trace w' = trace w ++ purgeEvents w done rest r /\
    dirMap_Path (dmap w') = dropAll (map (pathAt w) done) (dirMap_Path (dmap w)) /\
    dirMap_Hash (dmap w') = dropAll (map (hashAt w) done) (dirMap_Hash (dmap w)).
Proof.
  induction l as [|p l IH]; intros w Hl.
  - exists None, w, [], []. simpl. unfold purgeEvents. simpl.
    rewrite app_nil_r. repeat split; auto. intros [? ?]; discriminate.
  - destruct (Hl p) as [e He]; [left|].
    destruct (reply (base f) (trace w) (CPurge (Hash e))) as [err|] eqn:Hr.
    + exists (Some err), (set_trace w (trace w ++ [(CPurge (Hash e), Some err)])), [], (p :: l).
      split.
      { cbn [purgeEach]. unfold bind, deref, call. rewrite He, Hr. reflexivity. }
      unfold purgeEvents, hashAt. rewrite He. simpl.
      repeat split; auto; discriminate.
    + set (w1 := set_dmap (set_trace w (trace w ++ [(CPurge (Hash e), None)]))
                  {| dirMap_Hash := delete (Hash e) (dirMap_Hash (dmap w));
                     dirMap_Path := delete (Path e) (dirMap_Path (dmap w)) |}).
      destruct (IH w1) as (r & w' & done & rest & HE & -> & Hn & Hs & Hent & Htr & HP & HH).
      { intros q Hq. simpl. apply Hl. by right. }
      exists r, w', (p :: done), rest. split.
      { cbn [purgeEach]. unfold bind, deref, call. rewrite He, Hr. exact HE. }
      assert (Hhp : hashAt w p = Hash e) by (unfold hashAt; rewrite He; reflexivity).
      assert (Hpp : pathAt w p = Path e) by (unfold pathAt; rewrite He; reflexivity).
      change (purgeEvents w1 done rest r) with (purgeEvents w done rest r) in Htr.
      change (trace w1) with (trace w ++ [(CPurge (Hash e), None)]) in Htr.
      change (map (pathAt w1) done) with (map (pathAt w) done) in HP.
      change (map (hashAt w1) done) with (map (hashAt w) done) in HH.
      repeat split; auto.
      * rewrite Htr, <- app_assoc.
        change (purgeEvents w (p :: done) rest r)
          with ((CPurge (hashAt w p), None) :: purgeEvents w done rest r).
        rewrite Hhp. reflexivity.
      * rewrite HP. cbn [map dropAll foldl]. rewrite Hpp. reflexivity.
      * rewrite HH. cbn [map dropAll foldl]. rewrite Hhp. reflexivity.
Qed.

Lemma dropAll_lookup ks : forall (m : gmap string ptr) k p,
  dropAll ks m !! k = Some p -> m !! k = Some p.
Proof.
  induction ks as [|k0 ks IH]; intros m k p H; [exact H|].
  apply IH in H. apply lookup_delete_Some in H. tauto.
Qed.

Lemma rootIndexLines_ok paths : forall w,
  (forall p, p ∈ paths -> exists entry,
     dirMap_Path (dmap w) !! p = Some entry /\ is_Some (entries w !! entry)) ->
  exists ls, rootIndexLines paths w = Ok ls w.
Proof.
  induction paths as [|p ps IH]; intros w H; [by exists []|].
  destruct (H p) as (entry & Hp & e & He); [left|].
  destruct (IH w) as [ls Hls]; [intros q Hq; apply H; by right|].
  eexists. cbn [rootIndexLines]. unfold bind, lookupPath, deref.
  rewrite Hp, He, Hls. reflexivity.
Qed.

Lemma dirMap_write_ok f w :
  (forall k p, dirMap_Path (dmap w) !! k = Some p -> is_Some (entries w !! p)) ->
  exists bytes,
    dirMap_write f w =
    Ok (reply (base f) (trace w) (CPut "map" bytes))
       (set_trace w (trace w ++
          [(CPut "map" bytes, reply (base f) (trace w) (CPut "map" bytes))])).
Proof.
  intros H. unfold dirMap_write, bind, get.
  destruct (rootIndexLines_ok
              (sortStrings (map fst (map_to_list (dirMap_Path (dmap w))))) w)
    as [ls Hls].
  { intros p Hp. unfold sortStrings in Hp. rewrite merge_sort_Permutation in Hp.
    apply list_elem_of_fmap in Hp as ([k q] & -> & Hkq).
    apply elem_of_map_to_list in Hkq. exists q. split; [exact Hkq|]. eapply H; eauto. }
  rewrite Hls. eexists. reflexivity.
Qed.


(** ** Well-formedness is kept *)

Lemma sameTree_sym w w' : sameTree w w' -> sameTree w' w.
Proof. intros (?&?&?&?&?). repeat split; congruence. Qed.

Lemma is_Some_insert {V} (m : gmap nat V) k v c :
  is_Some (m !! c) -> is_Some (<[k := v]> m !! c).
Proof.
  intros H. destruct (decide (k = c)) as [->|Hne].
  - rewrite lookup_insert_eq. eauto.
  - by rewrite lookup_insert_ne.
Qed.

Lemma wf_emptyWorld : wf emptyWorld.
Proof.
  split; simpl; try (intros; rewrite lookup_empty in *; discriminate);
    try (intros ? ? ? ? H; rewrite lookup_empty in H; discriminate).
  lia.
Qed.

Lemma wf_sameTree w w' : wf w -> sameTree w w' -> wf w'.
Proof.
  intros Hwf Hs. pose proof (sameTree_sym _ _ Hs) as Hs'.
  destruct Hs as (Hd & Ha & Hp & Hn & Hsk).
  split.
  - intros p e' He'. destruct (sameTree_lookup _ _ _ _ Hs' He') as (e & He & Hske).
    unfold skeleton in Hske. injection Hske as HP HH HPa HC.
    destruct (wf_entry w Hwf p e He) as (H1 & H2 & a & H3 & H4 & H5 & H6).
    rewrite Hp, Hn, Ha. rewrite <- HC.
    split; [exact H1|]. split; [exact H2|]. exists a.
    split; [exact H3|]. split; [exact H4|]. split; [exact H5|].
    intros c Hc Hnz. destruct (H6 c Hc Hnz) as [Hlt [ce Hce]].
    split; [exact Hlt|].
    destruct (sameTree_lookup w w' c ce) as (ce' & Hce' & _);
      [repeat split; auto|exact Hce|eauto].
  - intros k p. rewrite Hd. intros Hk.
    destruct (wf_index w Hwf k p Hk) as [e He].
    destruct (sameTree_lookup w w' p e) as (e' & He' & _);
      [repeat split; auto|exact He|eauto].
  - intros i a. rewrite Ha, Hn. apply (wf_arrays w Hwf).
  - intros p q e1' e2' H1 H2 Heq.
    destruct (sameTree_lookup _ _ _ _ Hs' H1) as (e1 & He1 & Hs1).
    destruct (sameTree_lookup _ _ _ _ Hs' H2) as (e2 & He2 & Hs2).
    unfold skeleton in Hs1, Hs2. injection Hs1 as _ _ _ HC1. injection Hs2 as _ _ _ HC2.
    eapply (wf_noshare w Hwf); eauto. congruence.
  - rewrite Hp. apply (wf_next w Hwf).
Qed.

Lemma wf_set_dmap w d :
  wf w ->
  (forall k p, dirMap_Path d !! k = Some p -> is_Some (entries w !! p)) ->
  wf (set_dmap w d).
Proof.
  intros Hwf Hd. split; simpl.
  - apply (wf_entry w Hwf).
  - exact Hd.
  - apply (wf_arrays w Hwf).
  - apply (wf_noshare w Hwf).
  - apply (wf_next w Hwf).
Qed.

Lemma wf_withEntry w e :
  wf w -> Children e = {| s_arr := nextArr w; s_len := 0 |} ->
  wf (withEntry w e).
Proof.
  intros Hwf HC. split; simpl.
  - intros p e' He'. destruct (decide (nextPtr w = p)) as [<-|Hne].
    + rewrite lookup_insert_eq in He'. injection He' as <-. rewrite HC. simpl.
      split; [lia|]. split; [lia|]. exists []. rewrite lookup_insert_eq.
      split; [reflexivity|]. split; [simpl; lia|].
      split; intros c Hc; simpl in Hc; by apply elem_of_nil in Hc.
    + rewrite lookup_insert_ne in He' by exact Hne.
      destruct (wf_entry w Hwf p e' He') as (H1 & H2 & a & H3 & H4 & H5 & H6).
      split; [lia|]. split; [lia|]. exists a.
      rewrite lookup_insert_ne by lia.
      split; [exact H3|]. split; [exact H4|]. split; [exact H5|].
      intros c Hc Hnz. destruct (H6 c Hc Hnz) as [Hlt Hs].
      split; [exact Hlt|]. by apply is_Some_insert.
  - intros k p Hk. apply is_Some_insert. eapply wf_index; eauto.
  - intros i a Hi. destruct (decide (nextArr w = i)) as [<-|Hne]; [lia|].
    rewrite lookup_insert_ne in Hi by exact Hne.
    pose proof (wf_arrays w Hwf i a Hi). lia.
  - intros p q e1 e2 H1 H2 Heq.
    destruct (decide (nextPtr w = p)) as [<-|Hp];
      destruct (decide (nextPtr w = q)) as [<-|Hq]; try reflexivity.
    + rewrite lookup_insert_eq in H1. rewrite lookup_insert_ne in H2 by exact Hq.
      injection H1 as <-. rewrite HC in Heq. simpl in Heq.
      destruct (wf_entry w Hwf q e2 H2) as (_ & H & _). lia.
    + rewrite lookup_insert_eq in H2. rewrite lookup_insert_ne in H1 by exact Hp.
      injection H2 as <-. rewrite HC in Heq. simpl in Heq.
      destruct (wf_entry w Hwf p e1 H1) as (_ & H & _). lia.
    + rewrite lookup_insert_ne in H1 by exact Hp.
      rewrite lookup_insert_ne in H2 by exact Hq.
      eapply (wf_noshare w Hwf); eauto.
  - lia.
Qed.

Lemma elem_of_insert_inv (l : list nat) i x c :
  c ∈ <[i := x]> l -> c = x \/ c ∈ l.
Proof.
  intros H. apply list_elem_of_lookup in H as [j Hj].
  destruct (decide (i = j)) as [->|Hne].
  - destruct (decide (j < length l)).
    + rewrite list_lookup_insert_eq in Hj by done. left. congruence.
    + rewrite list_insert_ge in Hj by lia. right. eapply list_elem_of_lookup_2; eauto.
  - rewrite list_lookup_insert_ne in Hj by done. right.
    eapply list_elem_of_lookup_2; eauto.
Qed.

Lemma wf_append w p pe x s w1 :
  wf w -> entries w !! p = Some pe -> is_Some (entries w !! x) -> p < x ->
  slice_append (Children pe) x w = Ok s w1 ->
  wf (set_entries w1 (<[p := set_Children pe s]> (entries w1))).
Proof.
  intros Hwf Hp Hx Hlt.
  destruct (wf_entry w Hwf p pe Hp) as (Hb1 & Hb2 & a & Ha & Hlen & Hlive & Hall).
  unfold slice_append, bind, getArray. rewrite Ha.
  destruct (decide (s_len (Children pe) < length a)) as [Hroom|Hfull].
  - (* in place *)
    unfold putArray, modify, ret. intros H. injection H as <- <-.
    split; simpl.
    + intros q e He. destruct (decide (p = q)) as [<-|Hne].
      * rewrite lookup_insert_eq in He. injection He as <-. simpl.
        split; [exact Hb1|]. split; [exact Hb2|].
        exists (<[s_len (Children pe) := x]> a). rewrite lookup_insert_eq.
        split; [reflexivity|]. split; [rewrite length_insert; lia|].
        split.
        -- intros c Hc.
           erewrite take_S_r in Hc by (apply list_lookup_insert_eq; exact Hroom).
           rewrite take_insert_ge in Hc by lia.
           apply elem_of_app in Hc as [Hc|Hc]; [by apply Hlive|].
           apply list_elem_of_singleton in Hc as ->. unfold nilptr. lia.
        -- intros c Hc Hnz. apply elem_of_insert_inv in Hc as [->|Hc].
           ++ split; [exact Hlt|]. by apply is_Some_insert.
           ++ destruct (Hall c Hc Hnz) as [? ?]. split; [done|by apply is_Some_insert].
      * rewrite lookup_insert_ne in He by exact Hne.
        destruct (wf_entry w Hwf q e He) as (H1 & H2 & a' & H3 & H4 & H5 & H6).
        split; [exact H1|]. split; [exact H2|]. exists a'.
        rewrite lookup_insert_ne.
        2:{ intros Heq. apply Hne. eapply (wf_noshare w Hwf); eauto. }
        split; [exact H3|]. split; [exact H4|]. split; [exact H5|].
        intros c Hc Hnz. destruct (H6 c Hc Hnz) as [? ?].
        split; [done|by apply is_Some_insert].
    + intros k q Hk. apply is_Some_insert. eapply wf_index; eauto.
    + intros i a' Hi. destruct (decide (s_arr (Children pe) = i)) as [<-|Hne]; [exact Hb2|].
      rewrite lookup_insert_ne in Hi by exact Hne. eapply wf_arrays; eauto.
    + intros q1 q2 e1 e2 H1 H2 Heq.
      assert (Hfix : forall q e, <[p := set_Children pe
                 {| s_arr := s_arr (Children pe); s_len := S (s_len (Children pe)) |}]>
                 (entries w) !! q = Some e ->
               exists e0, entries w !! q = Some e0 /\
                          s_arr (Children e0) = s_arr (Children e)).
      { intros q e He. destruct (decide (p = q)) as [<-|Hne].
        - rewrite lookup_insert_eq in He. injection He as <-. eauto.
        - rewrite lookup_insert_ne in He by exact Hne. eauto. }
      destruct (Hfix _ _ H1) as (e1' & H1' & Hs1).
      destruct (Hfix _ _ H2) as (e2' & H2' & Hs2).
      eapply (wf_noshare w Hwf); eauto. congruence.
    + apply (wf_next w Hwf).
  - (* a new array *)
    assert (Heqlen : s_len (Children pe) = length a) by lia.
    unfold allocArray, ret. intros H. injection H as <- <-.
    rewrite Heqlen, firstn_all.
    split; simpl.
    + intros q e He. destruct (decide (p = q)) as [<-|Hne].
      * rewrite lookup_insert_eq in He. injection He as <-. simpl.
        split; [exact Hb1|]. split; [lia|].
        eexists. rewrite lookup_insert_eq.
        split; [reflexivity|]. split; [rewrite length_app; simpl; lia|].
        split.
        -- intros c Hc. apply elem_of_take in Hc as (i & Hi & Hilt).
           destruct (decide (i < length a)) as [Hia|Hia].
           ++ rewrite lookup_app_l in Hi by exact Hia. apply Hlive.
              rewrite Heqlen, firstn_all. eapply list_elem_of_lookup_2; eauto.
           ++ assert (i = length a) as -> by lia.
              rewrite list_lookup_middle in Hi by reflexivity.
              injection Hi as <-. unfold nilptr. lia.
        -- intros c Hc Hnz. apply elem_of_app in Hc as [Hc|Hc].
           ++ destruct (Hall c Hc Hnz) as [? ?]. split; [done|by apply is_Some_insert].
           ++ apply elem_of_cons in Hc as [->|Hc].
              ** split; [exact Hlt|]. by apply is_Some_insert.
              ** apply elem_of_replicate in Hc as [-> _]. done.
      * rewrite lookup_insert_ne in He by exact Hne.
        destruct (wf_entry w Hwf q e He) as (H1 & H2 & a' & H3 & H4 & H5 & H6).
        split; [exact H1|]. split; [lia|]. exists a'.
        rewrite lookup_insert_ne by lia.
        split; [exact H3|]. split; [exact H4|]. split; [exact H5|].
        intros c Hc Hnz. destruct (H6 c Hc Hnz) as [? ?].
        split; [done|by apply is_Some_insert].
    + intros k q Hk. apply is_Some_insert. eapply wf_index; eauto.
    + intros i a' Hi. destruct (decide (nextArr w = i)) as [<-|Hne]; [lia|].
      rewrite lookup_insert_ne in Hi by exact Hne.
      pose proof (wf_arrays w Hwf i a' Hi). lia.
    + intros q1 q2 e1 e2 H1 H2 Heq.
      destruct (decide (p = q1)) as [<-|Hq1]; destruct (decide (p = q2)) as [<-|Hq2];
        try reflexivity.
      * rewrite lookup_insert_eq in H1. rewrite lookup_insert_ne in H2 by exact Hq2.
        injection H1 as <-. simpl in Heq.
        destruct (wf_entry w Hwf q2 e2 H2) as (_ & H & _). lia.
      * rewrite lookup_insert_eq in H2. rewrite lookup_insert_ne in H1 by exact Hq1.
        injection H2 as <-. simpl in Heq.
        destruct (wf_entry w Hwf q1 e1 H1) as (_ & H & _). lia.
      * rewrite lookup_insert_ne in H1 by exact Hq1.
        rewrite lookup_insert_ne in H2 by exact Hq2.
        eapply (wf_noshare w Hwf); eauto.
    + apply (wf_next w Hwf).
Qed.

Lemma linkEntry_unfold f overlayPath parent w :
  linkEntry f overlayPath parent w =
  match parent with
  | Some p =>
      let* pe := deref p in
      let* s := slice_append (Children pe) (nextPtr w) in
      store p (set_Children pe s)
  | None => ret tt
  end (set_dmap (withEntry w (newEntry f overlayPath parent w))
                (registered f overlayPath w)).
Proof. destruct parent; reflexivity. Qed.

Lemma linkEntry_wf f overlayPath parent w u w' :
  wf w -> (forall p, parent = Some p -> is_Some (entries w !! p)) ->
  linkEntry f overlayPath parent w = Ok u w' -> wf w'.
Proof.
  intros Hwf Hpar. rewrite linkEntry_unfold.
  set (e0 := newEntry f overlayPath parent w).
  set (d1 := registered f overlayPath w).
  assert (Hw1 : wf (withEntry w e0)) by (by apply wf_withEntry).
  assert (Hw2 : wf (set_dmap (withEntry w e0) d1)).
  { apply wf_set_dmap; [exact Hw1|]. intros k p Hk. simpl in *.
    destruct (decide (overlayPath = k)) as [<-|Hne].
    - rewrite lookup_insert_eq in Hk. injection Hk as <-. rewrite lookup_insert_eq. eauto.
    - rewrite lookup_insert_ne in Hk by exact Hne. apply is_Some_insert.
      eapply wf_index; eauto. }
  destruct parent as [p|]; [|intros H; injection H as <- <-; exact Hw2].
  destruct (Hpar p eq_refl) as [pe Hpe].
  assert (Hpe2 : entries (set_dmap (withEntry w e0) d1) !! p = Some pe).
  { simpl. rewrite lookup_insert_ne; [exact Hpe|].
    destruct (wf_entry w Hwf p pe Hpe) as (H & _). lia. }
  unfold bind, deref. rewrite Hpe2.
  destruct (slice_append (Children pe) (nextPtr w) _) as [s w3| |] eqn:Happ;
    try discriminate.
  unfold store, modify. intros H. injection H as <- <-.
  eapply wf_append; [exact Hw2|exact Hpe2| |..|exact Happ].
  - simpl. rewrite lookup_insert_eq. eauto.
  - destruct (wf_entry w Hwf p pe Hpe) as (H & _). exact H.
Qed.

Lemma preserves_bind {A B} (m : M A) (k : A -> M B) :
  preserves m -> (forall a, preserves (k a)) -> preserves (bind m k).
Proof.
  intros Hm Hk w b w' Hwf. unfold bind.
  destruct (m w) as [a w1| |] eqn:E; try discriminate.
  intros H. eapply Hk; [|exact H]. eapply Hm; eauto.
Qed.

Lemma preserves_ret {A} (a : A) : preserves (ret a).
Proof. intros w b w' Hwf H. injection H as _ <-. exact Hwf. Qed.
Lemma preserves_panic {A} msg : preserves (@panic A msg).
Proof. intros w b w' Hwf H. discriminate. Qed.
Lemma preserves_get : preserves get.
Proof. intros w b w' Hwf H. injection H as _ <-. exact Hwf. Qed.
Lemma preserves_deref p : preserves (deref p).
Proof.
  intros w b w' Hwf. unfold deref. destruct (_ !! _); [|discriminate].
  intros H. injection H as _ <-. exact Hwf.
Qed.
Lemma preserves_getArray a : preserves (getArray a).
Proof.
  intros w b w' Hwf. unfold getArray. destruct (_ !! _); [|discriminate].
  intros H. injection H as _ <-. exact Hwf.
Qed.
Lemma preserves_arrayAt a i : preserves (arrayAt a i).
Proof.
  unfold arrayAt. apply preserves_bind; [apply preserves_getArray|].
  intros l. destruct (l !! i); [apply preserves_ret|apply preserves_panic].
Qed.
Lemma preserves_lookupPath p : preserves (lookupPath p).
Proof. intros w b w' Hwf H. injection H as _ <-. exact Hwf. Qed.
Lemma preserves_lookupHash p : preserves (lookupHash p).
Proof. intros w b w' Hwf H. injection H as _ <-. exact Hwf. Qed.
Lemma preserves_call f c : preserves (call f c).
Proof.
  intros w b w' Hwf H. apply call_spec in H as [_ ->].
  eapply wf_sameTree; [exact Hwf|apply sameTree_set_trace].
Qed.
Lemma preserves_openObj f r : preserves (openObj f r).
Proof.
  intros w b w' Hwf H. apply openObj_spec in H as [err ->].
  eapply wf_sameTree; [exact Hwf|apply sameTree_set_trace].
Qed.
Lemma preserves_unregister p h : preserves (unregister p h).
Proof.
  intros w b w' Hwf H. unfold unregister, modify in H. injection H as _ <-.
  apply wf_set_dmap; [exact Hwf|]. simpl. intros k q Hk.
  apply lookup_delete_Some in Hk as [_ Hk]. eapply wf_index; eauto.
Qed.
Lemma preserves_setFiles d m : preserves (setFiles d m).
Proof.
  intros w b w' Hwf H. apply setFiles_spec in H as (e & He & ->).
  eapply wf_sameTree; [exact Hwf|by apply sameTree_set_files].
Qed.
Lemma preserves_filesInsert d n h : preserves (filesInsert d n h).
Proof.
  intros w b w' Hwf H. apply filesInsert_frame in H as [Hs _].
  eapply wf_sameTree; eauto.
Qed.
Lemma preserves_filesDelete d n : preserves (filesDelete d n).
Proof.
  intros w b w' Hwf. unfold filesDelete, bind, deref, store, modify, ret.
  destruct (entries w !! d) as [e|] eqn:He; [|discriminate].
  destruct (files e); intros H; injection H as _ <-; [|exact Hwf].
  eapply wf_sameTree; [exact Hwf|by apply sameTree_set_files].
Qed.

Create HintDb preserves.
#[export] Hint Resolve preserves_ret preserves_panic preserves_get preserves_deref
  preserves_getArray preserves_arrayAt preserves_lookupPath preserves_lookupHash
  preserves_call preserves_openObj preserves_unregister preserves_setFiles
  preserves_filesInsert preserves_filesDelete : preserves.

Ltac preserves_step :=
  match goal with
  | |- preserves (bind _ _) => apply preserves_bind; [|intros ?]
  | |- preserves (match ?x with _ => _ end) => destruct x
  | |- preserves (if ?x then _ else _) => destruct x
  | |- preserves (let '(_, _) := ?x in _) => destruct x
  | |- preserves _ => solve [auto with preserves]
  end.
Ltac preserves_tac := repeat preserves_step.

Lemma preserves_fillLines d lines : preserves (fillLines d lines).
Proof. induction lines; simpl; preserves_tac. Qed.
#[export] Hint Resolve preserves_fillLines : preserves.
Lemma preserves_readMapFile f d r : preserves (readMapFile f d r).
Proof. unfold readMapFile. preserves_tac. Qed.
#[export] Hint Resolve preserves_readMapFile : preserves.
Lemma preserves_fillFiles f d : preserves (fillFiles f d).
Proof. unfold fillFiles. preserves_tac. Qed.
#[export] Hint Resolve preserves_fillFiles : preserves.
Lemma preserves_Files f d : preserves (Files f d).
Proof. unfold Files. preserves_tac. Qed.
#[export] Hint Resolve preserves_Files : preserves.
Lemma preserves_dirEntry_write f d : preserves (dirEntry_write f d).
Proof. unfold dirEntry_write. preserves_tac. Qed.
#[export] Hint Resolve preserves_dirEntry_write : preserves.
Lemma preserves_rootIndexLines paths : preserves (rootIndexLines paths).
Proof. induction paths; simpl; preserves_tac. Qed.
#[export] Hint Resolve preserves_rootIndexLines : preserves.
Lemma preserves_dirMap_write f : preserves (dirMap_write f).
Proof. unfold dirMap_write. preserves_tac. Qed.
#[export] Hint Resolve preserves_dirMap_write : preserves.

Lemma preserves_newDirEntry_rec f n : forall overlayPath,
  preserves (newDirEntry_rec n f overlayPath).
Proof.
  induction n as [|n IH]; intros overlayPath w u w' Hwf; [discriminate|].
  cbn [newDirEntry_rec]. unfold bind at 1. unfold lookupPath at 1.
  destruct (dirMap_Path (dmap w) !! overlayPath); [intros H; injection H as _ <-; exact Hwf|].
  unfold bind at 1.
  destruct (String.eqb overlayPath "").
  { apply linkEntry_wf; [exact Hwf|discriminate]. }
  unfold bind at 1. unfold lookupPath at 1.
  destruct (dirMap_Path (dmap w) !! parentPathOf overlayPath) as [p|] eqn:Hp.
  { apply linkEntry_wf; [exact Hwf|]. intros q Hq. injection Hq as <-.
    eapply wf_index; eauto. }
  unfold bind at 1.
  destruct (newDirEntry_rec n f (parentPathOf overlayPath) w) as [u1 w1| |] eqn:E;
    try discriminate.
  apply IH in E; [|exact Hwf]. unfold lookupPath.
  apply linkEntry_wf; [exact E|]. intros q Hq. eapply wf_index; eauto.
Qed.

Lemma preserves_newDirEntry f overlayPath : preserves (newDirEntry f overlayPath).
Proof. apply preserves_newDirEntry_rec. Qed.
#[export] Hint Resolve preserves_newDirEntry : preserves.

Lemma slice_delete_elems (l : list nat) len idx :
  idx < len -> len <= length l ->
  let l' := take idx l ++ take (len - S idx) (drop (S idx) l) ++ drop (len - 1) l in
  length l' = length l /\
  (forall c, c ∈ l' -> c ∈ l) /\
  (forall c, c ∈ take (len - 1) l' -> c ∈ take len l).
Proof.
  intros Hidx Hlen l'. split; [|split].
  - unfold l'. rewrite !length_app, !length_take, !length_drop. lia.
  - intros c Hc. unfold l' in Hc.
    apply elem_of_app in Hc as [Hc|Hc]; [by apply (subseteq_take idx l)|].
    apply elem_of_app in Hc as [Hc|Hc].
    + apply (subseteq_drop (S idx) l). by apply (subseteq_take (len - S idx)) in Hc.
    + by apply (subseteq_drop (len - 1) l).
  - intros c Hc. apply elem_of_take in Hc as (i & Hi & Hilt).
    apply elem_of_take. unfold l' in Hi.
    destruct (decide (i < idx)) as [Hlt|Hge].
    + rewrite lookup_app_l in Hi by (rewrite length_take; lia).
      rewrite lookup_take_lt in Hi by exact Hlt. exists i. split; [exact Hi|lia].
    + rewrite lookup_app_r in Hi by (rewrite length_take; lia).
      rewrite length_take in Hi. replace (idx `min` length l) with idx in Hi by lia.
      rewrite lookup_app_l in Hi by (rewrite length_take, length_drop; lia).
      rewrite lookup_take_lt in Hi by lia.
      rewrite lookup_drop in Hi. exists (S idx + (i - idx)). split; [exact Hi|lia].
Qed.

Lemma preserves_removeEntry path : preserves (removeEntry path).
Proof.
  intros w u w' Hwf. unfold removeEntry, bind, lookupPath, deref.
  destruct (dirMap_Path (dmap w) !! path) as [entry|] eqn:Hpath;
    [|intros H; injection H as _ <-; exact Hwf].
  destruct (entries w !! entry) as [e|] eqn:He; [|discriminate].
  destruct (Parent e) as [parent|]; [|discriminate].
  destruct (entries w !! parent) as [pe|] eqn:Hpe; [|discriminate].
  unfold getArray.
  destruct (wf_entry w Hwf parent pe Hpe) as (Hb1 & Hb2 & a & Ha & Hlen & Hlive & Hall).
  rewrite Ha. destruct (indexOf _ _) as [idx|]; [|discriminate].
  unfold slice_delete, bind, getArray. rewrite Ha.
  destruct (decide _) as [[Hidx _]|]; [|discriminate].
  unfold putArray, store, unregister, modify, ret. intros H. injection H as _ <-.
  destruct (slice_delete_elems a (s_len (Children pe)) idx Hidx Hlen)
    as (Hl1 & Hl2 & Hl3).
  set (a' := take idx a ++ take (s_len (Children pe) - S idx) (drop (S idx) a)
                   ++ drop (s_len (Children pe) - 1) a) in *.
  split; simpl.
  - intros q e' He'. destruct (decide (parent = q)) as [<-|Hne].
    + rewrite lookup_insert_eq in He'. injection He' as <-. simpl.
      split; [exact Hb1|]. split; [exact Hb2|]. exists a'. rewrite lookup_insert_eq.
      split; [reflexivity|]. split; [lia|]. split.
      * intros c Hc. apply Hlive. by apply Hl3.
      * intros c Hc Hnz. destruct (Hall c (Hl2 c Hc) Hnz) as [? ?].
        split; [done|by apply is_Some_insert].
    + rewrite lookup_insert_ne in He' by exact Hne.
      destruct (wf_entry w Hwf q e' He') as (H1 & H2 & a2 & H3 & H4 & H5 & H6).
      split; [exact H1|]. split; [exact H2|]. exists a2.
      rewrite lookup_insert_ne.
      2:{ intros Heq. apply Hne. eapply (wf_noshare w Hwf); eauto. }
      split; [exact H3|]. split; [exact H4|]. split; [exact H5|].
      intros c Hc Hnz. destruct (H6 c Hc Hnz) as [? ?].
      split; [done|by apply is_Some_insert].
  - intros k q Hk. apply lookup_delete_Some in Hk as [_ Hk].
    apply is_Some_insert. eapply wf_index; eauto.
  - intros i a2 Hi. destruct (decide (s_arr (Children pe) = i)) as [<-|Hne]; [exact Hb2|].
    rewrite lookup_insert_ne in Hi by exact Hne. eapply wf_arrays; eauto.
  - intros q1 q2 e1 e2 H1 H2 Heq.
    assert (Hfix : forall q e0,
      <[parent := set_Children pe {| s_arr := s_arr (Children pe);
                                     s_len := s_len (Children pe) - 1 |}]>
        (entries w) !! q = Some e0 ->
      exists e1, entries w !! q = Some e1 /\
                 s_arr (Children e1) = s_arr (Children e0)).
    { intros q e0 He0. destruct (decide (parent = q)) as [<-|Hne].
      - rewrite lookup_insert_eq in He0. injection He0 as <-. eauto.
      - rewrite lookup_insert_ne in He0 by exact Hne. eauto. }
    destruct (Hfix _ _ H1) as (e1' & H1' & Hs1).
    destruct (Hfix _ _ H2) as (e2' & H2' & Hs2).
    eapply (wf_noshare w Hwf); eauto. congruence.
  - apply (wf_next w Hwf).
Qed.
#[export] Hint Resolve preserves_removeEntry : preserves.

Lemma preserves_rangeFrom a body : (forall v, preserves (body v)) ->
  forall k i, preserves (rangeFrom a k i body).
Proof.
  intros Hb. induction k as [|k IH]; intros i; cbn [rangeFrom]; preserves_tac; auto.
Qed.

Lemma preserves_rangeSlice s body :
  (forall v, preserves (body v)) -> preserves (rangeSlice s body).
Proof. intros H. apply preserves_rangeFrom. exact H. Qed.

Lemma preserves_rewriteNames f h d fls : preserves (rewriteNames f h d fls).
Proof. induction fls as [|[n k] fls IH]; cbn [rewriteNames]; preserves_tac. Qed.
#[export] Hint Resolve preserves_rewriteNames : preserves.

Lemma preserves_rewriteNameFiles f d : preserves (rewriteNameFiles f d).
Proof. unfold rewriteNameFiles. preserves_tac. Qed.
#[export] Hint Resolve preserves_rewriteNameFiles : preserves.

Lemma preserves_DirMove_recurse f s d n : forall entry,
  preserves (DirMove_recurse n f s d entry).
Proof.
  induction n as [|n IH]; intros entry; [intros w a w' _ H; discriminate|].
  cbn [DirMove_recurse]. preserves_tac. apply preserves_rangeSlice. exact IH.
Qed.

Lemma preserves_Purge_purge f n : forall entry, preserves (Purge_purge n f entry).
Proof.
  induction n as [|n IH]; intros entry; [intros w a w' _ H; discriminate|].
  cbn [Purge_purge]. preserves_tac. apply preserves_rangeSlice. exact IH.
Qed.

#[export] Hint Resolve preserves_DirMove_recurse preserves_Purge_purge : preserves.

Lemma preserves_loadLines f lines : preserves (loadLines f lines).
Proof. induction lines; cbn [loadLines]; preserves_tac. Qed.
#[export] Hint Resolve preserves_loadLines : preserves.

Lemma preserves_newDirMap f : preserves (newDirMap f).
Proof.
  unfold newDirMap. apply preserves_bind; [|intros; auto with preserves].
  intros w u w' Hwf H. unfold modify in H. injection H as _ <-.
  apply wf_set_dmap; [exact Hwf|]. simpl. intros k p Hk.
  rewrite lookup_empty in Hk. discriminate.
Qed.
#[export] Hint Resolve preserves_newDirMap : preserves.

Lemma preserves_toHash f r : preserves (toHash f r).
Proof. unfold toHash. preserves_tac. Qed.
Lemma preserves_prepareDest f o d h : preserves (prepareDest f o d h).
Proof. unfold prepareDest. preserves_tac. Qed.
#[export] Hint Resolve preserves_toHash preserves_prepareDest : preserves.

Lemma preserves_NewFs f : preserves (NewFs f).
Proof. unfold NewFs, loadDirectoryMap. preserves_tac. Qed.
Lemma preserves_Mkdir f dir : preserves (Mkdir f dir).
Proof. unfold Mkdir. preserves_tac. Qed.
Lemma preserves_Rmdir f dir : preserves (Rmdir f dir).
Proof. unfold Rmdir. preserves_tac. Qed.
Lemma preserves_Purge f dir : preserves (Purge f dir).
Proof. unfold Purge. preserves_tac. Qed.
Lemma preserves_DirMove n f s d : preserves (DirMove n f s d).
Proof. unfold DirMove. preserves_tac. Qed.
Lemma preserves_NewObject f r : preserves (NewObject f r).
Proof. unfold NewObject. preserves_tac. Qed.
Lemma preserves_Put f data r : preserves (Put f data r).
Proof. unfold Put, put. preserves_tac. Qed.
Lemma preserves_Copy f o r : preserves (Copy f o r).
Proof. unfold Copy. preserves_tac. Qed.
Lemma preserves_Remove f o : preserves (Remove f o).
Proof. unfold Remove. preserves_tac. Qed.
Lemma preserves_wrappedNotify f p t : preserves (wrappedNotify f p t).
Proof. unfold wrappedNotify. preserves_tac. Qed.
#[export] Hint Resolve preserves_wrappedNotify : preserves.
Lemma preserves_ChangeNotify f evs : preserves (ChangeNotify f evs).
Proof.
  unfold ChangeNotify. destruct (feat_ChangeNotify (base f)); [|auto with preserves].
  induction evs as [|[p t] evs IH]; cbn [notifyAll]; preserves_tac.
Qed.

Lemma preserves_exec f op : preserves (exec f op).
Proof.
  destruct op; cbn [exec]; preserves_tac;
    auto using preserves_NewFs, preserves_Mkdir, preserves_Rmdir, preserves_Purge,
      preserves_DirMove, preserves_NewObject, preserves_Put, preserves_Copy,
      preserves_Remove, preserves_ChangeNotify.
Qed.

Lemma reachable_states_wf (f : Fs) (ops : list Op) (w : World) :
  runOps f ops = Ok tt w -> wf w.
Proof.
  unfold runOps, bind. destruct (NewFs f emptyWorld) as [r w1| |] eqn:E; try discriminate.
  apply preserves_NewFs in E; [|apply wf_emptyWorld].
  revert w1 E. induction ops as [|op ops IH]; intros w1 Hw1 H.
  - injection H as <-. exact Hw1.
  - cbn [execAll] in H. unfold bind in H.
    destruct (exec f op w1) as [u w2| |] eqn:E; try discriminate.
    eapply IH; [|exact H]. eapply preserves_exec; eauto.
Qed.

(** ** The file index on first access *)

Lemma fillLines_ok d lines : forall w e,
  entries w !! d = Some e -> is_Some (files e) ->
  exists r w', fillLines d lines w = Ok r w'.
Proof.
  induction lines as [|l ls IH]; intros w e He Hf; cbn [fillLines]; [by eexists _, _|].
  destruct (String.eqb l ""); [eauto|].
  destruct (SplitN2 space l) as [[h n]|]; [|by eexists _, _].
  destruct Hf as [m Hm].
  unfold bind, filesInsert, bind, deref, store, modify. rewrite He, Hm.
  eapply IH; cbn [entries set_entries].
  - apply lookup_insert_eq.
  - cbn [files set_files]. eauto.
Qed.

(** X6.  The first access to a file index that is not loaded asks the remote
    for the map file.  If the remote says the object is not there the
    access succeeds with the empty mapping; if it reports another error
    the access returns that very error; and whenever the access fails
    the index is left not loaded, so that the next access asks again. *)
Lemma Files_first_access f d w e :
  entries w !! d = Some e -> files e = None ->
  let ask := CNewObject (path_Join [Hash e; "map"]) in
  let answer := reply (base f) (trace w) ask in
  exists r w' evs,
    Files f d w = Ok r w' /\
    trace w' = trace w ++ (ask, answer) :: evs /\
    (forall err, answer = Some err ->
       r = if errors_Is err ErrorObjectNotFound then inr ∅ else inl err) /\
    exists e', entries w' !! d = Some e' /\ skeleton e' = skeleton e /\
      match r with
      | inl _ => files e' = None
      | inr m => files e' = Some m
      end.
Proof.
  intros He Hf ask answer.
  assert (Hfill : exists r w' evs, fillFiles f d w = Ok r w' /\
            trace w' = trace w ++ (ask, answer) :: evs /\
            (forall err, answer = Some err ->
               if errors_Is err ErrorObjectNotFound
               then r = None /\ files <$> entries w' !! d = Some (Some ∅)
               else r = Some err)).
  { unfold fillFiles, bind, deref. rewrite He, Hf.
    unfold setFiles, bind, deref, store, modify. rewrite He.
    set (w1 := set_entries w (<[d := set_files e (Some ∅)]> (entries w))).
    assert (He1 : entries w1 !! d = Some (set_files e (Some ∅)))
      by apply lookup_insert_eq.
    unfold readMapFile, bind, call. cbn [trace set_entries w1].
    fold ask. fold answer.
    set (w2 := set_trace w1 (trace w ++ [(ask, answer)])).
    assert (He2 : entries w2 !! d = Some (set_files e (Some ∅))) by exact He1.
    destruct answer as [err|] eqn:Hans.
    - destruct (errors_Is err ErrorObjectNotFound) eqn:HIs; unfold ret.
      + exists None, w2, []. split; [reflexivity|]. split; [reflexivity|].
        intros err' [= <-]. rewrite HIs, He2. auto.
      + rewrite He2. eexists (Some err), _, []. split; [reflexivity|].
        split; [reflexivity|]. intros err' [= <-]. by rewrite HIs.
    - unfold openObj, call. cbn [trace set_trace w2].
      set (oe := reply (base f) _ (COpen _)).
      set (w3 := set_trace w2 _).
      assert (He3 : entries w3 !! d = Some (set_files e (Some ∅))) by exact He1.
      assert (Ht3 : trace w3
                    = trace w ++ (ask, None)
                        :: [(COpen (path_Join [Hash e; "map"]), oe)]).
      { cbn [trace set_trace w3]. rewrite <- app_assoc. reflexivity. }
      destruct oe as [oerr|].
      + unfold ret. rewrite He3. eexists _, _, _. split; [reflexivity|].
        split; [exact Ht3|]. discriminate.
      + destruct (content (base f) _ _) as [data tail].
        destruct (fillLines_ok d (fst (readLines data)) w3 _ He3) as (r & w4 & HL);
          [cbn [files set_files]; eauto|].
        rewrite HL.
        pose proof (fillLines_frame _ _ _ _ _ HL) as [Hs Ht4].
        destruct (fillLines_loaded _ _ _ _ _ _ He3 ltac:(cbn; eauto) HL)
          as (e4 & He4 & _).
        rewrite <- Ht4 in Ht3.
        destruct r as [lerr|]; [|destruct tail as [terr|]]; unfold ret;
          rewrite ?He4; eexists _, _, _; (split; [reflexivity|]);
          (split; [exact Ht3|discriminate]). }
  destruct Hfill as (r & w' & evs & HF & Ht & Hans).
  pose proof (fillFiles_spec _ _ _ _ _ HF) as (Hs & _ & e' & He' & Hr).
  destruct (sameTree_lookup _ _ _ _ Hs He) as (e'' & He'' & Hsk).
  rewrite He' in He''. injection He'' as <-.
  unfold Files, bind. rewrite HF. destruct r as [err|].
  - exists (inl err), w', evs. split; [reflexivity|]. split; [exact Ht|]. split.
    + intros err' Ha. specialize (Hans err' Ha).
      destruct (errors_Is err' ErrorObjectNotFound); [destruct Hans; discriminate|].
      congruence.
    + eauto.
  - unfold deref. rewrite He'. destruct Hr as [m Hm]. rewrite Hm.
    exists (inr m), w', evs. split; [reflexivity|]. split; [exact Ht|]. split.
    + intros err' Ha. specialize (Hans err' Ha).
      destruct (errors_Is err' ErrorObjectNotFound); [|discriminate].
      destruct Hans as [_ Hempty]. rewrite He' in Hempty.
      cbn in Hempty. congruence.
    + eauto.
Qed.

(** The first look for the file index of "a" times out. *)
Lemma Files_first_access_witness :
  let f := fsTimeout in
  let w := stateAfter fs0 [OpMkdir "a"] in
  let e := entryOf "a" 1 1 0 None in
  entries w !! 2 = Some e /\ files e = None /\
  let ask := CNewObject (path_Join [Hash e; "map"]) in
  let answer := reply (base f) (trace w) ask in
  exists r w' evs,
    Files f 2 w = Ok r w' /\
    trace w' = trace w ++ (ask, answer) :: evs /\
    (forall err, answer = Some err ->
       r = if errors_Is err ErrorObjectNotFound then inr ∅ else inl err) /\
    exists e', entries w' !! 2 = Some e' /\ skeleton e' = skeleton e /\
      match r with
      | inl _ => files e' = None
      | inr m => files e' = Some m
      end.
Proof.
  intros f w e.
  assert (H1 : entries w !! 2 = Some e) by (vm_compute; reflexivity).
  assert (H2 : files e = None) by reflexivity.
  split; [exact H1|]. split; [exact H2|].
  exact (Files_first_access f 2 w e H1 H2).
Defined.

(** ** Change notification: what is let through *)

(** X27.  A notification is made only for a key whose last segment is "data",
    with at least three segments, whose directory part is the key of an
    indexed directory and whose file part is the key of a name in that
    directory's file index; it carries that name and the kind of the
    event. *)
Lemma wrappedNotify_emits_only f path typ w n t w' :
  wrappedNotify f path typ w = Ok (Some (n, t)) w' ->
  let split := Split slash path in
  List.last split "" = "data" /\ 3 <= length split /\ t = typ /\
  exists entry fls,
    dirMap_Hash (dmap w) !! Join slash (take (length split - 2) split) = Some entry /\
    Files f entry w = Ok (inr fls) w' /\
    fls !! n = Some (default "" (split !! (length split - 2))).
Proof.
  intros H split. unfold wrappedNotify in H. fold split in H.
  destruct (String.eqb (List.last split "") "data") eqn:Hd; [|discriminate].
  apply String.eqb_eq in Hd. cbn [negb] in H.
  destruct (length split <? 3) eqn:Hl; [discriminate|].
  apply Nat.ltb_ge in Hl.
  unfold bind, lookupHash in H.
  destruct (dirMap_Hash (dmap w) !! _) as [entry|] eqn:He; [|discriminate].
  destruct (Files f entry w) as [fl w1| |] eqn:HF; try discriminate.
  destruct fl as [err|fls]; [discriminate|].
  destruct (list_find _ _) as [[i [k h]]|] eqn:Hfind; [|discriminate].
  injection H as <- <- <-.
  apply list_find_Some in Hfind as (Hi & Hh & _). cbn [snd] in Hh. subst h.
  apply list_elem_of_lookup_2, elem_of_map_to_list in Hi.
  repeat split; try assumption. exists entry, fls. auto.
Qed.

(** A change of the data of a/x. *)
Lemma wrappedNotify_emits_only_witness :
  let w := stateAfter fs0 [OpMkdir "a"; OpPut "hello" "a/x"] in
  let w' := after (wrappedNotify fs0 "a/x/data" EntryObject) w in
  wrappedNotify fs0 "a/x/data" EntryObject w = Ok (Some ("x", EntryObject)) w' /\
  let split := Split slash "a/x/data" in
  List.last split "" = "data" /\ 3 <= length split /\ EntryObject = EntryObject /\
  exists entry fls,
    dirMap_Hash (dmap w) !! Join slash (take (length split - 2) split) = Some entry /\
    Files fs0 entry w = Ok (inr fls) w' /\
    fls !! "x" = Some (default "" (split !! (length split - 2))).
Proof.
  intros w w'.
  assert (H1 : wrappedNotify fs0 "a/x/data" EntryObject w
               = Ok (Some ("x", EntryObject)) w') by (vm_compute; reflexivity).
  split; [exact H1|].
  exact (wrappedNotify_emits_only fs0 "a/x/data" EntryObject w "x" EntryObject w' H1).
Defined.

Lemma returns_wrappedNotify f path typ : returns (wrappedNotify f path typ).
Proof. unfold wrappedNotify. returns_tac. Qed.

(** The translation goes through the whole stream of events. *)
Lemma returns_ChangeNotify f events : returns (ChangeNotify f events).
Proof.
  unfold ChangeNotify. destruct (feat_ChangeNotify (base f)); [|apply returns_ret].
  induction events as [|[p t] evs IH]; cbn [notifyAll]; [apply returns_ret|].
  apply returns_bind; [apply returns_wrappedNotify|]. intros r.
  apply returns_bind; [exact IH|]. intros rs. apply returns_ret.
Qed.

(** ** The name record that Put writes *)

(** X20.  A [Put] that succeeds has written, under the keys of the directory
    and of the file, a name record that holds the path it was given and
    a newline. *)
Lemma put_writes_name_record f data remote w o w' :
  put f data remote w = Ok (Some o, None) w' ->
  exists entry e,
    dirMap_Path (dmap w) !!
      path_Join [root f; TrimSuffixChar slash (fst (path_Split remote))] = Some entry /\
    entries w !! entry = Some e /\
    (CPut (path_Join [Hash e; hasher f (snd (path_Split remote)); "name"])
          (remote +:+ NL), None) ∈ trace w'.
Proof.
  unfold put. destruct (containsChar nl remote); [discriminate|].
  unfold toHash. destruct (path_Split remote) as [par leaf]. cbn [fst snd].
  unfold bind at 1 2. unfold lookupPath at 1. cbn [ret].
  destruct (dirMap_Path (dmap w) !! _) as [entry|] eqn:Hd; [|discriminate].
  unfold bind at 1. unfold deref at 1.
  destruct (entries w !! entry) as [e|] eqn:He; [|discriminate].
  intros H. exists entry, e. split; [reflexivity|]. split; [exact He|].
  unfold bind at 1 in H.
  destruct (prepareDest f remote (Hash e) (hasher f leaf) w) as [perr w1| |] eqn:HP;
    try discriminate.
  destruct perr; [discriminate|].
  assert (Hin : (CPut (path_Join [Hash e; hasher f leaf; "name"]) (remote +:+ NL), None)
                  ∈ trace w1).
  { unfold prepareDest, bind, call in HP.
    destruct (reply (base f) (trace w) (CMkdir (Hash e))); [discriminate|].
    cbn [trace set_trace] in HP.
    destruct (reply (base f) _ (CMkdir _)); [discriminate|].
    cbn [trace set_trace] in HP.
    destruct (reply (base f) _ (CPut _ _)) eqn:Hr; [discriminate|].
    injection HP as <-. cbn [trace set_trace].
    apply elem_of_app. right. left. }
  unfold bind at 1 in H.
  destruct (call f _ w1) as [derr w2| |] eqn:HC; try discriminate.
  apply call_spec in HC as [-> ->].
  destruct (reply (base f) _ _); [discriminate|].
  unfold bind at 1 in H.
  destruct (Files f entry _) as [fl w3| |] eqn:HF; try discriminate.
  apply Files_spec in HF as (_ & [evs Ht3] & _).
  destruct fl; [discriminate|].
  unfold bind at 1 in H.
  destruct (filesInsert entry leaf (hasher f leaf) w3) as [u w4| |] eqn:HI;
    try discriminate.
  apply filesInsert_frame in HI as [_ Ht4].
  unfold bind in H.
  destruct (dirEntry_write f entry w4) as [werr w5| |] eqn:HW; try discriminate.
  injection H as _ _ <-.
  assert (Ht5 : exists evs5, trace w5 = trace w4 ++ evs5).
  { unfold dirEntry_write, bind, deref in HW.
    destruct (entries w4 !! entry) as [e4|]; [|discriminate].
    destruct (files e4).
    - apply call_spec in HW as [_ ->]. cbn [trace set_trace]. eauto.
    - injection HW as _ <-. exists []. by rewrite app_nil_r. }
  destruct Ht5 as [evs5 ->]. rewrite Ht4, Ht3. cbn [trace set_trace].
  apply elem_of_app. left. apply elem_of_app. left. apply elem_of_app. left.
  exact Hin.
Qed.

(** a/x put into directory "a". *)
Lemma put_writes_name_record_witness :
  let w := stateAfter fs0 [OpMkdir "a"] in
  let o := {| obj := "a/x/data"; o_path := "a/x"; basePath := "a/x";
              o_dirEntry := 2 |} in
  let w' := after (put fs0 "hello" "a/x") w in
  put fs0 "hello" "a/x" w = Ok (Some o, None) w' /\
  exists entry e,
    dirMap_Path (dmap w) !!
      path_Join [root fs0; TrimSuffixChar slash (fst (path_Split "a/x"))] = Some entry /\
    entries w !! entry = Some e /\
    (CPut (path_Join [Hash e; hasher fs0 (snd (path_Split "a/x")); "name"])
          ("a/x" +:+ NL), None) ∈ trace w'.
Proof.
  intros w o w'.
  assert (H1 : put fs0 "hello" "a/x" w = Ok (Some o, None) w')
    by (vm_compute; reflexivity).
  split; [exact H1|].
  exact (put_writes_name_record fs0 "hello" "a/x" w o w' H1).
Defined.

(** ** The bytes of the root index *)

Lemma str_le_total : Total str_le.
Proof. intros a b. unfold str_le. apply String.leb_total. Qed.

(** X16.  [dirMap.write] puts one line per indexed path, in ascending order of
    path, each made of the key of the entry, a space, the path and a
    newline. *)
Lemma dirMap_write_format f w r w' :
  dirMap_write f w = Ok r w' ->
  let paths := sortStrings (map fst (map_to_list (dirMap_Path (dmap w)))) in
  Sorted str_le paths /\
  paths ≡ₚ map fst (map_to_list (dirMap_Path (dmap w))) /\
  exists ls,
    Forall2 (fun p l => exists entry,
               dirMap_Path (dmap w) !! p = Some entry /\
               l = hashAt w entry +:+ " " +:+ p +:+ NL) paths ls /\
    trace w' = trace w ++ [(CPut "map" (String.concat "" ls), r)].
Proof.
  intros H paths. split; [|split].
  - apply (Sorted_merge_sort str_le (Total0 := str_le_total)).
  - apply merge_sort_Permutation.
  - unfold dirMap_write, bind, get in H. fold paths in H.
    destruct (rootIndexLines paths w) as [ls w1| |] eqn:HL; try discriminate.
    pose proof (rootIndexLines_frame _ _ _ _ HL). subst w1.
    apply call_spec in H as [-> ->]. exists ls. split; [|reflexivity].
    clear -HL. revert ls HL. induction paths as [|p ps IH]; intros ls HL.
    + inversion HL. constructor.
    + cbn [rootIndexLines] in HL. unfold bind, lookupPath, deref in HL.
      destruct (dirMap_Path (dmap w) !! p) as [entry|] eqn:Hp; [|discriminate].
      destruct (entries w !! entry) as [e|] eqn:He; [|discriminate].
      destruct (rootIndexLines ps w) as [ls1 w1| |] eqn:HL1; try discriminate.
      inversion HL. subst. constructor; [|by apply IH].
      exists entry. split; [exact Hp|]. unfold hashAt. by rewrite He.
Qed.

(** The root index of the tree with a/b. *)
Lemma dirMap_write_format_witness :
  let w := stateAfter fs0 [OpMkdir "a/b"] in
  let w' := after (dirMap_write fs0) w in
  dirMap_write fs0 w = Ok None w' /\
  let paths := sortStrings (map fst (map_to_list (dirMap_Path (dmap w)))) in
  Sorted str_le paths /\
  paths ≡ₚ map fst (map_to_list (dirMap_Path (dmap w))) /\
  exists ls,
    Forall2 (fun p l => exists entry,
               dirMap_Path (dmap w) !! p = Some entry /\
               l = hashAt w entry +:+ " " +:+ p +:+ NL) paths ls /\
    trace w' = trace w ++ [(CPut "map" (String.concat "" ls), None)].
Proof.
  intros w w'.
  assert (H1 : dirMap_write fs0 w = Ok None w') by (vm_compute; reflexivity).
  split; [exact H1|].
  exact (dirMap_write_format fs0 w None w' H1).
Defined.

(** ** More fuel changes no run that came back *)

Lemma rangeFrom_more a (body1 body2 : ptr -> M (option error)) :
  (forall v w, body1 v w <> OutOfFuel -> body2 v w = body1 v w) ->
  forall k i w, rangeFrom a k i body1 w <> OutOfFuel ->
    rangeFrom a k i body2 w = rangeFrom a k i body1 w.
Proof.
  intros Hb. induction k as [|k IH]; intros i w H; [reflexivity|].
  cbn [rangeFrom] in *. unfold bind in *.
  destruct (arrayAt a i w) as [v w1| |]; try reflexivity.
  destruct (body1 v w1) as [err w2| |] eqn:E1.
  - rewrite (Hb v w1) by (rewrite E1; discriminate). rewrite E1.
    destruct err; [reflexivity|]. apply IH. exact H.
  - rewrite (Hb v w1) by (rewrite E1; discriminate). rewrite E1. reflexivity.
  - contradiction.
Qed.

Lemma DirMove_recurse_more f s d : forall n m entry w,
  n <= m -> DirMove_recurse n f s d entry w <> OutOfFuel ->
  DirMove_recurse m f s d entry w = DirMove_recurse n f s d entry w.
Proof.
  induction n as [|n IH]; intros m entry w Hle H; [contradiction|].
  destruct m as [|m]; [lia|].
  cbn [DirMove_recurse] in *. unfold bind in *.
  destruct (deref entry w) as [e w1| |]; try reflexivity.
  unfold rangeSlice in *.
  destruct (rangeFrom (s_arr (Children e)) (s_len (Children e)) 0
              (DirMove_recurse n f s d) w1) as [err w2| |] eqn:E.
  - rewrite (rangeFrom_more _ (DirMove_recurse n f s d) (DirMove_recurse m f s d)).
    + rewrite E. reflexivity.
    + intros v w0 Hv. apply IH; [lia|exact Hv].
    + rewrite E. discriminate.
  - rewrite (rangeFrom_more _ (DirMove_recurse n f s d) (DirMove_recurse m f s d)).
    + rewrite E. reflexivity.
    + intros v w0 Hv. apply IH; [lia|exact Hv].
    + rewrite E. discriminate.
  - contradiction.
Qed.

(** A [DirMove] that has come back, with a result or a panic, comes
    back in the same way when [recurse] is allowed to go deeper. *)
Lemma DirMove_more_fuel n m f srcRemote dstRemote w :
  n <= m -> DirMove n f srcRemote dstRemote w <> OutOfFuel ->
  DirMove m f srcRemote dstRemote w = DirMove n f srcRemote dstRemote w.
Proof.
  intros Hle H. unfold DirMove in *.
  destruct (negb (feat_DirMove (base f))); [reflexivity|].
  unfold bind in *.
  destruct (lookupPath (path_Join [root f; srcRemote]) w) as [src w1| |];
    try reflexivity.
  destruct src as [srcEntry|]; [|reflexivity].
  destruct (lookupPath (path_Join [root f; dstRemote]) w1) as [dst w2| |];
    try reflexivity.
  destruct dst; [reflexivity|].
  destruct (DirMove_recurse n f _ _ srcEntry w2) as [r w3| |] eqn:E.
  - rewrite (DirMove_recurse_more f _ _ n m);
      [rewrite E; reflexivity|lia|rewrite E; discriminate].
  - rewrite (DirMove_recurse_more f _ _ n m);
      [rewrite E; reflexivity|lia|rewrite E; discriminate].
  - contradiction.
Qed.

(** ** The states of the examples *)

(** Split the conjunctions of a goal, and nothing else. *)
Ltac conjs :=
  repeat lazymatch goal with
         | |- _ /\ _ => split
         | |- let _ := _ in _ => intro
         end.
Ltac evaluate := conjs; vm_compute; reflexivity.

Lemma stateAfter_wf f ops : wf (stateAfter f ops).
Proof.
  pose proof (reachable_states_wf f ops) as H.
  unfold stateAfter.
  match goal with
  | |- wf (match ?m with _ => _ end) => remember m as r eqn:E
  end.
  destruct r as [u w| |]; [|apply wf_emptyWorld..].
  destruct u. apply H. reflexivity.
Qed.

(** A file index that is loaded is handed out as it is. *)
Lemma Files_loaded f d w e m :
  entries w !! d = Some e -> files e = Some m -> Files f d w = Ok (inr m) w.
Proof.
  intros He Hf. unfold Files, fillFiles, bind, deref. rewrite He, Hf.
  unfold ret. rewrite He, Hf. reflexivity.
Qed.

(** The state of a run that has come back. *)
Lemma stateAfter_runs f ops :
  comesBack f ops = true <-> runOps f ops = Ok tt (stateAfter f ops).
Proof.
  unfold comesBack, stateAfter. destruct (runOps f ops) as [[] w| |];
    split; first [reflexivity|discriminate].
Qed.

(** Every run that the examples name comes back, so the state that
    [stateAfter] names for it is the state it has reached. *)
Lemma examples_come_back :
  forallb (fun r => comesBack (fst r) (snd r)) exampleRuns = true.
Proof. vm_compute. reflexivity. Qed.

(** A move of "a" under its own child a/2: the turn for a/1 makes the
    entries from a/2/x down to a/2/x/y/z/w/1, and the turn that follows
    goes down into them, seven entries deep, in a tree that held four
    entries when the move began. *)
Example DirMove_goes_below_what_it_made :
  let w := stateAfter fs0 [OpMkdir "a/1"; OpMkdir "a/2"] in
  nextPtr w = 5 /\
  DirMove 6 fs0 "a" "a/2/x/y/z/w" w = OutOfFuel /\
  value (DirMove 7 fs0 "a" "a/2/x/y/z/w") w = Some None /\
  moves (after (DirMove 7 fs0 "a" "a/2/x/y/z/w") w)
  = [("a/1", "a/2/x/y/z/w/1");
     ("a/2/x/y/z/w/1", "a/2/x/y/z/w/2/x/y/z/w/1");
     ("a/2/x/y/z/w", "a/2/x/y/z/w/2/x/y/z/w");
     ("a/2/x/y/z", "a/2/x/y/z/w/2/x/y/z");
     ("a/2/x/y", "a/2/x/y/z/w/2/x/y");
     ("a/2/x", "a/2/x/y/z/w/2/x");
     ("a/2", "a/2/x/y/z/w/2");
     ("a", "a/2/x/y/z/w")].
Proof. evaluate. Qed.

(** ** The earlier and the later [newDirEntry]; rewritten name records *)

(** The earlier [newDirEntry] makes an entry even when the path is
    indexed: called for a child and then for its parent, as [DirMove]
    does, it leaves two entries for the parent under the root, and the
    child under the one that is no longer indexed. *)
Lemma earlier_newDirEntry_duplicates :
  let w := after (do Earlier.newDirEntry fs0 "b/1"; Earlier.newDirEntry fs0 "b") w0 in
  map (pathAt w) (childrenOf w 1) = ["b"; "b"] /\
  childrenOf w 1 = [2; 4] /\
  dirMap_Path (dmap w) !! "b" = Some 4 /\
  Parent <$> entries w !! 3 = Some (Some 2) /\
  pathAt w 3 = "b/1".
Proof. evaluate. Qed.

(** With the early return of the later revision the second call changes
    nothing. *)
Lemma newDirEntry_idempotent f overlayPath w :
  is_Some (dirMap_Path (dmap w) !! overlayPath) ->
  newDirEntry f overlayPath w = Ok tt w.
Proof.
  intros [p Hp]. unfold newDirEntry. cbn [newDirEntry_rec].
  unfold bind, lookupPath. rewrite Hp. reflexivity.
Qed.

(** X15.  Every name record that [rewriteNameFiles] writes holds the new
    location joined with a file name of the directory, and a newline. *)
Lemma rewriteNames_format f dirHash dstLocation fls : forall w r w',
  rewriteNames f dirHash dstLocation fls w = Ok r w' ->
  exists evs, trace w' = trace w ++ evs /\
    forall remote bytes err, (CPut remote bytes, err) ∈ evs ->
      exists fileName hash, (fileName, hash) ∈ fls /\
        remote = path_Join [dirHash; hash; "name"] /\
        bytes = path_Join [dstLocation; fileName] +:+ NL.
Proof.
  induction fls as [|[fileName hash] fls IH]; intros w r w' H; cbn [rewriteNames] in H.
  - cbv beta delta [ret] in H. injection H as Hr Hw. clear Hr. subst w'. exists []. rewrite app_nil_r. split; [reflexivity|].
    intros ? ? ? Hin. by apply elem_of_nil in Hin.
  - set (name := path_Join [dirHash; hash; "name"]) in *.
    set (bytes := path_Join [dstLocation; fileName] +:+ NL) in *.
    assert (Hmine : forall (r1 r2 r3 : option error) remote b (err : option error),
              (CPut remote b, err) ∈ [(CNewObject name, r1); (CRemove name, r2);
                                      (CPut name bytes, r3)] ->
              exists fn h, (fn, h) ∈ (fileName, hash) :: fls /\
                remote = path_Join [dirHash; h; "name"] /\
                b = path_Join [dstLocation; fn] +:+ NL).
    { intros r1 r2 r3 remote b err Hin.
      apply elem_of_cons in Hin as [Hin|Hin]; [discriminate|].
      apply elem_of_cons in Hin as [Hin|Hin]; [discriminate|].
      apply list_elem_of_singleton in Hin. injection Hin as -> -> _.
      exists fileName, hash. split; [left|auto]. }
    unfold bind in H.
    destruct (call f (CNewObject name) w) as [r1 w1| |] eqn:E1; try discriminate.
    apply call_spec in E1 as [Hr1 ->].
    destruct r1 as [err|].
    { injection H as _ <-. eexists. split; [reflexivity|].
      intros ? ? ? Hin. apply list_elem_of_singleton in Hin. discriminate. }
    destruct (call f (CRemove name) _) as [r2 w2| |] eqn:E2; try discriminate.
    apply call_spec in E2 as [Hr2 ->]. cbn [trace set_trace] in *.
    destruct r2 as [err|].
    { injection H as _ <-. cbn [trace set_trace]. rewrite <- app_assoc.
      eexists. split; [reflexivity|].
      intros ? ? ? Hin. apply elem_of_cons in Hin as [Hin|Hin]; [discriminate|].
      apply list_elem_of_singleton in Hin. discriminate. }
    destruct (call f (CPut name bytes) _) as [r3 w3| |] eqn:E3; try discriminate.
    apply call_spec in E3 as [Hr3 ->]. cbn [trace set_trace] in *.
    destruct r3 as [err|].
    { injection H as _ <-. cbn [trace set_trace]. rewrite <- !app_assoc.
      eexists. split; [reflexivity|]. apply Hmine. }
    apply IH in H as (evs & Ht & Hevs). cbn [trace set_trace] in Ht.
    exists ([(CNewObject name, None); (CRemove name, None); (CPut name bytes, None)]
            ++ evs). split.
    { rewrite Ht, <- !app_assoc. reflexivity. }
    intros remote b err' Hin. apply elem_of_app in Hin as [Hin|Hin].
    + eapply Hmine; eauto.
    + destruct (Hevs _ _ _ Hin) as (fn & h & Hfh & -> & ->).
      exists fn, h. split; [by right|auto].
Qed.

(** The name record of a/x rewritten for the location b. *)
Lemma rewriteNames_format_witness :
  let w := stateAfter fs0 [OpMkdir "a"; OpPut "hello" "a/x"] in
  let w' := after (rewriteNames fs0 "a" "b" [("x", "x")]) w in
  rewriteNames fs0 "a" "b" [("x", "x")] w = Ok None w' /\
  exists evs, trace w' = trace w ++ evs /\
    forall remote bytes err, (CPut remote bytes, err) ∈ evs ->
      exists fileName hash, (fileName, hash) ∈ [("x", "x")] /\
        remote = path_Join ["a"; hash; "name"] /\
        bytes = path_Join ["b"; fileName] +:+ NL.
Proof.
  intros w w'.
  assert (H1 : rewriteNames fs0 "a" "b" [("x", "x")] w = Ok None w')
    by (vm_compute; reflexivity).
  split; [exact H1|].
  exact (rewriteNames_format fs0 "a" "b" [("x", "x")] w None w' H1).
Defined.

(** * Further properties *)

(** ** Strings: lines and separators *)

Lemma append_String a (s t : string) : String a s +:+ t = String a (s +:+ t).
Proof. reflexivity. Qed.

Lemma append_empty (t : string) : "" +:+ t = t.
Proof. reflexivity. Qed.

Lemma string_app_nil_r (s : string) : s +:+ "" = s.
Proof.
  induction s as [|a s IH]; [reflexivity|]. by rewrite append_String, IH.
Qed.

Lemma string_app_assoc (a b c : string) : (a +:+ b) +:+ c = a +:+ b +:+ c.
Proof.
  induction a as [|x a IH]; [reflexivity|]. by rewrite !append_String, IH.
Qed.

Lemma concat_cons (x : string) (xs : list string) :
  String.concat "" (x :: xs) = x +:+ String.concat "" xs.
Proof. destruct xs; cbn [String.concat]; [by rewrite string_app_nil_r|reflexivity]. Qed.

Lemma containsChar_app c (a b : string) :
  containsChar c (a +:+ b) = containsChar c a || containsChar c b.
Proof.
  induction a as [|x a IH]; [reflexivity|].
  rewrite append_String. cbn [containsChar]. rewrite IH. by rewrite orb_assoc.
Qed.

(** A piece without a newline, then a newline: one more line. *)
Lemma readLines_line (l rest : string) :
  containsChar nl l = false ->
  readLines (l +:+ NL +:+ rest)
  = (l :: fst (readLines rest), snd (readLines rest)).
Proof.
  induction l as [|a l IH]; intros Hnl.
  - rewrite append_empty. unfold NL. rewrite append_String, append_empty.
    cbn [readLines]. destruct (readLines rest). reflexivity.
  - cbn [containsChar] in Hnl. apply orb_false_iff in Hnl as [Ha Hl].
    rewrite append_String. cbn [readLines]. rewrite (IH Hl). rewrite Ha.
    reflexivity.
Qed.

(** What follows the last newline is not a line. *)
Lemma readLines_tail (g : string) :
  containsChar nl g = false -> readLines g = ([], g).
Proof.
  induction g as [|a g IH]; intros Hnl; [reflexivity|].
  cbn [containsChar] in Hnl. apply orb_false_iff in Hnl as [Ha Hg].
  cbn [readLines]. rewrite (IH Hg), Ha. reflexivity.
Qed.

Lemma readLines_lines (ls : list string) (g : string) :
  Forall (fun l => containsChar nl l = false) ls ->
  containsChar nl g = false ->
  readLines (String.concat "" (map (fun l => l +:+ NL) ls) +:+ g) = (ls, g).
Proof.
  intros Hls Hg. induction Hls as [|l ls Hl _ IH].
  - cbn [map String.concat]. rewrite append_empty. by apply readLines_tail.
  - cbn [map]. rewrite concat_cons, !string_app_assoc, readLines_line by exact Hl.
    rewrite IH. reflexivity.
Qed.

Lemma readLines_concat (ls : list string) :
  Forall (fun l => containsChar nl l = false) ls ->
  readLines (String.concat "" (map (fun l => l +:+ NL) ls)) = (ls, "").
Proof.
  intros Hls. rewrite <- (string_app_nil_r (String.concat _ _)).
  by apply readLines_lines.
Qed.

(** A key without a space, a space, a name: cut between key and name. *)
Lemma SplitN2_key (h p : string) :
  containsChar space h = false ->
  SplitN2 space (h +:+ " " +:+ p) = Some (h, p).
Proof.
  induction h as [|a h IH]; intros Hsp; [reflexivity|].
  cbn [containsChar] in Hsp. apply orb_false_iff in Hsp as [Ha Hh].
  rewrite append_String. cbn [SplitN2]. rewrite Ha, (IH Hh). reflexivity.
Qed.

Lemma line_not_empty (h p : string) : String.eqb (h +:+ " " +:+ p) "" = false.
Proof. destruct h; reflexivity. Qed.

(** ** The parent path is shorter *)

Lemma TrimSuffixChar_length c (s : string) :
  String.length (TrimSuffixChar c s) <= String.length s.
Proof.
  induction s as [|a s IH]; [reflexivity|].
  cbn [TrimSuffixChar]. destruct s as [|b s].
  - destruct (eqb_ascii a c); cbn; lia.
  - cbn [String.length] in *. lia.
Qed.

(** The directory part of [path.Split] is empty or ends with a slash. *)
Lemma path_Split_dir (p : string) :
  let d := fst (path_Split p) in
  String.length d <= String.length p /\ (d = "" \/ endsWithSlash d = true).
Proof.
  induction p as [|a p IH]; [cbn; auto|].
  cbn [path_Split]. destruct (path_Split p) as [d f]. cbn [fst] in IH.
  destruct IH as [Hlen Hd]. destruct d as [|b d].
  - destruct (eqb_ascii a slash) eqn:Ha; cbn [fst String.length].
    + split; [lia|]. right. cbn. exact Ha.
    + split; [lia|auto].
  - cbn [fst String.length] in *. split; [lia|]. right.
    destruct Hd as [Hd|Hd]; [discriminate|]. exact Hd.
Qed.

Lemma TrimSuffixChar_slash (d : string) :
  endsWithSlash d = true ->
  String.length (TrimSuffixChar slash d) < String.length d.
Proof.
  induction d as [|a d IH]; [discriminate|].
  intros H. cbn [TrimSuffixChar]. destruct d as [|b d].
  - cbn in H. rewrite H. cbn. lia.
  - cbn [String.length]. specialize (IH H). cbn [String.length] in IH. lia.
Qed.

Lemma parentPathOf_shorter (p : string) :
  p <> "" -> String.length (parentPathOf p) < String.length p.
Proof.
  intros Hp. unfold parentPathOf.
  destruct (path_Split_dir p) as [Hlen [Hd|Hd]].
  - rewrite Hd. cbn. destruct p; [done|cbn; lia].
  - pose proof (TrimSuffixChar_slash _ Hd). lia.
Qed.

(** ** The last element of a path *)

Lemma Split_nonempty c (s : string) : Split c s <> [].
Proof.
  destruct s as [|a r]; [discriminate|]. cbn [Split].
  destruct (eqb_ascii a c); [discriminate|]. destruct (Split c r); discriminate.
Qed.

(** [path.Split] cuts after the last slash: without a slash the whole
    path is the file part; with one, the file part is the last of the
    pieces between slashes. *)
Lemma path_Split_Split (p : string) :
  (fst (path_Split p) = "" /\ Split slash p = [p] /\ snd (path_Split p) = p) \/
  (fst (path_Split p) <> "" /\
   exists xs, xs <> [] /\ Split slash p = xs ++ [snd (path_Split p)]).
Proof.
  induction p as [|a r IH]; [left; auto|].
  cbn [Split path_Split]. destruct (path_Split r) as [d f]. cbn [fst snd] in *.
  destruct IH as [(-> & -> & ->)|(Hd & xs & Hxs & ->)].
  - destruct (eqb_ascii a slash); cbn [fst snd].
    + right. split; [discriminate|]. exists [""]. split; [discriminate|reflexivity].
    + left. auto.
  - destruct d as [|b d]; [done|]. cbn [fst snd]. right. split; [discriminate|].
    destruct (eqb_ascii a slash).
    + exists ("" :: xs). split; [discriminate|reflexivity].
    + destruct xs as [|x xs]; [done|]. exists (String a x :: xs).
      split; [discriminate|reflexivity].
Qed.

(** When the file part is not empty, [path.Base] is the file part of
    [path.Split]. *)
Lemma path_Base_leaf (p : string) :
  snd (path_Split p) <> "" -> path_Base p = snd (path_Split p).
Proof.
  intros Hleaf. unfold path_Base. destruct p as [|a r]; [done|].
  set (keep := fun e : string => negb (String.eqb e "")).
  assert (Hkeep : keep (snd (path_Split (String a r))) = true).
  { unfold keep. apply negb_true_iff, String.eqb_neq. exact Hleaf. }
  destruct (path_Split_Split (String a r)) as [(_ & -> & Hs)|(_ & xs & _ & ->)].
  - rewrite Hs in *. cbn [List.filter]. rewrite Hkeep. reflexivity.
  - rewrite List.filter_app. cbn [List.filter]. rewrite Hkeep.
    destruct (List.filter keep xs ++ [snd (path_Split (String a r))]) eqn:E.
    + by apply app_eq_nil in E as [_ ?].
    + rewrite <- E. apply last_last.
Qed.

(** ** Lines that hold their key and name *)

Lemma plainLine_spec key name :
  plainLine key name = true ->
  containsChar nl name = false /\ containsChar nl key = false /\
  containsChar space key = false.
Proof.
  unfold plainLine. intros H.
  apply andb_true_iff in H as [H H3]. apply andb_true_iff in H as [H1 H2].
  apply negb_true_iff in H1, H2, H3. auto.
Qed.

Lemma plainLine_no_newline key name :
  plainLine key name = true -> containsChar nl (key +:+ " " +:+ name) = false.
Proof.
  intros H. apply plainLine_spec in H as (H1 & H2 & _).
  rewrite !containsChar_app, H1, H2. reflexivity.
Qed.

Lemma plainFiles_spec m name key :
  plainFiles m = true -> m !! name = Some key -> plainLine key name = true.
Proof.
  unfold plainFiles. intros H Hm. rewrite forallb_forall in H.
  apply (H (name, key)). apply list_elem_of_In, elem_of_map_to_list. exact Hm.
Qed.

(** ** Making directory entries *)

Lemma grows_refl f w : grows f w w.
Proof.
  split; auto.
  - intros q e He. exists e. auto.
  - intros k q H1 H2. congruence.
Qed.

Lemma grows_trans f w1 w2 w3 : grows f w1 w2 -> grows f w2 w3 -> grows f w1 w3.
Proof.
  intros H12 H23. split.
  - rewrite (grows_trace _ _ _ H23). apply (grows_trace _ _ _ H12).
  - pose proof (grows_next _ _ _ H12). pose proof (grows_next _ _ _ H23). lia.
  - intros k q Hk. apply (grows_index _ _ _ H23), (grows_index _ _ _ H12), Hk.
  - intros q e He.
    destruct (grows_entries _ _ _ H12 q e He) as (e2 & He2 & ? & ? & ? & ?).
    destruct (grows_entries _ _ _ H23 q e2 He2) as (e3 & He3 & ? & ? & ? & ?).
    exists e3. repeat split; congruence.
  - intros q c Hc. apply (grows_children _ _ _ H23), (grows_children _ _ _ H12), Hc.
  - intros k q Hk3 Hk1.
    destruct (dirMap_Path (dmap w2) !! k) as [q2|] eqn:Hk2.
    + pose proof (grows_index _ _ _ H23 k q2 Hk2) as Hq. rewrite Hk3 in Hq.
      injection Hq as <-.
      destruct (grows_new _ _ _ H12 k q Hk2 Hk1) as (Hle & e & He & HP & HH & Hf & Hpar).
      split; [exact Hle|].
      destruct (grows_entries _ _ _ H23 q e He) as (e3 & He3 & HP3 & HH3 & Hpar3 & Hf3).
      exists e3. split; [exact He3|]. split; [congruence|]. split; [congruence|].
      split; [congruence|]. destruct (String.eqb k ""); [congruence|].
      destruct Hpar as (pp & Hpp & Hidx & Hch). exists pp.
      split; [congruence|]. split; [by apply (grows_index _ _ _ H23)|].
      by apply (grows_children _ _ _ H23).
    + destruct (grows_new _ _ _ H23 k q Hk3 Hk2) as (Hle & Hrest).
      split; [|exact Hrest]. pose proof (grows_next _ _ _ H12). lia.
Qed.

(** [append] on a slice that fits its array. *)
Lemma slice_append_spec s x w a :
  arrays w !! s_arr s = Some a -> s_len s <= length a ->
  exists s' w' a',
    slice_append s x w = Ok s' w' /\
    entries w' = entries w /\ dmap w' = dmap w /\ trace w' = trace w /\
    nextPtr w' = nextPtr w /\
    arrays w' = <[s_arr s' := a']> (arrays w) /\
    (s_arr s' = s_arr s \/ s_arr s' = nextArr w) /\
    s_len s' <= length a' /\
    take (s_len s') a' = take (s_len s) a ++ [x].
Proof.
  intros Ha Hlen. unfold slice_append, bind, getArray. rewrite Ha.
  destruct (decide (s_len s < length a)) as [Hroom|Hfull].
  - eexists _, _, (<[s_len s := x]> a). unfold putArray, modify, ret.
    split; [reflexivity|]. cbn [entries dmap trace nextPtr arrays set_arrays s_arr s_len].
    repeat split; auto.
    + rewrite length_insert. lia.
    + erewrite take_S_r by (apply list_lookup_insert_eq; exact Hroom).
      rewrite take_insert_ge by lia. reflexivity.
  - assert (Heq : s_len s = length a) by lia.
    eexists _, _, _. unfold allocArray, ret. split; [reflexivity|].
    cbn [entries dmap trace nextPtr arrays s_arr s_len].
    repeat split; auto.
    + rewrite length_app, length_take. cbn [length]. lia.
    + rewrite Heq, firstn_all.
      replace (S (length a)) with (length a + 1) by lia.
      rewrite take_app_add. reflexivity.
Qed.

Lemma childrenOf_eq w p e a :
  entries w !! p = Some e -> arrays w !! s_arr (Children e) = Some a ->
  s_len (Children e) <= length a ->
  childrenOf w p = take (s_len (Children e)) a.
Proof.
  intros He Ha Hlen. unfold childrenOf, childrenIn. rewrite He, Ha.
  destruct (decide _); [reflexivity|lia].
Qed.

Lemma childrenOf_wf w p c :
  wf w -> c ∈ childrenOf w p ->
  exists e a, entries w !! p = Some e /\ arrays w !! s_arr (Children e) = Some a /\
    s_len (Children e) <= length a /\ childrenOf w p = take (s_len (Children e)) a.
Proof.
  intros Hwf Hc. destruct (entries w !! p) as [e|] eqn:He.
  - destruct (wf_entry w Hwf p e He) as (_ & _ & a & Ha & Hlen & _).
    exists e, a. repeat split; auto. by apply childrenOf_eq.
  - unfold childrenOf, childrenIn in Hc. rewrite He in Hc. by apply elem_of_nil in Hc.
Qed.

Lemma childrenOf_nil w p e :
  wf w -> entries w !! p = Some e ->
  childrenOf w p = [] <-> s_len (Children e) = 0.
Proof.
  intros Hwf He. destruct (wf_entry w Hwf p e He) as (_ & _ & a & Ha & Hlen & _).
  rewrite (childrenOf_eq w p e a He Ha Hlen). split.
  - intros H. apply (f_equal length) in H. rewrite length_take in H. simpl in H. lia.
  - intros ->. reflexivity.
Qed.

(** The entry that [newDirEntry] makes once the parent is at hand. *)
Lemma linkEntry_grows f p parent w :
  wf w -> dirMap_Path (dmap w) !! p = None ->
  match parent with
  | None => p = ""
  | Some pp => p <> "" /\ dirMap_Path (dmap w) !! parentPathOf p = Some pp
  end ->
  exists w', linkEntry f p parent w = Ok tt w' /\ wf w' /\ grows f w w' /\
    dirMap_Path (dmap w') = <[p := nextPtr w]> (dirMap_Path (dmap w)).
Proof.
  intros Hwf Hp Hpar.
  set (e0 := newEntry f p parent w).
  set (d1 := registered f p w).
  set (w1 := set_dmap (withEntry w e0) d1).
  assert (Hold : forall q e, entries w !! q = Some e -> q <> nextPtr w).
  { intros q e He. destruct (wf_entry w Hwf q e He) as (Hlt & _). lia. }
  assert (Holda : forall q e, entries w !! q = Some e ->
            s_arr (Children e) <> nextArr w).
  { intros q e He. destruct (wf_entry w Hwf q e He) as (_ & Hlt & _). lia. }
  assert (Hidx : forall k q, dirMap_Path (dmap w) !! k = Some q ->
            <[p := nextPtr w]> (dirMap_Path (dmap w)) !! k = Some q).
  { intros k q Hk. rewrite lookup_insert_ne; [exact Hk|]. intros <-. congruence. }
  assert (Hnewkey : forall k q,
            <[p := nextPtr w]> (dirMap_Path (dmap w)) !! k = Some q ->
            dirMap_Path (dmap w) !! k = None -> k = p /\ q = nextPtr w).
  { intros k q Hk Hn. destruct (decide (p = k)) as [<-|Hne].
    - rewrite lookup_insert_eq in Hk. injection Hk as <-. auto.
    - rewrite lookup_insert_ne in Hk by exact Hne. congruence. }
  destruct parent as [pp|].
  - destruct Hpar as [Hne Hpp].
    destruct (wf_index w Hwf _ _ Hpp) as [pe Hpe].
    destruct (wf_entry w Hwf pp pe Hpe) as (Hlt & Hla & a & Ha & Hlen & _).
    assert (Hpe1 : entries w1 !! pp = Some pe).
    { cbn [w1 entries set_dmap withEntry]. rewrite lookup_insert_ne; [exact Hpe|].
      intros Heq. by apply (Hold pp pe). }
    assert (Ha1 : arrays w1 !! s_arr (Children pe) = Some a).
    { cbn [w1 arrays set_dmap withEntry]. rewrite lookup_insert_ne; [exact Ha|].
      intros Heq. by apply (Holda pp pe). }
    destruct (slice_append_spec (Children pe) (nextPtr w) w1 a Ha1 Hlen)
      as (s' & w2 & a' & Happ & He2 & Hd2 & Ht2 & Hn2 & Ha2 & Hs' & Hlen' & Htake).
    set (w' := set_entries w2 (<[pp := set_Children pe s']> (entries w2))).
    assert (HE : linkEntry f p (Some pp) w = Ok tt w').
    { rewrite linkEntry_unfold. fold e0 d1 w1. unfold bind, deref.
      rewrite Hpe1, Happ. reflexivity. }
    assert (Hwf' : wf w') by (eapply linkEntry_wf; [exact Hwf| |exact HE];
                              intros ? [= <-]; eauto).
    assert (Hent' : forall q, q <> pp -> q <> nextPtr w ->
              entries w' !! q = entries w !! q).
    { intros q H1 H2. cbn [w' entries set_entries]. rewrite lookup_insert_ne by done.
      rewrite He2. cbn [w1 entries set_dmap withEntry]. by rewrite lookup_insert_ne. }
    assert (Hpp' : entries w' !! pp = Some (set_Children pe s')).
    { cbn [w' entries set_entries]. apply lookup_insert_eq. }
    assert (Hnew' : entries w' !! nextPtr w = Some e0).
    { cbn [w' entries set_entries]. rewrite lookup_insert_ne by lia.
      rewrite He2. cbn [w1 entries set_dmap withEntry]. apply lookup_insert_eq. }
    assert (Harr' : arrays w' = <[s_arr s' := a']> (<[nextArr w := []]> (arrays w))).
    { cbn [w' arrays set_entries]. rewrite Ha2. reflexivity. }
    assert (Hch' : childrenOf w' pp = take (s_len (Children pe)) a ++ [nextPtr w]).
    { rewrite (childrenOf_eq w' pp _ a' Hpp'); cbn [Children set_Children];
        [exact Htake| |exact Hlen']. rewrite Harr'. apply lookup_insert_eq. }
    exists w'. split; [exact HE|]. split; [exact Hwf'|]. split; [split|].
    + cbn [w' trace set_entries]. rewrite Ht2. reflexivity.
    + cbn [w' nextPtr set_entries]. rewrite Hn2. cbn. lia.
    + intros k q Hk. cbn [w' dmap set_entries]. rewrite Hd2. by apply Hidx.
    + intros q e He. destruct (decide (q = pp)) as [->|Hq].
      * rewrite Hpe in He. injection He as <-. eexists. split; [exact Hpp'|]. auto.
      * exists e. rewrite Hent'; [auto|exact Hq|by apply (Hold q e)].
    + intros q c Hc.
      destruct (childrenOf_wf w q c Hwf Hc) as (e & aq & He & Haq & Hlq & Heq).
      destruct (decide (q = pp)) as [->|Hq].
      * rewrite Hch'. rewrite Hpe in He. injection He as <-.
        rewrite Ha in Haq. injection Haq as <-. rewrite Heq in Hc.
        apply elem_of_app. by left.
      * assert (Heq' : childrenOf w' q = take (s_len (Children e)) aq).
        { apply childrenOf_eq; [|rewrite Harr'|exact Hlq].
          - rewrite Hent'; [exact He|exact Hq|by apply (Hold q e)].
          - rewrite !lookup_insert_ne; [exact Haq| |].
            + intros Heqa. by apply (Holda q e).
            + destruct Hs' as [Hs'|Hs']; rewrite Hs'.
              * intros Heqa. apply Hq. symmetry.
                eapply (wf_noshare w Hwf); eauto.
              * cbn [w1 nextArr set_dmap withEntry].
                destruct (wf_entry w Hwf q e He) as (_ & ? & _). lia. }
        rewrite Heq'. by rewrite <- Heq.
    + intros k q Hk Hn. cbn [w' dmap set_entries] in Hk. rewrite Hd2 in Hk.
      destruct (Hnewkey k q Hk Hn) as [-> ->]. split; [lia|].
      exists e0. split; [exact Hnew'|]. split; [reflexivity|]. split; [reflexivity|].
      split; [reflexivity|].
      apply String.eqb_neq in Hne as Hneb. rewrite Hneb.
      exists pp. split; [reflexivity|]. split.
      * cbn [w' dmap set_entries]. rewrite Hd2. by apply Hidx.
      * rewrite Hch'. apply elem_of_app. right. left.
    + cbn [w' dmap set_entries]. rewrite Hd2. reflexivity.
  - subst p.
    assert (HE : linkEntry f "" None w = Ok tt w1) by (by rewrite linkEntry_unfold).
    assert (Hwf' : wf w1) by (eapply linkEntry_wf; [exact Hwf| |exact HE]; discriminate).
    exists w1. split; [exact HE|]. split; [exact Hwf'|]. split; [split|].
    + reflexivity.
    + cbn. lia.
    + intros k q Hk. by apply Hidx.
    + intros q e He. exists e. split; [|auto].
      cbn [w1 entries set_dmap withEntry]. rewrite lookup_insert_ne; [exact He|].
      intros Heq. by apply (Hold q e).
    + intros q c Hc.
      destruct (childrenOf_wf w q c Hwf Hc) as (e & aq & He & Haq & Hlq & Heq).
      assert (Heq' : childrenOf w1 q = take (s_len (Children e)) aq).
      { apply childrenOf_eq; [| |exact Hlq].
        - cbn [w1 entries set_dmap withEntry]. rewrite lookup_insert_ne; [exact He|].
          intros Heqa. by apply (Hold q e).
        - cbn [w1 arrays set_dmap withEntry]. rewrite lookup_insert_ne; [exact Haq|].
          intros Heqa. by apply (Holda q e). }
      rewrite Heq'. by rewrite <- Heq.
    + intros k q Hk Hn. destruct (Hnewkey k q Hk Hn) as [-> ->]. split; [lia|].
      exists e0. split; [apply lookup_insert_eq|]. repeat split.
    + reflexivity.
Qed.

Lemma parentPathOf_neq p : p <> "" -> parentPathOf p <> p.
Proof. intros Hp Heq. pose proof (parentPathOf_shorter p Hp). rewrite Heq in H. lia. Qed.

Lemma pathAbove_length k p : pathAbove k p -> String.length k <= String.length p.
Proof.
  induction 1 as [|k p Hp _ IH]; [lia|].
  pose proof (parentPathOf_shorter p Hp). lia.
Qed.

Lemma newDirEntry_rec_grows f : forall n p w,
  String.length p < n -> wf w ->
  exists w', newDirEntry_rec n f p w = Ok tt w' /\ wf w' /\ grows f w w' /\
    is_Some (dirMap_Path (dmap w') !! p) /\
    (forall k, is_Some (dirMap_Path (dmap w') !! k) ->
               dirMap_Path (dmap w) !! k = None ->
               pathAbove k p /\
               (k <> "" -> is_Some (dirMap_Path (dmap w') !! parentPathOf k))).
Proof.
  induction n as [|n IH]; intros p w Hn Hwf; [lia|].
  cbn [newDirEntry_rec]. unfold bind at 1. unfold lookupPath at 1.
  destruct (dirMap_Path (dmap w) !! p) as [q|] eqn:Hp.
  { exists w. split; [reflexivity|]. split; [exact Hwf|]. split; [apply grows_refl|].
    split; [eauto|]. intros k [q' Hk] Hnone. congruence. }
  assert (Hlink : forall parent w1,
            wf w1 -> grows f w w1 -> dirMap_Path (dmap w1) !! p = None ->
            match parent with
            | None => p = ""
            | Some pp => p <> "" /\ dirMap_Path (dmap w1) !! parentPathOf p = Some pp
            end ->
            (forall k, is_Some (dirMap_Path (dmap w1) !! k) ->
               dirMap_Path (dmap w) !! k = None ->
               pathAbove k p /\
               (k <> "" -> is_Some (dirMap_Path (dmap w1) !! parentPathOf k))) ->
            exists w', linkEntry f p parent w1 = Ok tt w' /\ wf w' /\ grows f w w' /\
              is_Some (dirMap_Path (dmap w') !! p) /\
              (forall k, is_Some (dirMap_Path (dmap w') !! k) ->
                 dirMap_Path (dmap w) !! k = None ->
                 pathAbove k p /\
                 (k <> "" -> is_Some (dirMap_Path (dmap w') !! parentPathOf k)))).
  { intros parent w1 Hwf1 Hg1 Hp1 Hpar Hnew1.
    destruct (linkEntry_grows f p parent w1 Hwf1 Hp1 Hpar) as (w' & HE & Hwf' & Hg' & Hd').
    exists w'. split; [exact HE|]. split; [exact Hwf'|].
    split; [eapply grows_trans; eauto|].
    split; [rewrite Hd', lookup_insert_eq; eauto|].
    intros k Hk Hnone. rewrite Hd' in Hk.
    assert (Hup : forall k', is_Some (dirMap_Path (dmap w1) !! k') ->
              is_Some (dirMap_Path (dmap w') !! k')).
    { intros k' [q' Hk']. exists q'. by apply (grows_index _ _ _ Hg'). }
    destruct (decide (p = k)) as [<-|Hne].
    - split; [constructor|]. intros Hne. destruct parent as [pp|]; [|done].
      destruct Hpar as [_ Hpp]. apply Hup. eauto.
    - rewrite lookup_insert_ne in Hk by exact Hne.
      destruct (Hnew1 k Hk Hnone) as [Hlen Hparent]. split; [exact Hlen|].
      intros Hk0. apply Hup. by apply Hparent. }
  unfold bind at 1. destruct (String.eqb p "") eqn:Hempty.
  { apply String.eqb_eq in Hempty. unfold ret at 1.
    apply Hlink; [exact Hwf|apply grows_refl|exact Hp|exact Hempty|].
    intros k [q Hk] Hnone. congruence. }
  apply String.eqb_neq in Hempty.
  unfold bind at 1. unfold lookupPath at 1.
  destruct (dirMap_Path (dmap w) !! parentPathOf p) as [pp|] eqn:Hpp.
  { unfold ret at 1.
    apply Hlink; [exact Hwf|apply grows_refl|exact Hp|auto|].
    intros k [q Hk] Hnone. congruence. }
  pose proof (parentPathOf_shorter p Hempty) as Hshort.
  destruct (IH (parentPathOf p) w ltac:(lia) Hwf)
    as (w1 & HE1 & Hwf1 & Hg1 & [pp Hpp1] & Hnew1).
  unfold bind at 1. rewrite HE1. unfold lookupPath. rewrite Hpp1.
  apply Hlink; [exact Hwf1|exact Hg1| |auto|].
  - destruct (dirMap_Path (dmap w1) !! p) as [q|] eqn:Hp1; [|reflexivity].
    destruct (Hnew1 p ltac:(eauto) Hp) as [Hlen _].
    apply pathAbove_length in Hlen. lia.
  - intros k Hk Hnone. destruct (Hnew1 k Hk Hnone) as [Hlen Hparent].
    split; [by apply above_parent|exact Hparent].
Qed.

Lemma newDirEntry_grows f p w :
  wf w ->
  exists w', newDirEntry f p w = Ok tt w' /\ wf w' /\ grows f w w' /\
    is_Some (dirMap_Path (dmap w') !! p) /\
    (forall k, is_Some (dirMap_Path (dmap w') !! k) ->
               dirMap_Path (dmap w) !! k = None ->
               pathAbove k p /\
               (k <> "" -> is_Some (dirMap_Path (dmap w') !! parentPathOf k))).
Proof. intros Hwf. apply newDirEntry_rec_grows; [lia|exact Hwf]. Qed.

(** ** Opening a remote *)

Lemma newDirMap_fresh f w :
  newDirMap f w = Ok tt (freshTree f w).
Proof.
  unfold newDirMap, bind, modify, newDirEntry. cbn [String.length newDirEntry_rec].
  unfold bind, lookupPath. cbn [dmap set_dmap dirMap_Path].
  rewrite lookup_empty. cbn [String.eqb]. unfold ret at 1.
  rewrite linkEntry_unfold. reflexivity.
Qed.

(** X5.  [NewFs] starts from a tree that holds the root alone, and
    reports no error, whenever the root index cannot be looked up,
    whatever the error of the lookup is, and when opening it reports
    that the object is not there; any other error of the opening is
    returned and the directory map is left as it was. *)
Theorem NewFs_without_root_index (f : Fs) (w : World) :
  let w1 := set_trace w (trace w ++ [(CNewObject "map",
                                      reply (base f) (trace w) (CNewObject "map"))]) in
  let oerr := reply (base f) (trace w1) (COpen "map") in
  let w2 := set_trace w1 (trace w1 ++ [(COpen "map", oerr)]) in
  (is_Some (reply (base f) (trace w) (CNewObject "map")) ->
     NewFs f w = Ok None (freshTree f w1)) /\
  (reply (base f) (trace w) (CNewObject "map") = None ->
   forall err, oerr = Some err ->
     NewFs f w = if errors_Is err ErrorObjectNotFound
                 then Ok None (freshTree f w2)
                 else Ok (Some err) w2).
Proof.
  intros w1 oerr w2. split.
  - intros [err Herr]. unfold NewFs, bind, call. rewrite Herr.
    unfold loadDirectoryMap, bind. fold w1. unfold w1. rewrite Herr.
    rewrite newDirMap_fresh. reflexivity.
  - intros Hnone err Herr. unfold NewFs, bind, call, openObj, call. rewrite Hnone.
    cbn [trace set_trace]. unfold w2, oerr, w1 in *. rewrite Hnone in *.
    cbn [trace set_trace] in *. rewrite Herr.
    destruct (errors_Is err ErrorObjectNotFound); [|reflexivity].
    unfold loadDirectoryMap, bind. rewrite newDirMap_fresh. reflexivity.
Qed.

(** A root index that cannot be looked up, and one that cannot be
    opened. *)
Lemma NewFs_without_root_index_witness :
  let w := stateAfter fs0 [OpMkdir "a"] in
  let w1 := set_trace w (trace w ++ [(CNewObject "map", Some (ErrNew "timeout"))]) in
  let v1 := set_trace w (trace w ++ [(CNewObject "map", None)]) in
  let v2 := set_trace v1 (trace v1 ++ [(COpen "map", Some (ErrNew "permission denied"))]) in
  is_Some (reply (base fsNoLookup) (trace w) (CNewObject "map")) /\
  NewFs fsNoLookup w = Ok None (freshTree fsNoLookup w1) /\
  reply (base fsNoOpen) (trace w) (CNewObject "map") = None /\
  reply (base fsNoOpen) (trace v1) (COpen "map") = Some (ErrNew "permission denied") /\
  NewFs fsNoOpen w = Ok (Some (ErrNew "permission denied")) v2.
Proof.
  intros w w1 v1 v2.
  assert (H1 : is_Some (reply (base fsNoLookup) (trace w) (CNewObject "map")))
    by (exists (ErrNew "timeout"); vm_compute; reflexivity).
  assert (H2 : reply (base fsNoOpen) (trace w) (CNewObject "map") = None)
    by (vm_compute; reflexivity).
  assert (H3 : reply (base fsNoOpen) (trace v1) (COpen "map")
               = Some (ErrNew "permission denied")) by (vm_compute; reflexivity).
  split; [exact H1|]. split.
  { exact (proj1 (NewFs_without_root_index fsNoLookup w) H1). }
  split; [exact H2|]. split; [exact H3|].
  assert (H4 := proj2 (NewFs_without_root_index fsNoOpen w) H2
                  (ErrNew "permission denied")).
  cbv zeta in H4. rewrite H2 in H4. exact (H4 H3).
Defined.

(** ** Mkdir, again *)

Lemma dirMap_write_dmap f w r w' : dirMap_write f w = Ok r w' -> dmap w' = dmap w.
Proof. intros H. apply dirMap_write_spec in H as [bytes ->]. reflexivity. Qed.

(** X10.  Whatever [Mkdir] returned, the directory is in the path index
    afterwards: the entry is made before the remote is asked for
    anything and is not taken back when the remote refuses, so that a
    second [Mkdir] of the same directory returns nil and asks the remote
    for nothing. *)
Theorem Mkdir_again_is_silent (f : Fs) (dir : string) (w : World)
    (r : option error) (w' : World) :
  containsChar nl (path_Join [root f; dir]) = false ->
  Mkdir f dir w = Ok r w' ->
  is_Some (dirMap_Path (dmap w') !! path_Join [root f; dir]) /\
  Mkdir f dir w' = Ok None w'.
Proof.
  intros Hnl H.
  assert (Hin : is_Some (dirMap_Path (dmap w') !! path_Join [root f; dir])).
  { unfold Mkdir, bind in H. unfold lookupPath at 1 in H.
    destruct (dirMap_Path (dmap w) !! path_Join [root f; dir]) as [p|] eqn:Hd.
    { injection H as _ <-. rewrite Hd. eauto. }
    rewrite Hnl in H.
    destruct (newDirEntry f _ w) as [u w1| |]; try discriminate.
    unfold lookupPath in H.
    destruct (dirMap_Path (dmap w1) !! path_Join [root f; dir]) as [entry|] eqn:Hd1;
      [|discriminate].
    unfold deref in H. destruct (entries w1 !! entry) as [e|]; [|discriminate].
    assert (Hkeep : forall err w2,
              match err with
              | Some err => ret (Some err)
              | None => dirMap_write f
              end w2 = Ok r w' -> dmap w2 = dmap w1 -> dmap w' = dmap w1).
    { intros [err|] w2 HW H2.
      - injection HW as _ <-. exact H2.
      - apply dirMap_write_dmap in HW. congruence. }
    destruct (CanHaveEmptyDirectories (base f)).
    - destruct (call f _ w1) as [err w2| |] eqn:HC; try discriminate.
      apply call_spec in HC as [_ ->].
      rewrite (Hkeep _ _ H eq_refl), Hd1. eauto.
    - unfold ret at 1 in H. rewrite (Hkeep None _ H eq_refl), Hd1. eauto. }
  split; [exact Hin|]. destruct Hin as [p Hp].
  unfold Mkdir, bind, lookupPath. rewrite Hp. reflexivity.
Qed.

(** The remote refuses to make the container: the first [Mkdir] returns
    the error, the second returns nil. *)
Lemma Mkdir_again_is_silent_witness :
  let f := fsNoMkdir in
  let w := stateAfter f [] in
  let w' := after (Mkdir f "a") w in
  containsChar nl (path_Join [root f; "a"]) = false /\
  Mkdir f "a" w = Ok (Some (ErrNew "permission denied")) w' /\
  is_Some (dirMap_Path (dmap w') !! path_Join [root f; "a"]) /\
  Mkdir f "a" w' = Ok None w'.
Proof.
  intros f w w'.
  assert (H1 : containsChar nl (path_Join [root f; "a"]) = false) by reflexivity.
  assert (H2 : Mkdir f "a" w = Ok (Some (ErrNew "permission denied")) w')
    by (vm_compute; reflexivity).
  split; [exact H1|]. split; [exact H2|].
  exact (Mkdir_again_is_silent f "a" w _ w' H1 H2).
Defined.

(** ** Copy and the file index *)

Lemma prepareDest_frame f o d h w r w' :
  prepareDest f o d h w = Ok r w' ->
  entries w' = entries w /\ dmap w' = dmap w /\ arrays w' = arrays w.
Proof.
  unfold prepareDest, bind. intros H.
  destruct (call f _ w) as [e1 w1| |] eqn:E1; try discriminate.
  apply call_spec in E1 as [_ ->].
  destruct e1; [injection H as _ <-; auto|].
  destruct (call f _ _) as [e2 w2| |] eqn:E2; try discriminate.
  apply call_spec in E2 as [_ ->].
  destruct e2; [injection H as _ <-; auto|].
  destruct (call f _ _) as [e3 w3| |] eqn:E3; try discriminate.
  apply call_spec in E3 as [_ ->].
  destruct e3; injection H as _ <-; auto.
Qed.

Lemma dirEntry_write_frame f d w r w' :
  dirEntry_write f d w = Ok r w' ->
  entries w' = entries w /\ dmap w' = dmap w /\ arrays w' = arrays w.
Proof.
  unfold dirEntry_write, bind, deref. destruct (entries w !! d) as [e|]; [|discriminate].
  destruct (files e).
  - intros H. apply call_spec in H as [_ ->]. auto.
  - intros H. injection H as _ <-. auto.
Qed.

(** X25.  [Copy] writes the name record, the file index as it is and the
    copy of the data, and changes nothing in memory: the copy is not put
    into the file index of its directory.  A name that [NewObject] did
    not find in a loaded index before the copy is not found after it. *)
Theorem Copy_does_not_index_the_copy (f : Fs) (src : object) (remote : string)
    (w : World) (r : option string * option error) (w' : World) :
  Copy f src remote w = Ok r w' ->
  entries w' = entries w /\ dmap w' = dmap w /\ arrays w' = arrays w /\
  (forall entry e fls,
     dirMap_Path (dmap w) !! remote = None ->
     dirMap_Path (dmap w) !! path_Join [root f; parentPathOf remote] = Some entry ->
     entries w !! entry = Some e -> files e = Some fls ->
     fls !! snd (path_Split remote) = None ->
     NewObject f remote w' = Ok (inl ErrorObjectNotFound) w').
Proof.
  intros H.
  assert (Hframe : entries w' = entries w /\ dmap w' = dmap w /\ arrays w' = arrays w).
  { unfold Copy in H. destruct (feat_Copy (base f)); [|injection H as _ <-; auto].
    cbn [negb] in H. destruct (containsChar nl remote); [injection H as _ <-; auto|].
    unfold toHash in H. destruct (path_Split remote) as [par leaf].
    unfold bind at 1 2 in H. unfold lookupPath at 1 in H. cbn [ret] in H.
    destruct (dirMap_Path (dmap w) !! _) as [entry|]; [|injection H as _ <-; auto].
    unfold bind at 1 in H. unfold deref at 1 in H.
    destruct (entries w !! entry) as [e|]; [|discriminate].
    unfold bind at 1 in H.
    destruct (prepareDest f _ _ _ w) as [perr w1| |] eqn:HP; try discriminate.
    apply prepareDest_frame in HP as (HP1 & HP2 & HP3).
    destruct perr; [injection H as _ <-; auto|].
    unfold bind at 1 in H.
    destruct (dirEntry_write f entry w1) as [werr w2| |] eqn:HW; try discriminate.
    apply dirEntry_write_frame in HW as (HW1 & HW2 & HW3).
    destruct werr; [injection H as _ <-; repeat split; congruence|].
    unfold bind in H.
    destruct (call f _ w2) as [cerr w3| |] eqn:HC; try discriminate.
    apply call_spec in HC as [_ ->].
    destruct cerr; injection H as _ <-; cbn [entries dmap arrays set_trace];
      repeat split; congruence. }
  destruct Hframe as (He & Hd & Ha). repeat split; try assumption.
  intros entry e fls Hr Hp Hent Hf Hleaf.
  unfold NewObject, bind, lookupPath, toHash. rewrite Hd, Hr.
  unfold parentPathOf in Hp. destruct (path_Split remote) as [par leaf].
  cbn [fst snd] in *. unfold bind, lookupPath. rewrite Hd, Hp. cbn [ret].
  rewrite (Files_loaded f entry w' e fls) by congruence.
  rewrite Hleaf. reflexivity.
Qed.

(** The copy of a/x to b/x, with the file index of b loaded: b/x is not
    found afterwards. *)
Lemma Copy_does_not_index_the_copy_witness :
  let w := stateAfter fs0 [OpMkdir "a"; OpMkdir "b"; OpPut "hello" "a/x";
                           OpNewObject "b/x"] in
  let src := {| obj := "a/x/data"; o_path := "a/x"; basePath := "a/x";
                o_dirEntry := 2 |} in
  let w' := after (Copy fs0 src "b/x") w in
  let e := entryOf "b" 1 3 0 (Some ∅) in
  Copy fs0 src "b/x" w = Ok (Some "b/x/data", None) w' /\
  dirMap_Path (dmap w) !! "b/x" = None /\
  dirMap_Path (dmap w) !! path_Join [root fs0; parentPathOf "b/x"] = Some 3 /\
  entries w !! 3 = Some e /\ files e = Some ∅ /\
  (∅ : gmap string string) !! snd (path_Split "b/x") = None /\
  entries w' = entries w /\ dmap w' = dmap w /\ arrays w' = arrays w /\
  NewObject fs0 "b/x" w' = Ok (inl ErrorObjectNotFound) w'.
Proof.
  intros w src w' e.
  assert (H1 : Copy fs0 src "b/x" w = Ok (Some "b/x/data", None) w')
    by (vm_compute; reflexivity).
  assert (H2 : dirMap_Path (dmap w) !! "b/x" = None) by (vm_compute; reflexivity).
  assert (H3 : dirMap_Path (dmap w) !! path_Join [root fs0; parentPathOf "b/x"] = Some 3)
    by (vm_compute; reflexivity).
  assert (H4 : entries w !! 3 = Some e) by (vm_compute; reflexivity).
  assert (H5 : files e = Some ∅) by reflexivity.
  assert (H6 : (∅ : gmap string string) !! snd (path_Split "b/x") = None)
    by reflexivity.
  destruct (Copy_does_not_index_the_copy fs0 src "b/x" w _ w' H1) as (A & B & C & D).
  split; [exact H1|]. split; [exact H2|]. split; [exact H3|]. split; [exact H4|].
  split; [exact H5|]. split; [exact H6|]. split; [exact A|]. split; [exact B|].
  split; [exact C|]. exact (D 3 e ∅ H2 H3 H4 H5 H6).
Defined.

(** X26.  [Copy] into a directory whose file index has not been loaded
    in this session fails with "map file is not loaded": the name
    record has been written by then, the data is not copied. *)
Theorem Copy_needs_loaded_index (f : Fs) (src : object) (remote : string)
    (w w1 : World) (entry : ptr) (e : dirEntry) :
  feat_Copy (base f) = true -> containsChar nl remote = false ->
  dirMap_Path (dmap w) !! path_Join [root f; parentPathOf remote] = Some entry ->
  entries w !! entry = Some e -> files e = None ->
  prepareDest f (o_path src) (Hash e) (hasher f (snd (path_Split remote))) w
    = Ok None w1 ->
  Copy f src remote w = Ok (None, Some (ErrNew msg_not_loaded)) w1.
Proof.
  intros Hfeat Hnl Hp He Hf HP. unfold Copy. rewrite Hfeat, Hnl. cbn [negb].
  unfold toHash. unfold parentPathOf in Hp. destruct (path_Split remote) as [par leaf].
  cbn [fst snd] in *. unfold bind at 1 2. unfold lookupPath at 1. rewrite Hp. cbn [ret].
  unfold bind at 1. unfold deref at 1. rewrite He.
  unfold bind at 1. rewrite HP.
  apply prepareDest_frame in HP as (HP1 & _).
  unfold bind, dirEntry_write, bind, deref. rewrite HP1, He, Hf. reflexivity.
Qed.

(** The same copy when the file index of b has not been loaded. *)
Lemma Copy_needs_loaded_index_witness :
  let w := stateAfter fs0 [OpMkdir "a"; OpMkdir "b"; OpPut "hello" "a/x"] in
  let src := {| obj := "a/x/data"; o_path := "a/x"; basePath := "a/x";
                o_dirEntry := 2 |} in
  let e := entryOf "b" 1 3 0 None in
  let w1 := after (prepareDest fs0 "a/x" "b" "x") w in
  feat_Copy (base fs0) = true /\ containsChar nl "b/x" = false /\
  dirMap_Path (dmap w) !! path_Join [root fs0; parentPathOf "b/x"] = Some 3 /\
  entries w !! 3 = Some e /\ files e = None /\
  prepareDest fs0 (o_path src) (Hash e) (hasher fs0 (snd (path_Split "b/x"))) w
    = Ok None w1 /\
  Copy fs0 src "b/x" w = Ok (None, Some (ErrNew msg_not_loaded)) w1.
Proof.
  intros w src e w1.
  assert (H1 : feat_Copy (base fs0) = true) by reflexivity.
  assert (H2 : containsChar nl "b/x" = false) by reflexivity.
  assert (H3 : dirMap_Path (dmap w) !! path_Join [root fs0; parentPathOf "b/x"] = Some 3)
    by (vm_compute; reflexivity).
  assert (H4 : entries w !! 3 = Some e) by (vm_compute; reflexivity).
  assert (H5 : files e = None) by reflexivity.
  assert (H6 : prepareDest fs0 (o_path src) (Hash e)
                 (hasher fs0 (snd (path_Split "b/x"))) w = Ok None w1)
    by (vm_compute; reflexivity).
  split; [exact H1|]. split; [exact H2|]. split; [exact H3|]. split; [exact H4|].
  split; [exact H5|]. split; [exact H6|].
  exact (Copy_needs_loaded_index fs0 src "b/x" w w1 3 e H1 H2 H3 H4 H5 H6).
Defined.

(** X24.  [Put] and [Copy] do not make the directory of the file: when
    it is not indexed they fail with ErrorDirNotFound, and nothing has
    been asked of the remote. *)
Theorem Put_and_Copy_need_the_directory (f : Fs) (remote : string) (w : World) :
  containsChar nl remote = false ->
  dirMap_Path (dmap w) !! path_Join [root f; parentPathOf remote] = None ->
  (forall data, Put f data remote w = Ok (None, Some ErrorDirNotFound) w) /\
  (forall src, feat_Copy (base f) = true ->
     Copy f src remote w = Ok (None, Some ErrorDirNotFound) w).
Proof.
  intros Hnl Hp. unfold parentPathOf in Hp. split.
  - intros data. unfold Put, put. rewrite Hnl. unfold toHash.
    destruct (path_Split remote) as [par leaf]. cbn [fst snd] in *.
    unfold bind, lookupPath. rewrite Hp. reflexivity.
  - intros src Hfeat. unfold Copy. rewrite Hfeat, Hnl. cbn [negb]. unfold toHash.
    destruct (path_Split remote) as [par leaf]. cbn [fst snd] in *.
    unfold bind, lookupPath. rewrite Hp. reflexivity.
Qed.

(** A file under a directory that was never made. *)
Lemma Put_and_Copy_need_the_directory_witness :
  let w := stateAfter fs0 [OpMkdir "a"; OpPut "hello" "a/x"] in
  let src := {| obj := "a/x/data"; o_path := "a/x"; basePath := "a/x";
                o_dirEntry := 2 |} in
  containsChar nl "q/x" = false /\
  dirMap_Path (dmap w) !! path_Join [root fs0; parentPathOf "q/x"] = None /\
  Put fs0 "hello" "q/x" w = Ok (None, Some ErrorDirNotFound) w /\
  feat_Copy (base fs0) = true /\
  Copy fs0 src "q/x" w = Ok (None, Some ErrorDirNotFound) w.
Proof.
  intros w src.
  assert (H1 : containsChar nl "q/x" = false) by reflexivity.
  assert (H2 : dirMap_Path (dmap w) !! path_Join [root fs0; parentPathOf "q/x"] = None)
    by (vm_compute; reflexivity).
  assert (H3 : feat_Copy (base fs0) = true) by reflexivity.
  split; [exact H1|]. split; [exact H2|]. split.
  { exact (proj1 (Put_and_Copy_need_the_directory fs0 "q/x" w H1 H2) "hello"). }
  split; [exact H3|].
  exact (proj2 (Put_and_Copy_need_the_directory fs0 "q/x" w H1 H2) src H3).
Defined.

(** ** addFile and removeFile *)

Lemma filesInsert_spec d n h w u w' :
  filesInsert d n h w = Ok u w' ->
  exists e m, entries w !! d = Some e /\ files e = Some m /\
    w' = set_entries w (<[d := set_files e (Some (<[n := h]> m))]> (entries w)).
Proof.
  unfold filesInsert, bind, deref, store, modify, panic.
  destruct (entries w !! d) as [e|]; [|discriminate].
  destruct (files e) as [m|] eqn:Hf; [|discriminate].
  intros H. injection H as _ <-. eauto.
Qed.

(** X8.  After [addFile] has returned nil the file index of the
    directory is loaded and maps the name to the key; after
    [removeFile] has returned nil it is loaded and does not hold the
    name.  When the index cannot be loaded both return the error of the
    load, wrapped, and the index stays not loaded. *)
Theorem addFile_removeFile_lookup (f : Fs) (d : ptr) (file hash : string)
    (w w' : World) :
  (addFile f d file hash w = Ok None w' ->
     exists m, Files f d w' = Ok (inr m) w' /\ m !! file = Some hash) /\
  (removeFile f d file w = Ok None w' ->
     exists m, Files f d w' = Ok (inr m) w' /\ m !! file = None) /\
  (forall err, addFile f d file hash w = Ok (Some err) w' \/
               removeFile f d file w = Ok (Some err) w' ->
     exists inner e',
       fillFiles f d w = Ok (Some inner) w' /\
       err = ErrorfW "refusing to modify map file in bad state" inner /\
       entries w' !! d = Some e' /\ files e' = None).
Proof.
  split; [|split].
  - unfold addFile, bind. intros H.
    destruct (fillFiles f d w) as [r w1| |] eqn:HF; try discriminate.
    destruct r; [discriminate|].
    destruct (filesInsert d file hash w1) as [u w2| |] eqn:HI; try discriminate.
    injection H as <-. apply filesInsert_spec in HI as (e & m & He & Hm & ->).
    eexists. split.
    + eapply Files_loaded; [cbn [entries set_entries]; apply lookup_insert_eq|reflexivity].
    + apply lookup_insert_eq.
  - unfold removeFile, bind. intros H.
    destruct (fillFiles f d w) as [r w1| |] eqn:HF; try discriminate.
    apply fillFiles_spec in HF as (_ & _ & e & He & Hr).
    destruct r; [discriminate|]. destruct Hr as [m Hm].
    unfold filesDelete, bind, deref, store, modify in H. rewrite He, Hm in H.
    injection H as <-. eexists. split.
    + eapply Files_loaded; [cbn [entries set_entries]; apply lookup_insert_eq|reflexivity].
    + apply lookup_delete_eq.
  - intros err [H|H]; [unfold addFile, bind in H|unfold removeFile, bind in H];
      destruct (fillFiles f d w) as [r w1| |] eqn:HF; try discriminate;
      pose proof (fillFiles_spec _ _ _ _ _ HF) as (_ & _ & e & He & Hr);
      (destruct r as [inner|];
       [injection H as <- <-; eauto 6|]).
    + destruct (filesInsert d file hash w1); discriminate.
    + destruct (filesDelete d file w1); discriminate.
Qed.

(** A name added and a name removed in directory "a"; and a load that
    times out. *)
Lemma addFile_removeFile_lookup_witness :
  let w := stateAfter fs0 [OpMkdir "a"; OpPut "hello" "a/x"] in
  let wa := after (addFile fs0 2 "y" "k") w in
  let wr := after (removeFile fs0 2 "x") w in
  let v := stateAfter fs0 [OpMkdir "a"] in
  let vt := after (addFile fsTimeout 2 "y" "k") v in
  addFile fs0 2 "y" "k" w = Ok None wa /\
  (exists m, Files fs0 2 wa = Ok (inr m) wa /\ m !! "y" = Some "k") /\
  removeFile fs0 2 "x" w = Ok None wr /\
  (exists m, Files fs0 2 wr = Ok (inr m) wr /\ m !! "x" = None) /\
  addFile fsTimeout 2 "y" "k" v
    = Ok (Some (ErrorfW "refusing to modify map file in bad state" (ErrNew "timeout"))) vt /\
  exists inner e',
    fillFiles fsTimeout 2 v = Ok (Some inner) vt /\
    ErrorfW "refusing to modify map file in bad state" (ErrNew "timeout")
    = ErrorfW "refusing to modify map file in bad state" inner /\
    entries vt !! 2 = Some e' /\ files e' = None.
Proof.
  intros w wa wr v vt.
  assert (H1 : addFile fs0 2 "y" "k" w = Ok None wa) by (vm_compute; reflexivity).
  assert (H2 : removeFile fs0 2 "x" w = Ok None wr) by (vm_compute; reflexivity).
  assert (H3 : addFile fsTimeout 2 "y" "k" v
               = Ok (Some (ErrorfW "refusing to modify map file in bad state"
                                   (ErrNew "timeout"))) vt)
    by (vm_compute; reflexivity).
  split; [exact H1|]. split.
  { exact (proj1 (addFile_removeFile_lookup fs0 2 "y" "k" w wa) H1). }
  split; [exact H2|]. split.
  { exact (proj1 (proj2 (addFile_removeFile_lookup fs0 2 "x" "" w wr)) H2). }
  split; [exact H3|].
  exact (proj2 (proj2 (addFile_removeFile_lookup fsTimeout 2 "y" "k" v vt)) _
           (or_introl H3)).
Defined.

(** ** A file that was put, looked up; a file that was removed, looked up *)

(** X22.  After a [Put] that returned an object, [NewObject] of the same
    remote finds the name in the file index of its directory, also when
    [Put] returned the object together with an error of the index
    write: it asks the remote for the data file and returns the object
    with the same path, base path and directory, or the error of that
    lookup wrapped; it does not say that the object is not there. *)
Theorem NewObject_after_Put (f : Fs) (data remote : string) (w : World)
    (o : object) (err : option error) (w' : World) :
  Put f data remote w = Ok (Some o, err) w' ->
  dirMap_Path (dmap w) !! remote = None ->
  let ask := CNewObject (path_Join [basePath o; "data"]) in
  let w'' := set_trace w' (trace w' ++ [(ask, reply (base f) (trace w') ask)]) in
  NewObject f remote w' =
    Ok (match reply (base f) (trace w') ask with
        | Some e => inl (ErrorfW msg_base_object e)
        | None => inr {| obj := path_Join [basePath o; "data"]; o_path := o_path o;
                         basePath := basePath o; o_dirEntry := o_dirEntry o |}
        end) w'' /\
  o_path o = remote.
Proof.
  intros H Hr ask w''. unfold Put, put in H.
  destruct (containsChar nl remote); [discriminate|].
  unfold NewObject. unfold toHash in *.
  destruct (path_Split remote) as [par leaf]. cbn [fst snd] in *.
  unfold bind at 1 2 in H. unfold lookupPath at 1 in H. cbn [ret] in H.
  destruct (dirMap_Path (dmap w) !! _) as [entry|] eqn:Hp; [|discriminate].
  unfold bind at 1 in H. unfold deref at 1 in H.
  destruct (entries w !! entry) as [e|] eqn:He; [|discriminate].
  unfold bind at 1 in H.
  destruct (prepareDest f _ _ _ w) as [perr w1| |] eqn:HP; try discriminate.
  apply prepareDest_frame in HP as (HP1 & HP2 & _).
  destruct perr; [discriminate|].
  unfold bind at 1 in H.
  destruct (call f _ w1) as [derr w2| |] eqn:HC; try discriminate.
  apply call_spec in HC as [_ ->]. destruct derr; [discriminate|].
  unfold bind at 1 in H.
  destruct (Files f entry _) as [fl w3| |] eqn:HF; try discriminate.
  apply Files_spec in HF as (Hs3 & _ & e3 & He3 & Hf3).
  destruct fl as [?|fls]; [discriminate|].
  unfold bind at 1 in H.
  destruct (filesInsert entry leaf (hasher f leaf) w3) as [u w4| |] eqn:HI;
    try discriminate.
  apply filesInsert_spec in HI as (e3' & m & He3' & Hm & ->).
  rewrite He3 in He3'. injection He3' as <-.
  unfold bind in H.
  destruct (dirEntry_write f entry _) as [werr w5| |] eqn:HW; try discriminate.
  apply dirEntry_write_frame in HW as (HW1 & HW2 & _).
  injection H as <- <- <-. subst ask w''. cbn [basePath o_path o_dirEntry].
  split; [|reflexivity].
  assert (Hdm : dmap w5 = dmap w).
  { rewrite HW2. cbn [dmap set_entries]. destruct Hs3 as (-> & _).
    cbn [dmap set_trace]. exact HP2. }
  assert (He5 : entries w5 !! entry
                = Some (set_files e3 (Some (<[leaf := hasher f leaf]> m)))).
  { rewrite HW1. cbn [entries set_entries]. apply lookup_insert_eq. }
  assert (Hh : Hash e3 = Hash e).
  { destruct (sameTree_lookup _ _ entry e Hs3) as (e3' & He3' & Hsk).
    { cbn [entries set_trace]. rewrite HP1. exact He. }
    rewrite He3 in He3'. injection He3' as <-.
    unfold skeleton in Hsk. congruence. }
  unfold bind at 1. unfold lookupPath at 1. rewrite Hdm, Hr.
  unfold bind at 1 2. unfold lookupPath at 1. rewrite Hdm, Hp. cbn [ret].
  unfold bind at 1.
  rewrite (Files_loaded f entry w5 _ _ He5 eq_refl).
  rewrite lookup_insert_eq.
  unfold bind at 1. unfold deref. rewrite He5. cbn [Hash set_files]. rewrite Hh.
  unfold bind, call. destruct (reply (base f) (trace w5) _); reflexivity.
Qed.

(** a/x put and looked up. *)
Lemma NewObject_after_Put_witness :
  let w := stateAfter fs0 [OpMkdir "a"] in
  let o := {| obj := "a/x/data"; o_path := "a/x"; basePath := "a/x";
              o_dirEntry := 2 |} in
  let w' := after (Put fs0 "hello" "a/x") w in
  let ask := CNewObject (path_Join [basePath o; "data"]) in
  let w'' := set_trace w' (trace w' ++ [(ask, reply (base fs0) (trace w') ask)]) in
  Put fs0 "hello" "a/x" w = Ok (Some o, None) w' /\
  dirMap_Path (dmap w) !! "a/x" = None /\
  NewObject fs0 "a/x" w' =
    Ok (match reply (base fs0) (trace w') ask with
        | Some e => inl (ErrorfW msg_base_object e)
        | None => inr {| obj := path_Join [basePath o; "data"]; o_path := o_path o;
                         basePath := basePath o; o_dirEntry := o_dirEntry o |}
        end) w'' /\
  o_path o = "a/x".
Proof.
  intros w o w' ask w''.
  assert (H1 : Put fs0 "hello" "a/x" w = Ok (Some o, None) w')
    by (vm_compute; reflexivity).
  assert (H2 : dirMap_Path (dmap w) !! "a/x" = None) by (vm_compute; reflexivity).
  split; [exact H1|]. split; [exact H2|].
  exact (NewObject_after_Put fs0 "hello" "a/x" w o None w' H1 H2).
Defined.

(** X23.  After [Remove] has returned nil for an object whose path has a
    file part, and which is not itself an indexed directory, [NewObject]
    of that path says the object is not there, without asking the
    remote. *)
Theorem NewObject_after_Remove (f : Fs) (o : object) (w w' : World) :
  Remove f o w = Ok None w' ->
  snd (path_Split (o_path o)) <> "" ->
  dirMap_Path (dmap w) !! o_path o = None ->
  dirMap_Path (dmap w) !! path_Join [root f; parentPathOf (o_path o)]
    = Some (o_dirEntry o) ->
  NewObject f (o_path o) w' = Ok (inl ErrorObjectNotFound) w'.
Proof.
  intros H Hleaf Hr Hp. unfold Remove, bind in H.
  destruct (call f _ w) as [perr w1| |] eqn:HC; try discriminate.
  apply call_spec in HC as [_ ->]. destruct perr; [discriminate|].
  destruct (Files f (o_dirEntry o) _) as [fl w2| |] eqn:HF; try discriminate.
  apply Files_spec in HF as (Hs & _ & e & He & Hf).
  destruct fl as [|fls]; [discriminate|].
  unfold filesDelete, bind, deref, store, modify in H. rewrite He, Hf in H.
  destruct (dirEntry_write f _ _) as [werr w3| |] eqn:HW; try discriminate.
  injection H as -> ->.
  apply dirEntry_write_frame in HW as (HW1 & HW2 & _).
  assert (Hdm : dmap w' = dmap w).
  { rewrite HW2. cbn [dmap set_entries]. by destruct Hs as (-> & _). }
  unfold NewObject, bind, lookupPath, toHash. rewrite Hdm, Hr.
  rewrite (path_Base_leaf _ Hleaf) in HW1.
  unfold parentPathOf in Hp. destruct (path_Split (o_path o)) as [par leaf].
  cbn [fst snd] in *. unfold bind, lookupPath. rewrite Hdm, Hp. cbn [ret].
  erewrite Files_loaded;
    [|rewrite HW1; cbn [entries set_entries]; apply lookup_insert_eq|reflexivity].
  rewrite lookup_delete_eq. reflexivity.
Qed.

(** a/x removed and looked up. *)
Lemma NewObject_after_Remove_witness :
  let w := stateAfter fs0 [OpMkdir "a"; OpPut "hello" "a/x"] in
  let o := {| obj := "a/x/data"; o_path := "a/x"; basePath := "a/x";
              o_dirEntry := 2 |} in
  let w' := after (Remove fs0 o) w in
  Remove fs0 o w = Ok None w' /\
  snd (path_Split (o_path o)) <> "" /\
  dirMap_Path (dmap w) !! o_path o = None /\
  dirMap_Path (dmap w) !! path_Join [root fs0; parentPathOf (o_path o)]
    = Some (o_dirEntry o) /\
  NewObject fs0 (o_path o) w' = Ok (inl ErrorObjectNotFound) w'.
Proof.
  intros w o w'.
  assert (H1 : Remove fs0 o w = Ok None w') by (vm_compute; reflexivity).
  assert (H2 : snd (path_Split (o_path o)) <> "") by discriminate.
  assert (H3 : dirMap_Path (dmap w) !! o_path o = None) by (vm_compute; reflexivity).
  assert (H4 : dirMap_Path (dmap w) !! path_Join [root fs0; parentPathOf (o_path o)]
               = Some (o_dirEntry o)) by (vm_compute; reflexivity).
  split; [exact H1|]. split; [exact H2|]. split; [exact H3|]. split; [exact H4|].
  exact (NewObject_after_Remove fs0 o w w' H1 H2 H3 H4).
Defined.

(** ** NewObject: the errors *)

(** X28.  [NewObject] returns ErrorIsDir, asking nothing, when the
    remote as it is given is a key of the path index; otherwise
    ErrorObjectNotFound when the parent path joined with the root is not
    indexed or the file name is not in the parent's file index; and when
    that index cannot be loaded, the error of the load, unchanged. *)
Theorem NewObject_errors (f : Fs) (remote : string) (w : World) :
  (is_Some (dirMap_Path (dmap w) !! remote) ->
     NewObject f remote w = Ok (inl ErrorIsDir) w) /\
  (dirMap_Path (dmap w) !! remote = None ->
     let parent := path_Join [root f; parentPathOf remote] in
     (dirMap_Path (dmap w) !! parent = None ->
        NewObject f remote w = Ok (inl ErrorObjectNotFound) w) /\
     (forall entry, dirMap_Path (dmap w) !! parent = Some entry ->
        (forall err w', Files f entry w = Ok (inl err) w' ->
           NewObject f remote w = Ok (inl err) w') /\
        (forall fls w', Files f entry w = Ok (inr fls) w' ->
           fls !! snd (path_Split remote) = None ->
           NewObject f remote w = Ok (inl ErrorObjectNotFound) w'))).
Proof.
  split.
  - intros [p Hp]. unfold NewObject, bind, lookupPath. rewrite Hp. reflexivity.
  - intros Hnone parent. unfold NewObject, bind, lookupPath, toHash. rewrite Hnone.
    unfold parent, parentPathOf. destruct (path_Split remote) as [par leaf].
    cbn [fst snd]. unfold bind, lookupPath. split.
    + intros ->. reflexivity.
    + intros entry ->. cbn [ret]. split.
      * intros err w' ->. reflexivity.
      * intros fls w' -> Hl. rewrite Hl. reflexivity.
Qed.

(** The four cases on a tree with one directory, under the empty root. *)
Lemma NewObject_errors_witness :
  let w := stateAfter fs0 [OpMkdir "a"] in
  let w1 := after (Files fs0 2) w in
  let w2 := after (Files fsTimeout 2) w in
  is_Some (dirMap_Path (dmap w) !! "a") /\
  NewObject fs0 "a" w = Ok (inl ErrorIsDir) w /\
  dirMap_Path (dmap w) !! "q/x" = None /\
  dirMap_Path (dmap w) !! path_Join [root fs0; parentPathOf "q/x"] = None /\
  NewObject fs0 "q/x" w = Ok (inl ErrorObjectNotFound) w /\
  dirMap_Path (dmap w) !! "a/x" = None /\
  dirMap_Path (dmap w) !! path_Join [root fs0; parentPathOf "a/x"] = Some 2 /\
  Files fsTimeout 2 w = Ok (inl (ErrNew "timeout")) w2 /\
  NewObject fsTimeout "a/x" w = Ok (inl (ErrNew "timeout")) w2 /\
  Files fs0 2 w = Ok (inr ∅) w1 /\
  (∅ : gmap string string) !! snd (path_Split "a/x") = None /\
  NewObject fs0 "a/x" w = Ok (inl ErrorObjectNotFound) w1.
Proof.
  intros w w1 w2.
  assert (H1 : is_Some (dirMap_Path (dmap w) !! "a"))
    by (exists 2; vm_compute; reflexivity).
  assert (H2 : dirMap_Path (dmap w) !! "q/x" = None) by (vm_compute; reflexivity).
  assert (H3 : dirMap_Path (dmap w) !! path_Join [root fs0; parentPathOf "q/x"] = None)
    by (vm_compute; reflexivity).
  assert (H4 : dirMap_Path (dmap w) !! "a/x" = None) by (vm_compute; reflexivity).
  assert (H5 : dirMap_Path (dmap w) !! path_Join [root fs0; parentPathOf "a/x"] = Some 2)
    by (vm_compute; reflexivity).
  assert (H6 : Files fsTimeout 2 w = Ok (inl (ErrNew "timeout")) w2)
    by (vm_compute; reflexivity).
  assert (H7 : Files fs0 2 w = Ok (inr ∅) w1) by (vm_compute; reflexivity).
  assert (H8 : (∅ : gmap string string) !! snd (path_Split "a/x") = None)
    by apply lookup_empty.
  split; [exact H1|]. split.
  { exact (proj1 (NewObject_errors fs0 "a" w) H1). }
  split; [exact H2|]. split; [exact H3|]. split.
  { exact (proj1 (proj2 (NewObject_errors fs0 "q/x" w) H2) H3). }
  split; [exact H4|]. split; [exact H5|]. split; [exact H6|]. split.
  { exact (proj1 (proj2 (proj2 (NewObject_errors fsTimeout "a/x" w) H4) 2 H5) _ _ H6). }
  split; [exact H7|]. split; [exact H8|].
  exact (proj2 (proj2 (proj2 (NewObject_errors fs0 "a/x" w) H4) 2 H5) _ _ H7 H8).
Defined.

(** ** What DirMove refuses *)

(** X14.  [DirMove] inside one [Fs] refuses, in this order, whatever
    the depth allowed to [recurse], and without touching memory or the
    remote: with ErrorCantDirMove when the remote cannot move
    directories, with ErrorDirNotFound when the source is not indexed,
    with ErrorDirExists when the destination is indexed; so a directory
    cannot be moved onto itself. *)
Theorem DirMove_refusals (fuel : nat) (f : Fs) (srcRemote dstRemote : string)
    (w : World) :
  (feat_DirMove (base f) = false ->
     DirMove fuel f srcRemote dstRemote w = Ok (Some ErrorCantDirMove) w) /\
  (feat_DirMove (base f) = true ->
   dirMap_Path (dmap w) !! path_Join [root f; srcRemote] = None ->
     DirMove fuel f srcRemote dstRemote w = Ok (Some ErrorDirNotFound) w) /\
  (feat_DirMove (base f) = true ->
   is_Some (dirMap_Path (dmap w) !! path_Join [root f; srcRemote]) ->
   is_Some (dirMap_Path (dmap w) !! path_Join [root f; dstRemote]) ->
     DirMove fuel f srcRemote dstRemote w = Ok (Some ErrorDirExists) w) /\
  (feat_DirMove (base f) = true ->
   is_Some (dirMap_Path (dmap w) !! path_Join [root f; srcRemote]) ->
     DirMove fuel f srcRemote srcRemote w = Ok (Some ErrorDirExists) w).
Proof.
  assert (H3 : forall d, feat_DirMove (base f) = true ->
            is_Some (dirMap_Path (dmap w) !! path_Join [root f; srcRemote]) ->
            is_Some (dirMap_Path (dmap w) !! path_Join [root f; d]) ->
            DirMove fuel f srcRemote d w = Ok (Some ErrorDirExists) w).
  { intros d Hf [p Hp] [q Hq]. unfold DirMove. rewrite Hf. cbn [negb].
    unfold bind, lookupPath. rewrite Hp, Hq. reflexivity. }
  split; [|split; [|split]].
  - intros Hf. unfold DirMove. rewrite Hf. reflexivity.
  - intros Hf Hs. unfold DirMove. rewrite Hf. cbn [negb].
    unfold bind, lookupPath. rewrite Hs. reflexivity.
  - apply H3.
  - intros Hf Hs. by apply H3.
Qed.

(** The four refusals on a tree with the directories a and b. *)
Lemma DirMove_refusals_witness :
  let w := stateAfter fs0 [OpMkdir "a"; OpMkdir "b"] in
  feat_DirMove (base fsNoMove) = false /\
  DirMove 3 fsNoMove "a" "c" w = Ok (Some ErrorCantDirMove) w /\
  feat_DirMove (base fs0) = true /\
  dirMap_Path (dmap w) !! path_Join [root fs0; "q"] = None /\
  DirMove 3 fs0 "q" "c" w = Ok (Some ErrorDirNotFound) w /\
  is_Some (dirMap_Path (dmap w) !! path_Join [root fs0; "a"]) /\
  is_Some (dirMap_Path (dmap w) !! path_Join [root fs0; "b"]) /\
  DirMove 3 fs0 "a" "b" w = Ok (Some ErrorDirExists) w /\
  DirMove 3 fs0 "a" "a" w = Ok (Some ErrorDirExists) w.
Proof.
  intros w.
  assert (H1 : feat_DirMove (base fsNoMove) = false) by reflexivity.
  assert (H2 : feat_DirMove (base fs0) = true) by reflexivity.
  assert (H3 : dirMap_Path (dmap w) !! path_Join [root fs0; "q"] = None)
    by (vm_compute; reflexivity).
  assert (H4 : is_Some (dirMap_Path (dmap w) !! path_Join [root fs0; "a"]))
    by (exists 2; vm_compute; reflexivity).
  assert (H5 : is_Some (dirMap_Path (dmap w) !! path_Join [root fs0; "b"]))
    by (exists 3; vm_compute; reflexivity).
  split; [exact H1|]. split.
  { exact (proj1 (DirMove_refusals 3 fsNoMove "a" "c" w) H1). }
  split; [exact H2|]. split; [exact H3|]. split.
  { exact (proj1 (proj2 (DirMove_refusals 3 fs0 "q" "c" w)) H2 H3). }
  split; [exact H4|]. split; [exact H5|]. split.
  { exact (proj1 (proj2 (proj2 (DirMove_refusals 3 fs0 "a" "b" w))) H2 H4 H5). }
  exact (proj2 (proj2 (proj2 (DirMove_refusals 3 fs0 "a" "b" w))) H2 H4).
Defined.

(** ** The file index written and read back *)

(** The keys of a map, ascending. *)
Lemma sorted_keys {V} (m : gmap string V) n :
  n ∈ sortStrings (map fst (map_to_list m)) <-> is_Some (m !! n).
Proof.
  unfold sortStrings. rewrite merge_sort_Permutation. split.
  - intros H. apply list_elem_of_fmap in H as ([k v] & -> & H).
    apply elem_of_map_to_list in H. eauto.
  - intros [v Hv]. apply list_elem_of_fmap. exists (n, v). split; [reflexivity|].
    by apply elem_of_map_to_list.
Qed.

Lemma fileIndexBytes_lines (m : gmap string string) :
  fileIndexBytes m =
  String.concat ""
    (map (fun l => l +:+ NL)
         (map (fun name => default "" (m !! name) +:+ " " +:+ name)
              (sortStrings (map fst (map_to_list m))))).
Proof.
  unfold fileIndexBytes. rewrite map_map. f_equal. apply map_ext. intros name.
  by rewrite !string_app_assoc.
Qed.

(** Reading the lines of an index into a loaded file index. *)
Lemma fillLines_names d (m : gmap string string) : forall names w e m0,
  entries w !! d = Some e -> files e = Some m0 ->
  (forall n, n ∈ names -> exists k, m !! n = Some k /\ plainLine k n = true) ->
  exists w',
    fillLines d (map (fun name => default "" (m !! name) +:+ " " +:+ name) names) w
      = Ok None w' /\
    trace w' = trace w /\ sameTree w w' /\
    entries w' = <[d := set_files e
                     (Some (foldl (fun acc n => <[n := default "" (m !! n)]> acc)
                                  m0 names))]> (entries w).
Proof.
  induction names as [|n names IH]; intros w e m0 He Hf Hplain.
  - exists w. cbn [map fillLines foldl]. split; [reflexivity|].
    split; [reflexivity|]. split; [apply sameTree_refl|].
    rewrite insert_id; [reflexivity|]. rewrite He. f_equal.
    destruct e; cbn in *. by subst.
  - destruct (Hplain n) as (k & Hk & Hpl); [left|].
    apply plainLine_spec in Hpl as (_ & _ & Hsp).
    cbn [map fillLines]. rewrite line_not_empty. rewrite Hk. cbn [default].
    rewrite (SplitN2_key _ _ Hsp).
    unfold bind at 1. unfold filesInsert, bind, deref, store, modify. rewrite He, Hf.
    set (e1 := set_files e (Some (<[n := k]> m0))).
    set (w1 := set_entries w (<[d := e1]> (entries w))).
    destruct (IH w1 e1 (<[n := k]> m0)) as (w' & HL & Ht & Hs & Hent).
    { apply lookup_insert_eq. }
    { reflexivity. }
    { intros n' Hn'. apply Hplain. by right. }
    exists w'. split; [exact HL|]. split; [exact Ht|]. split.
    { eapply sameTree_trans; [|exact Hs]. by apply sameTree_set_files. }
    rewrite Hent. cbn [entries set_entries w1]. rewrite insert_insert_eq.
    cbn [foldl]. rewrite Hk. reflexivity.
Qed.

Lemma foldl_insert_lookup (m : gmap string string) names :
  forall (acc : gmap string string) k,
  foldl (fun acc n => <[n := default "" (m !! n)]> acc) acc names !! k
  = if bool_decide (k ∈ names) then Some (default "" (m !! k)) else acc !! k.
Proof.
  induction names as [|n names IH]; intros acc k; cbn [foldl].
  - rewrite bool_decide_eq_false_2; [reflexivity|]. apply not_elem_of_nil.
  - rewrite IH. destruct (decide (k ∈ names)) as [Hin|Hnin].
    + rewrite !bool_decide_eq_true_2; [reflexivity|by right|exact Hin].
    + rewrite (bool_decide_eq_false_2 _ Hnin).
      destruct (decide (k = n)) as [->|Hne].
      * rewrite lookup_insert_eq. rewrite bool_decide_eq_true_2; [reflexivity|left].
      * rewrite lookup_insert_ne by done.
        rewrite bool_decide_eq_false_2; [reflexivity|].
        intros Hc. apply elem_of_cons in Hc as [?|?]; done.
Qed.

Lemma foldl_insert_all (m : gmap string string) :
  foldl (fun acc n => <[n := default "" (m !! n)]> acc) ∅
        (sortStrings (map fst (map_to_list m))) = m.
Proof.
  apply map_eq. intros k. rewrite foldl_insert_lookup.
  destruct (m !! k) as [v|] eqn:Hk.
  - rewrite bool_decide_eq_true_2; [reflexivity|]. apply sorted_keys. eauto.
  - rewrite bool_decide_eq_false_2; [apply lookup_empty|].
    intros H. apply sorted_keys in H as [v Hv]. congruence.
Qed.

(** X1.  The file index round trip.  [dirEntry.write] puts, under the
    key of the directory joined with "map", one line per file name in
    ascending order; when no name holds a newline and no key holds a
    newline or a space, the first access to the file index of a
    directory with that key over a remote that hands these bytes out
    loads exactly the mapping that was written. *)
Theorem file_index_round_trip (f : Fs) (m : gmap string string) :
  (forall d w e, entries w !! d = Some e -> files e = Some m ->
     dirEntry_write f d w
     = call f (CPut (path_Join [Hash e; "map"]) (fileIndexBytes m)) w) /\
  (forall d w e, entries w !! d = Some e -> files e = None ->
     plainFiles m = true ->
     let k := path_Join [Hash e; "map"] in
     let w1 := set_trace w (trace w ++ [(CNewObject k, None)]) in
     reply (base f) (trace w) (CNewObject k) = None ->
     reply (base f) (trace w1) (COpen k) = None ->
     content (base f) (trace w1) k = (fileIndexBytes m, None) ->
     exists w', Files f d w = Ok (inr m) w' /\
       entries w' = <[d := set_files e (Some m)]> (entries w) /\
       trace w' = trace w ++ [(CNewObject k, None); (COpen k, None)]).
Proof.
  split.
  - intros d w e He Hf. unfold dirEntry_write, bind, deref. rewrite He, Hf. reflexivity.
  - intros d w e He Hf Hplain k w1 Hnew Hopen Hcontent.
    set (e0 := set_files e (Some ∅)).
    set (w0 := set_entries w (<[d := e0]> (entries w))).
    set (w2 := set_trace w0 (trace w ++ [(CNewObject k, None); (COpen k, None)])).
    destruct (fillLines_names d m (sortStrings (map fst (map_to_list m))) w2 e0 ∅)
      as (w' & HL & Ht & Hs & Hent).
    { apply lookup_insert_eq. }
    { reflexivity. }
    { intros n Hn. apply sorted_keys in Hn as [key Hkey]. exists key.
      split; [exact Hkey|]. eapply plainFiles_spec; eauto. }
    rewrite foldl_insert_all in Hent.
    assert (Hlines : fst (readLines (fileIndexBytes m))
              = map (fun name => default "" (m !! name) +:+ " " +:+ name)
                    (sortStrings (map fst (map_to_list m)))).
    { rewrite fileIndexBytes_lines, readLines_concat; [reflexivity|].
      apply Forall_forall. intros l Hl.
      apply list_elem_of_fmap in Hl as (n & -> & Hn).
      apply sorted_keys in Hn as [key Hkey]. rewrite Hkey. cbn [default].
      apply plainLine_no_newline. eapply plainFiles_spec; eauto. }
    assert (HR : readMapFile f d k w0 = Ok None w').
    { unfold readMapFile, bind, call, openObj, call. cbn [trace w0 set_entries set_trace].
      subst w1. cbn [trace set_trace] in Hopen, Hcontent.
      rewrite Hnew. cbn [trace set_trace]. rewrite Hopen, Hcontent, Hlines.
      rewrite <- app_assoc. cbn [app]. fold w0.
      change (set_trace (set_trace w0 _) _) with w2. rewrite HL. reflexivity. }
    assert (HF : fillFiles f d w = Ok None w').
    { unfold fillFiles, bind, deref. rewrite He, Hf.
      unfold setFiles, bind, deref, store, modify. rewrite He.
      fold e0. fold w0. fold k. rewrite HR. reflexivity. }
    exists w'. unfold Files, bind. rewrite HF. unfold deref.
    rewrite Hent. cbn [entries set_trace set_entries w2 w0].
    rewrite insert_insert_eq, lookup_insert_eq. cbn [files set_files default].
    split; [reflexivity|]. split; [reflexivity|]. rewrite Ht. reflexivity.
Qed.

(** Directory "a" with the file x, written and loaded again. *)
Lemma file_index_round_trip_witness :
  let f := fs0 in
  let m : gmap string string := <["x" := "x"]> ∅ in
  let w := stateAfter fs0 [OpMkdir "a"; OpPut "hello" "a/x"] in
  let e := entryOf "a" 1 1 0 (Some m) in
  let wr := stateAfter fs0 [OpMkdir "a"; OpPut "hello" "a/x"; OpReload] in
  let er := entryOf "a" 3 4 0 None in
  let k := path_Join [Hash er; "map"] in
  let w1 := set_trace wr (trace wr ++ [(CNewObject k, None)]) in
  entries w !! 2 = Some e /\ files e = Some m /\
  dirEntry_write f 2 w = call f (CPut (path_Join [Hash e; "map"]) (fileIndexBytes m)) w /\
  entries wr !! 4 = Some er /\ files er = None /\ plainFiles m = true /\
  reply (base f) (trace wr) (CNewObject k) = None /\
  reply (base f) (trace w1) (COpen k) = None /\
  content (base f) (trace w1) k = (fileIndexBytes m, None) /\
  exists w', Files f 4 wr = Ok (inr m) w' /\
    entries w' = <[4 := set_files er (Some m)]> (entries wr) /\
    trace w' = trace wr ++ [(CNewObject k, None); (COpen k, None)].
Proof.
  intros f m w e wr er k w1.
  assert (H1 : entries w !! 2 = Some e) by (vm_compute; reflexivity).
  assert (H2 : files e = Some m) by reflexivity.
  assert (H3 : entries wr !! 4 = Some er) by (vm_compute; reflexivity).
  assert (H4 : files er = None) by reflexivity.
  assert (H5 : plainFiles m = true) by (vm_compute; reflexivity).
  assert (H6 : reply (base f) (trace wr) (CNewObject k) = None)
    by (vm_compute; reflexivity).
  assert (H7 : reply (base f) (trace w1) (COpen k) = None) by (vm_compute; reflexivity).
  assert (H8 : content (base f) (trace w1) k = (fileIndexBytes m, None))
    by (vm_compute; reflexivity).
  split; [exact H1|]. split; [exact H2|].
  split; [exact (proj1 (file_index_round_trip f m) 2 w e H1 H2)|].
  split; [exact H3|]. split; [exact H4|]. split; [exact H5|].
  split; [exact H6|]. split; [exact H7|]. split; [exact H8|].
  exact (proj2 (file_index_round_trip f m) 4 wr er H3 H4 H5 H6 H7 H8).
Defined.

(** ** Loading the root index *)


Lemma wf_freshTree f w : wf w -> wf (freshTree f w).
Proof. intros Hwf. eapply preserves_newDirMap; [exact Hwf|apply newDirMap_fresh]. Qed.

Lemma SplitN2_None c (l : string) : SplitN2 c l = None <-> containsChar c l = false.
Proof.
  induction l as [|a l IH]; [split; reflexivity|].
  cbn [SplitN2 containsChar]. destruct (eqb_ascii a c); cbn [orb].
  - split; discriminate.
  - rewrite <- IH. destruct (SplitN2 c l) as [[x y]|]; split; (reflexivity || discriminate).
Qed.

Lemma SplitN2_Some c (l : string) :
  containsChar c l = true -> exists x y, SplitN2 c l = Some (x, y).
Proof.
  intros H. destruct (SplitN2 c l) as [[x y]|] eqn:E; [eauto|].
  apply SplitN2_None in E. congruence.
Qed.

(** The lines before the first one that is not empty and has no space
    are taken, each making the directories it names; that line stops
    the load. *)
Lemma loadLines_stops f good bad rest : forall w,
  wf w -> Forall (fun l => lineOk l = true) good -> lineOk bad = false ->
  exists w', loadLines f (good ++ bad :: rest) w
             = Ok (Some (ErrorfQ msg_malformed bad)) w' /\ wf w' /\ grows f w w'.
Proof.
  induction good as [|l good IH]; intros w Hwf Hgood Hbad.
  - unfold lineOk in Hbad. apply orb_false_iff in Hbad as [Hne Hsp].
    apply SplitN2_None in Hsp. exists w. cbn [app loadLines]. rewrite Hne, Hsp.
    split; [reflexivity|]. split; [exact Hwf|apply grows_refl].
  - inversion Hgood as [|? ? Hl Hgood']. subst. cbn [app loadLines].
    destruct (String.eqb l "") eqn:Hempty; [by apply IH|].
    unfold lineOk in Hl. rewrite Hempty in Hl. cbn [orb] in Hl.
    destruct (SplitN2_Some _ _ Hl) as (x & y & ->).
    destruct (newDirEntry_grows f y w Hwf) as (w1 & HE & Hwf1 & Hg1 & _).
    unfold bind. rewrite HE.
    destruct (IH w1 Hwf1 Hgood' Hbad) as (w' & HL & Hwf' & Hg').
    exists w'. split; [exact HL|]. split; [exact Hwf'|]. eapply grows_trans; eauto.
Qed.

(** X3.  [loadDirectoryMap] refuses the index at the first line that is
    not empty and holds no space, with "malformed map file, refusing to
    load: invalid entry" and the line quoted, whatever follows that line
    and however the input ends. *)
Theorem loadDirectoryMap_malformed (f : Fs) (data : string) (tail : option error)
    (good : list string) (bad : string) (rest : list string) (w : World) :
  wf w ->
  fst (readLines data) = good ++ bad :: rest ->
  forallb lineOk good = true -> lineOk bad = false ->
  exists w', loadDirectoryMap f (Some (data, tail)) w
             = Ok (Some (ErrorfQ msg_malformed bad)) w'.
Proof.
  intros Hwf Hlines Hgood Hbad. unfold loadDirectoryMap, bind.
  rewrite newDirMap_fresh, Hlines.
  destruct (loadLines_stops f good bad rest (freshTree f w)) as (w' & HL & _).
  - by apply wf_freshTree.
  - apply Forall_forall. intros l Hl. rewrite forallb_forall in Hgood.
    apply Hgood. by apply list_elem_of_In.
  - exact Hbad.
  - exists w'. rewrite HL. reflexivity.
Qed.

(** An index whose second line has no space. *)
Lemma loadDirectoryMap_malformed_witness :
  let data := " " +:+ NL +:+ "x" +:+ NL +:+ "y x" +:+ NL in
  wf emptyWorld /\
  fst (readLines data) = [" "] ++ "x" :: ["y x"] /\
  forallb lineOk [" "] = true /\ lineOk "x" = false /\
  exists w', loadDirectoryMap fs0 (Some (data, None)) emptyWorld
             = Ok (Some (ErrorfQ msg_malformed "x")) w'.
Proof.
  intros data.
  assert (H1 : fst (readLines data) = [" "] ++ "x" :: ["y x"]) by reflexivity.
  assert (H2 : forallb lineOk [" "] = true) by reflexivity.
  assert (H3 : lineOk "x" = false) by reflexivity.
  split; [exact wf_emptyWorld|]. split; [exact H1|]. split; [exact H2|].
  split; [exact H3|].
  exact (loadDirectoryMap_malformed fs0 data None [" "] "x" ["y x"] emptyWorld
           wf_emptyWorld H1 H2 H3).
Defined.

(** X4.  What follows the last newline of an index is not read: a last
    line that is not terminated is dropped without an error, by the
    reader of the root index and by the reader of a file index. *)
Theorem unterminated_last_line_is_dropped (f : Fs) (ls : list string) (g : string) :
  forallb (fun l => negb (containsChar nl l)) ls = true ->
  containsChar nl g = false ->
  let whole := String.concat "" (map (fun l => l +:+ NL) ls) in
  (forall tail w,
     loadDirectoryMap f (Some (whole +:+ g, tail)) w
     = loadDirectoryMap f (Some (whole, tail)) w) /\
  (forall d w, fillLines d (fst (readLines (whole +:+ g))) w = fillLines d ls w).
Proof.
  intros Hls Hg whole.
  assert (HF : Forall (fun l => containsChar nl l = false) ls).
  { apply Forall_forall. intros l Hl. rewrite forallb_forall in Hls.
    apply negb_true_iff, Hls. by apply list_elem_of_In. }
  assert (H1 : fst (readLines (whole +:+ g)) = ls)
    by (unfold whole; by rewrite readLines_lines).
  assert (H2 : fst (readLines whole) = ls)
    by (unfold whole; by rewrite readLines_concat).
  split.
  - intros tail w. unfold loadDirectoryMap. by rewrite H1, H2.
  - intros d w. by rewrite H1.
Qed.

(** Two lines and the start of a third. *)
Lemma unterminated_last_line_is_dropped_witness :
  let ls := [" "; "a a"] in
  let g := "b b" in
  let whole := String.concat "" (map (fun l => l +:+ NL) ls) in
  forallb (fun l => negb (containsChar nl l)) ls = true /\
  containsChar nl g = false /\
  loadDirectoryMap fs0 (Some (whole +:+ g, None)) emptyWorld
  = loadDirectoryMap fs0 (Some (whole, None)) emptyWorld /\
  fillLines 1 (fst (readLines (whole +:+ g))) emptyWorld = fillLines 1 ls emptyWorld.
Proof.
  intros ls g whole.
  assert (H1 : forallb (fun l => negb (containsChar nl l)) ls = true) by reflexivity.
  assert (H2 : containsChar nl g = false) by reflexivity.
  split; [exact H1|]. split; [exact H2|]. split.
  - exact (proj1 (unterminated_last_line_is_dropped fs0 ls g H1 H2) None emptyWorld).
  - exact (proj2 (unterminated_last_line_is_dropped fs0 ls g H1 H2) 1 emptyWorld).
Defined.

(** ** The root index written and read back, when its lines can hold it *)

Lemma reloadable_spec f w :
  reloadable f w = true ->
  is_Some (dirMap_Path (dmap w) !! "") /\
  forall k q, dirMap_Path (dmap w) !! k = Some q ->
    plainLine (hasher f k) k = true /\
    (exists e, entries w !! q = Some e /\ Path e = k /\ Hash e = hasher f k) /\
    is_Some (dirMap_Path (dmap w) !! parentPathOf k).
Proof.
  unfold reloadable. intros H. apply andb_true_iff in H as [Hroot Hall].
  apply bool_decide_eq_true in Hroot. split; [exact Hroot|].
  intros k q Hk. rewrite forallb_forall in Hall.
  specialize (Hall (k, q)). cbn [fst snd] in Hall.
  assert (Hin : In (k, q) (map_to_list (dirMap_Path (dmap w))))
    by (by apply list_elem_of_In, elem_of_map_to_list).
  apply Hall in Hin. apply andb_true_iff in Hin as [Hin H3].
  apply andb_true_iff in Hin as [H1 H2]. apply bool_decide_eq_true in H3.
  split; [exact H1|]. split; [|exact H3].
  unfold indexedAt in H2. destruct (entries w !! q) as [e|]; [|discriminate].
  apply andb_true_iff in H2 as [HP HH].
  apply String.eqb_eq in HP, HH. eauto.
Qed.

Lemma elem_of_keys (m : gmap string nat) k :
  k ∈ map fst (map_to_list m) <-> is_Some (m !! k).
Proof.
  split.
  - intros H. apply list_elem_of_fmap in H as ([k' v] & -> & H).
    apply elem_of_map_to_list in H. eauto.
  - intros [v Hv]. apply list_elem_of_fmap. exists (k, v). split; [reflexivity|].
    by apply elem_of_map_to_list.
Qed.


Lemma rootIndexLines_exact paths : forall w,
  (forall p, p ∈ paths -> exists entry,
     dirMap_Path (dmap w) !! p = Some entry /\ is_Some (entries w !! entry)) ->
  rootIndexLines paths w
  = Ok (map (fun p => default "" (hashAt w <$> dirMap_Path (dmap w) !! p)
                      +:+ " " +:+ p +:+ NL) paths) w.
Proof.
  induction paths as [|p ps IH]; intros w H; [reflexivity|].
  destruct (H p) as (entry & Hp & e & He); [left|].
  cbn [rootIndexLines map]. unfold bind, lookupPath, deref.
  rewrite Hp, He, IH by (intros q Hq; apply H; by right).
  cbn [fmap option_fmap option_map default]. unfold hashAt. rewrite He. reflexivity.
Qed.

(** [dirMap.write] on an index that points at entries: one put, of the
    bytes of the root index. *)
Lemma dirMap_write_exact f w :
  (forall k p, dirMap_Path (dmap w) !! k = Some p -> is_Some (entries w !! p)) ->
  dirMap_write f w = call f (CPut "map" (rootIndexBytes w)) w.
Proof.
  intros H. unfold dirMap_write, bind, get.
  rewrite rootIndexLines_exact; [reflexivity|].
  intros p Hp. unfold sortStrings in Hp. rewrite merge_sort_Permutation in Hp.
  apply list_elem_of_fmap in Hp as ([k q] & -> & Hkq).
  apply elem_of_map_to_list in Hkq. exists q. split; [exact Hkq|]. eapply H; eauto.
Qed.


(** The lines of an index whose keys are the hashes of its paths make
    the directories they name. *)
Lemma loadLines_paths f (inS : string -> Prop) :
  (forall p, inS p -> p <> "" -> inS (parentPathOf p)) ->
  forall paths w,
    wf w ->
    (forall p, p ∈ paths -> inS p /\ containsChar space (hasher f p) = false) ->
    (forall k, is_Some (dirMap_Path (dmap w) !! k) -> inS k) ->
    exists w', loadLines f (map (fun p => hasher f p +:+ " " +:+ p) paths) w
               = Ok None w' /\ wf w' /\ grows f w w' /\
      (forall p, p ∈ paths -> is_Some (dirMap_Path (dmap w') !! p)) /\
      (forall k, is_Some (dirMap_Path (dmap w') !! k) -> inS k).
Proof.
  intros Hclosed.
  assert (Habove : forall k p, pathAbove k p -> inS p -> inS k).
  { induction 1 as [|k p Hp _ IH]; [auto|]. intros HS. apply IH. by apply Hclosed. }
  induction paths as [|p ps IH]; intros w Hwf Hps Hdom.
  - exists w. split; [reflexivity|]. split; [exact Hwf|]. split; [apply grows_refl|].
    split; [|exact Hdom]. intros p Hp. by apply elem_of_nil in Hp.
  - destruct (Hps p) as [HpS Hsp]; [left|].
    cbn [map loadLines]. rewrite line_not_empty, (SplitN2_key _ _ Hsp).
    destruct (newDirEntry_grows f p w Hwf) as (w1 & HE & Hwf1 & Hg1 & Hp1 & Hnew1).
    unfold bind. rewrite HE.
    destruct (IH w1 Hwf1) as (w' & HL & Hwf' & Hg' & Hall & Hdom').
    { intros q Hq. apply Hps. by right. }
    { intros k Hk. destruct (dirMap_Path (dmap w) !! k) as [q|] eqn:Hold.
      - apply Hdom. eauto.
      - destruct (Hnew1 k Hk Hold) as [Hab _]. by apply (Habove k p). }
    exists w'. split; [exact HL|]. split; [exact Hwf'|].
    split; [eapply grows_trans; eauto|]. split; [|exact Hdom'].
    intros q Hq. apply elem_of_cons in Hq as [->|Hq]; [|by apply Hall].
    destruct Hp1 as [x Hx]. exists x. by apply (grows_index _ _ _ Hg').
Qed.

#[local] Instance str_le_trans : Transitive str_le.
Proof.
  intros a b c Hab Hbc. unfold str_le in *.
  apply Is_true_true. apply Is_true_true in Hab, Hbc.
  exact (transitivity (R := String.le) Hab Hbc).
Qed.

#[local] Instance str_le_antisym : AntiSymm (=) str_le.
Proof.
  intros a b Hab Hba. unfold str_le in *. apply Is_true_true in Hab, Hba.
  exact (anti_symm String.le a b Hab Hba).
Qed.

(** Path indices with the same paths and the same keys have the same
    pairs. *)
Lemma indexPairs_ext w w' :
  (forall k, hashAt w' <$> dirMap_Path (dmap w') !! k
             = hashAt w <$> dirMap_Path (dmap w) !! k) ->
  indexPairs w' = indexPairs w.
Proof.
  intros H. unfold indexPairs.
  assert (Hdom : forall k, is_Some (dirMap_Path (dmap w') !! k)
                           <-> is_Some (dirMap_Path (dmap w) !! k)).
  { intros k. specialize (H k).
    destruct (dirMap_Path (dmap w') !! k), (dirMap_Path (dmap w) !! k);
      cbn in H; try discriminate; split; intros [? ?]; eauto; discriminate. }
  assert (Hsorted : sortStrings (map fst (map_to_list (dirMap_Path (dmap w'))))
                    = sortStrings (map fst (map_to_list (dirMap_Path (dmap w))))).
  { apply (Sorted_unique str_le).
    - apply (Sorted_merge_sort str_le (Total0 := str_le_total)).
    - apply (Sorted_merge_sort str_le (Total0 := str_le_total)).
    - unfold sortStrings. rewrite !merge_sort_Permutation.
      apply NoDup_Permutation; [apply NoDup_fst_map_to_list..|].
      intros k. rewrite !elem_of_keys. apply Hdom. }
  rewrite Hsorted. apply map_ext. intros p. by rewrite H.
Qed.

(** X2.  The root index round trip.  [dirMap.write] puts one line per
    indexed path.  When the root is indexed, every indexed path has its
    parent path indexed and an entry keyed by the hash of the path, no
    path holds a newline and no key a newline or a space, then loading
    these bytes, from any state, indexes exactly the same paths under
    the same keys, without an error. *)
Theorem root_index_round_trip (f : Fs) (w : World) :
  reloadable f w = true ->
  dirMap_write f w = call f (CPut "map" (rootIndexBytes w)) w /\
  forall w2, wf w2 ->
    exists w3,
      loadDirectoryMap f (Some (rootIndexBytes w, None)) w2 = Ok None w3 /\
      wf w3 /\ trace w3 = trace w2 /\
      (forall k, hashAt w3 <$> dirMap_Path (dmap w3) !! k
                 = hashAt w <$> dirMap_Path (dmap w) !! k) /\
      indexPairs w3 = indexPairs w.
Proof.
  intros Hre. destruct (reloadable_spec f w Hre) as [Hroot Hall].
  set (paths := sortStrings (map fst (map_to_list (dirMap_Path (dmap w))))).
  assert (Hkey : forall p, p ∈ paths ->
            default "" (hashAt w <$> dirMap_Path (dmap w) !! p) = hasher f p).
  { intros p Hp. apply sorted_keys in Hp as [q Hq]. rewrite Hq.
    destruct (Hall p q Hq) as (_ & (e & He & _ & HH) & _).
    cbn. unfold hashAt. rewrite He. exact HH. }
  split.
  - unfold dirMap_write, bind, get. cbv zeta. fold paths.
    rewrite rootIndexLines_exact; [reflexivity|].
    intros p Hp. apply sorted_keys in Hp as [q Hq]. exists q. split; [exact Hq|].
    destruct (Hall p q Hq) as (_ & (e & He & _) & _). eauto.
  - intros w2 Hwf2.
    assert (Hbytes : fst (readLines (rootIndexBytes w))
                     = map (fun p => hasher f p +:+ " " +:+ p) paths).
    { unfold rootIndexBytes. fold paths.
      rewrite (map_ext_in _ (fun p => (hasher f p +:+ " " +:+ p) +:+ NL)).
      2:{ intros p Hp. apply list_elem_of_In in Hp. rewrite (Hkey p Hp).
          by rewrite !string_app_assoc. }
      rewrite <- (map_map (fun p => hasher f p +:+ " " +:+ p) (fun l => l +:+ NL)).
      rewrite readLines_concat; [reflexivity|].
      apply Forall_forall. intros l Hl. apply list_elem_of_fmap in Hl as (p & -> & Hp).
      apply sorted_keys in Hp as [q Hq]. destruct (Hall p q Hq) as (Hpl & _).
      by apply plainLine_no_newline. }
    set (inS := fun k => is_Some (dirMap_Path (dmap w) !! k)).
    destruct (loadLines_paths f inS) with (paths := paths) (w := freshTree f w2)
      as (w3 & HL & Hwf3 & Hg & Hin & Hdom).
    { intros p [q Hq] _. by destruct (Hall p q Hq) as (_ & _ & ?). }
    { by apply wf_freshTree. }
    { intros p Hp. apply sorted_keys in Hp as [q Hq]. split; [by exists q|].
      destruct (Hall p q Hq) as (Hpl & _).
      by apply plainLine_spec in Hpl as (_ & _ & ?). }
    { intros k [q Hk]. cbn [freshTree dmap dirMap_Path] in Hk.
      destruct (decide ("" = k)) as [<-|Hne]; [exact Hroot|].
      rewrite lookup_insert_ne, lookup_empty in Hk by exact Hne. discriminate. }
    exists w3. split.
    { unfold loadDirectoryMap, bind. rewrite newDirMap_fresh, Hbytes, HL. reflexivity. }
    split; [exact Hwf3|]. split; [apply (grows_trace _ _ _ Hg)|].
    assert (Hsame : forall k, hashAt w3 <$> dirMap_Path (dmap w3) !! k
                              = hashAt w <$> dirMap_Path (dmap w) !! k);
      [|split; [exact Hsame|by apply indexPairs_ext]].
    intros k. destruct (dirMap_Path (dmap w) !! k) as [q|] eqn:Hk.
    + destruct (Hin k) as [q3 Hq3]; [apply sorted_keys; eauto|].
      rewrite Hq3. cbn. f_equal.
      destruct (Hall k q Hk) as (_ & (e & He & _ & HH) & _).
      unfold hashAt at 2. rewrite He. cbn. rewrite HH.
      destruct (dirMap_Path (dmap (freshTree f w2)) !! k) as [q0|] eqn:Hk0.
      * (* the root *)
        cbn [freshTree dmap dirMap_Path] in Hk0.
        destruct (decide ("" = k)) as [<-|Hne];
          [|rewrite lookup_insert_ne, lookup_empty in Hk0 by exact Hne; discriminate].
        rewrite lookup_insert_eq in Hk0. injection Hk0 as <-.
        pose proof (grows_index _ _ _ Hg "" (nextPtr w2)) as Hroot3.
        rewrite Hq3 in Hroot3. specialize (Hroot3 ltac:(apply lookup_insert_eq)).
        injection Hroot3 as ->.
        destruct (grows_entries _ _ _ Hg (nextPtr w2) _ ltac:(apply lookup_insert_eq))
          as (e3 & He3 & _ & HH3 & _).
        unfold hashAt. rewrite He3. cbn. exact HH3.
      * destruct (grows_new _ _ _ Hg k q3 Hq3 Hk0) as (_ & e3 & He3 & _ & HH3 & _).
        unfold hashAt. rewrite He3. cbn. exact HH3.
    + destruct (dirMap_Path (dmap w3) !! k) as [q3|] eqn:Hq3; [|reflexivity].
      destruct (Hdom k ltac:(eauto)) as [q Hq]. congruence.
Qed.

(** The tree with a/b, written and loaded into the same memory. *)
Lemma root_index_round_trip_witness :
  let w := stateAfter fs0 [OpMkdir "a/b"] in
  reloadable fs0 w = true /\ wf w /\
  dirMap_write fs0 w = call fs0 (CPut "map" (rootIndexBytes w)) w /\
  exists w3,
    loadDirectoryMap fs0 (Some (rootIndexBytes w, None)) w = Ok None w3 /\
    wf w3 /\ trace w3 = trace w /\
    (forall k, hashAt w3 <$> dirMap_Path (dmap w3) !! k
               = hashAt w <$> dirMap_Path (dmap w) !! k) /\
    indexPairs w3 = indexPairs w.
Proof.
  intros w.
  assert (H1 : reloadable fs0 w = true) by (vm_compute; reflexivity).
  assert (H2 : wf w) by apply stateAfter_wf.
  split; [exact H1|]. split; [exact H2|].
  split; [exact (proj1 (root_index_round_trip fs0 w H1))|].
  exact (proj2 (root_index_round_trip fs0 w H1) w H2).
Defined.

(** ** Mkdir on a path with missing parents *)

(** X9.  [Mkdir] of a path that is not indexed, on well-formed memory,
    comes back without a panic.  It makes an entry for the path and for
    every path above it that is not indexed, each keyed by the hash of
    its path and linked as a child of the entry above, and leaves what
    was indexed as it was; of the remote it asks at most to make the one
    container keyed by the path itself, none for the parents it made,
    and to write the root index. *)
Theorem Mkdir_makes_missing_parents (f : Fs) (dir : string) (w : World) :
  let d := path_Join [root f; dir] in
  wf w -> containsChar nl d = false -> dirMap_Path (dmap w) !! d = None ->
  exists w1 r w' evs,
    newDirEntry f d w = Ok tt w1 /\ wf w1 /\ grows f w w1 /\
    is_Some (dirMap_Path (dmap w1) !! d) /\
    (forall k, is_Some (dirMap_Path (dmap w1) !! k) ->
               dirMap_Path (dmap w) !! k = None ->
               pathAbove k d /\
               (k <> "" -> is_Some (dirMap_Path (dmap w1) !! parentPathOf k))) /\
    Mkdir f dir w = Ok r w' /\
    dmap w' = dmap w1 /\ entries w' = entries w1 /\ arrays w' = arrays w1 /\
    trace w' = trace w ++ evs /\
    forall c, c ∈ map fst evs ->
      c = CMkdir (hasher f d) \/ exists bytes, c = CPut "map" bytes.
Proof.
  intros d Hwf Hnl Hd.
  destruct (newDirEntry_grows f d w Hwf) as (w1 & HE & Hwf1 & Hg & [entry Hentry] & Hnew).
  destruct (grows_new _ _ _ Hg d entry Hentry Hd) as (_ & e & He & _ & HH & _).
  assert (Hwrite : forall w2, entries w2 = entries w1 -> dmap w2 = dmap w1 ->
            exists bytes werr,
              dirMap_write f w2
              = Ok werr (set_trace w2 (trace w2 ++ [(CPut "map" bytes, werr)]))).
  { intros w2 He2 Hd2. destruct (dirMap_write_ok f w2) as [bytes HW].
    - intros k p Hk. rewrite He2. rewrite Hd2 in Hk. eapply wf_index; eauto.
    - eauto. }
  assert (HM : Mkdir f dir w =
            (let* err := (if CanHaveEmptyDirectories (base f)
                          then call f (CMkdir (Hash e)) else ret None) in
             match err with
             | Some err => ret (Some err)
             | None => dirMap_write f
             end) w1).
  { unfold Mkdir. fold d. unfold bind at 1. unfold lookupPath at 1. rewrite Hd, Hnl.
    unfold bind at 1. rewrite HE. unfold bind at 1. unfold lookupPath at 1.
    rewrite Hentry. unfold bind at 1. unfold deref at 1. rewrite He. reflexivity. }
  rewrite HH in HM. pose proof (grows_trace _ _ _ Hg) as Ht1.
  assert (Hrest : exists r w' evs,
            Mkdir f dir w = Ok r w' /\
            dmap w' = dmap w1 /\ entries w' = entries w1 /\ arrays w' = arrays w1 /\
            trace w' = trace w ++ evs /\
            forall c, c ∈ map fst evs ->
              c = CMkdir (hasher f d) \/ exists bytes, c = CPut "map" bytes).
  { rewrite HM. destruct (CanHaveEmptyDirectories (base f)).
    - unfold bind, call.
      destruct (reply (base f) (trace w1) (CMkdir (hasher f d))) as [err|] eqn:Hr.
      + exists (Some err), (set_trace w1 (trace w1 ++ [(CMkdir (hasher f d), Some err)])),
          [(CMkdir (hasher f d), Some err)].
        split; [reflexivity|]. split; [reflexivity|]. split; [reflexivity|].
        split; [reflexivity|]. split; [cbn [trace set_trace]; by rewrite Ht1|].
        intros c Hc. apply list_elem_of_singleton in Hc as ->. by left.
      + destruct (Hwrite (set_trace w1 (trace w1 ++ [(CMkdir (hasher f d), None)])))
          as (bytes & werr & HW); [reflexivity..|].
        rewrite HW.
        exists werr, (set_trace w1 ((trace w1 ++ [(CMkdir (hasher f d), None)])
                                    ++ [(CPut "map" bytes, werr)])),
          [(CMkdir (hasher f d), None); (CPut "map" bytes, werr)].
        split; [reflexivity|]. split; [reflexivity|]. split; [reflexivity|].
        split; [reflexivity|].
        split; [cbn [trace set_trace]; by rewrite Ht1, <- app_assoc|].
        intros c Hc. apply elem_of_cons in Hc as [->|Hc]; [by left|].
        apply list_elem_of_singleton in Hc as ->. right. eauto.
    - unfold bind, ret at 1.
      destruct (Hwrite w1) as (bytes & werr & HW); [reflexivity..|].
      rewrite HW.
      exists werr, (set_trace w1 (trace w1 ++ [(CPut "map" bytes, werr)])),
        [(CPut "map" bytes, werr)].
      split; [reflexivity|]. split; [reflexivity|]. split; [reflexivity|].
      split; [reflexivity|]. split; [cbn [trace set_trace]; by rewrite Ht1|].
      intros c Hc. apply list_elem_of_singleton in Hc as ->. right. eauto. }
  destruct Hrest as (r & w' & evs & Hrest).
  exists w1, r, w', evs. split; [exact HE|]. split; [exact Hwf1|]. split; [exact Hg|].
  split; [eauto|]. split; [exact Hnew|exact Hrest].
Qed.

(** a/b/c on a new tree: three entries are made, one container. *)
Lemma Mkdir_makes_missing_parents_witness :
  let w := stateAfter fs0 [] in
  let d := path_Join [root fs0; "a/b/c"] in
  wf w /\ containsChar nl d = false /\ dirMap_Path (dmap w) !! d = None /\
  exists w1 r w' evs,
    newDirEntry fs0 d w = Ok tt w1 /\ wf w1 /\ grows fs0 w w1 /\
    is_Some (dirMap_Path (dmap w1) !! d) /\
    (forall k, is_Some (dirMap_Path (dmap w1) !! k) ->
               dirMap_Path (dmap w) !! k = None ->
               pathAbove k d /\
               (k <> "" -> is_Some (dirMap_Path (dmap w1) !! parentPathOf k))) /\
    Mkdir fs0 "a/b/c" w = Ok r w' /\
    dmap w' = dmap w1 /\ entries w' = entries w1 /\ arrays w' = arrays w1 /\
    trace w' = trace w ++ evs /\
    forall c, c ∈ map fst evs ->
      c = CMkdir (hasher fs0 d) \/ exists bytes, c = CPut "map" bytes.
Proof.
  intros w d.
  assert (H1 : wf w) by apply stateAfter_wf.
  assert (H2 : containsChar nl d = false) by reflexivity.
  assert (H3 : dirMap_Path (dmap w) !! d = None) by (vm_compute; reflexivity).
  split; [exact H1|]. split; [exact H2|]. split; [exact H3|].
  exact (Mkdir_makes_missing_parents fs0 "a/b/c" w H1 H2 H3).
Defined.

(** ** Taking an entry out of the tree *)

Lemma indexOf_Some x l idx :
  indexOf x l = Some idx ->
  l = take idx l ++ x :: drop (S idx) l /\ x ∉ take idx l.
Proof.
  unfold indexOf. intros H.
  destruct (list_find (fun y => y = x) l) as [[i y]|] eqn:E; [|discriminate].
  injection H as ->. apply list_find_Some in E as (Hi & -> & Hbefore). split.
  - symmetry. by apply take_drop_middle.
  - intros Hin. apply elem_of_take in Hin as (j & Hj & Hlt).
    by apply (Hbefore j x Hj Hlt).
Qed.

Lemma indexOf_elem x l : x ∈ l -> is_Some (indexOf x l).
Proof.
  intros Hin. unfold indexOf.
  destruct (list_find (fun y => y = x) l) as [[i y]|] eqn:E; [eauto|].
  apply list_find_None in E. rewrite Forall_forall in E. by destruct (E x Hin).
Qed.

(** Taking an indexed entry out from among the children of its parent. *)
Lemma removeEntry_linked (path : string) (w : World) entry e parent :
  wf w ->
  dirMap_Path (dmap w) !! path = Some entry -> entries w !! entry = Some e ->
  Parent e = Some parent -> entry ∈ childrenOf w parent ->
  exists w' before after,
    removeEntry path w = Ok tt w' /\ wf w' /\
    childrenOf w parent = before ++ entry :: after /\ (entry ∉ before) /\
    childrenOf w' parent = before ++ after /\
    (forall q, q <> parent -> childrenOf w' q = childrenOf w q) /\
    dirMap_Path (dmap w') = delete path (dirMap_Path (dmap w)) /\
    dirMap_Hash (dmap w') = delete (Hash e) (dirMap_Hash (dmap w)) /\
    trace w' = trace w /\ entries w' !! entry = Some e /\
    (forall q, q <> parent -> entries w' !! q = entries w !! q) /\
    (forall q e', entries w' !! q = Some e' ->
       exists e0, entries w !! q = Some e0 /\ Path e0 = Path e' /\
         Hash e0 = Hash e' /\ Parent e0 = Parent e' /\ files e0 = files e').
Proof.
  intros Hwf Hp He Hpar Hin.
  destruct (childrenOf_wf w parent entry Hwf Hin) as (pe & a & Hpe & Ha & Hlen & Hch).
  set (len := s_len (Children pe)) in *.
  rewrite Hch in Hin.
  destruct (indexOf_elem _ _ Hin) as [idx Hidx].
  destruct (indexOf_Some _ _ _ Hidx) as [Hsplit Hnotin].
  assert (Hlt : idx < len).
  { unfold indexOf in Hidx.
    destruct (list_find _ _) as [[i y]|] eqn:E; [|discriminate].
    injection Hidx as ->. apply list_find_Some in E as (Hi & _).
    apply lookup_lt_Some in Hi. rewrite length_take in Hi. lia. }
  set (moved := take (len - S idx) (drop (S idx) a)).
  set (a' := take idx a ++ moved ++ drop (len - 1) a).
  set (s' := {| s_arr := s_arr (Children pe); s_len := len - 1 |}).
  set (w' := set_dmap
               (set_entries (set_arrays w (<[s_arr (Children pe) := a']> (arrays w)))
                  (<[parent := set_Children pe s']> (entries w)))
               {| dirMap_Hash := delete (Hash e) (dirMap_Hash (dmap w));
                  dirMap_Path := delete path (dirMap_Path (dmap w)) |}).
  assert (HE : removeEntry path w = Ok tt w').
  { unfold removeEntry, bind, lookupPath, deref. rewrite Hp, He, Hpar, Hpe.
    unfold getArray. rewrite Ha. fold len. rewrite Hidx.
    unfold slice_delete, bind, getArray. rewrite Ha. fold len.
    destruct (decide (idx < len /\ len <= length a)) as [_|Hno]; [|lia].
    reflexivity. }
  assert (Hne : parent <> entry).
  { destruct (wf_entry w Hwf parent pe Hpe) as (_ & _ & a0 & Ha0 & _ & Hlive & Hall).
    rewrite Ha in Ha0. injection Ha0 as <-.
    destruct (Hall entry) as [Hlt' _]; [by apply (subseteq_take len a)|by apply Hlive|].
    lia. }
  assert (Ht1 : take idx (take len a) = take idx a)
    by (rewrite take_take; f_equal; lia).
  assert (Ht2 : drop (S idx) (take len a) = moved)
    by (unfold moved; by rewrite skipn_firstn_comm).
  exists w', (take idx a), moved. split; [exact HE|].
  split; [eapply preserves_removeEntry; eauto|].
  split; [rewrite Hch; rewrite Hsplit at 1; by rewrite Ht1, Ht2|].
  split; [by rewrite <- Ht1|]. split.
  { rewrite (childrenOf_eq w' parent (set_Children pe s') a').
    - cbn [Children set_Children s_len s']. unfold a'. rewrite app_assoc.
      apply take_app_length'. rewrite length_app, length_take.
      unfold moved. rewrite length_take, length_drop. lia.
    - cbn [w' entries set_dmap set_entries]. apply lookup_insert_eq.
    - cbn [w' arrays set_dmap set_entries set_arrays Children set_Children s_arr s'].
      apply lookup_insert_eq.
    - cbn [Children set_Children s_len s']. unfold a'.
      rewrite !length_app, length_take, length_drop. unfold moved.
      rewrite length_take, length_drop. lia. }
  split.
  { intros q Hq. unfold childrenOf, childrenIn.
    cbn [w' entries arrays set_dmap set_entries set_arrays].
    rewrite lookup_insert_ne by done.
    destruct (entries w !! q) as [eq|] eqn:Heq; [|reflexivity].
    rewrite lookup_insert_ne; [reflexivity|].
    intros Hsame. apply Hq. symmetry. eapply (wf_noshare w Hwf); eauto. }
  split; [reflexivity|]. split; [reflexivity|]. split; [reflexivity|].
  split; [cbn [w' entries set_dmap set_entries]; by rewrite lookup_insert_ne|].
  split; [intros q Hq; cbn [w' entries set_dmap set_entries];
          by rewrite lookup_insert_ne|].
  intros q e' Hq. cbn [w' entries set_dmap set_entries] in Hq.
  destruct (decide (parent = q)) as [<-|Hq'].
  - rewrite lookup_insert_eq in Hq. injection Hq as <-. exists pe. auto.
  - rewrite lookup_insert_ne in Hq by exact Hq'. exists e'. auto.
Qed.

(** X11.  [removeEntry] does nothing for a path that is not indexed and
    panics for the root.  For an indexed entry that is among the
    children of its parent it takes the first occurrence of the entry
    out of the parent's children, keeping the others in their order,
    drops the path and the key from the indices, and leaves every other
    list of children, the trace and the entry itself as they were. *)
Theorem removeEntry_unlinks (path : string) (w : World) :
  (dirMap_Path (dmap w) !! path = None -> removeEntry path w = Ok tt w) /\
  (forall entry e,
     dirMap_Path (dmap w) !! path = Some entry -> entries w !! entry = Some e ->
     Parent e = None -> removeEntry path w = Panic msg_remove_root) /\
  (forall entry e parent,
     wf w ->
     dirMap_Path (dmap w) !! path = Some entry -> entries w !! entry = Some e ->
     Parent e = Some parent -> entry ∈ childrenOf w parent ->
     exists w' before after,
       removeEntry path w = Ok tt w' /\ wf w' /\
       childrenOf w parent = before ++ entry :: after /\ (entry ∉ before) /\
       childrenOf w' parent = before ++ after /\
       (forall q, q <> parent -> childrenOf w' q = childrenOf w q) /\
       dirMap_Path (dmap w') = delete path (dirMap_Path (dmap w)) /\
       dirMap_Hash (dmap w') = delete (Hash e) (dirMap_Hash (dmap w)) /\
       trace w' = trace w /\ entries w' !! entry = Some e).
Proof.
  split; [|split].
  - intros Hp. unfold removeEntry, bind, lookupPath. rewrite Hp. reflexivity.
  - intros entry e Hp He Hpar. unfold removeEntry, bind, lookupPath, deref.
    rewrite Hp, He, Hpar. reflexivity.
  - intros entry e parent Hwf Hp He Hpar Hin.
    destruct (removeEntry_linked path w entry e parent Hwf Hp He Hpar Hin)
      as (w' & before & after & H).
    exists w', before, after. tauto.
Qed.

(** a/1 taken out from under "a", which keeps a/2; a path that is not
    indexed; the root. *)
Lemma removeEntry_unlinks_witness :
  let w := stateAfter fs0 [OpMkdir "a/1"; OpMkdir "a/2"] in
  let e := entryOf "a/1" 2 3 0 None in
  let r := {| Path := ""; Hash := ""; Parent := None;
              Children := {| s_arr := 2; s_len := 1 |}; files := None |} in
  dirMap_Path (dmap w) !! "q" = None /\ removeEntry "q" w = Ok tt w /\
  dirMap_Path (dmap w) !! "" = Some 1 /\ entries w !! 1 = Some r /\
  Parent r = None /\ removeEntry "" w = Panic msg_remove_root /\
  wf w /\ dirMap_Path (dmap w) !! "a/1" = Some 3 /\ entries w !! 3 = Some e /\
  Parent e = Some 2 /\ 3 ∈ childrenOf w 2 /\
  exists w' before after,
    removeEntry "a/1" w = Ok tt w' /\ wf w' /\
    childrenOf w 2 = before ++ 3 :: after /\ (3 ∉ before) /\
    childrenOf w' 2 = before ++ after /\
    (forall q, q <> 2 -> childrenOf w' q = childrenOf w q) /\
    dirMap_Path (dmap w') = delete "a/1" (dirMap_Path (dmap w)) /\
    dirMap_Hash (dmap w') = delete (Hash e) (dirMap_Hash (dmap w)) /\
    trace w' = trace w /\ entries w' !! 3 = Some e.
Proof.
  intros w e r.
  assert (H1 : dirMap_Path (dmap w) !! "q" = None) by (vm_compute; reflexivity).
  assert (H2 : dirMap_Path (dmap w) !! "" = Some 1) by (vm_compute; reflexivity).
  assert (H3 : entries w !! 1 = Some r) by (vm_compute; reflexivity).
  assert (H4 : Parent r = None) by reflexivity.
  assert (H5 : wf w) by apply stateAfter_wf.
  assert (H6 : dirMap_Path (dmap w) !! "a/1" = Some 3) by (vm_compute; reflexivity).
  assert (H7 : entries w !! 3 = Some e) by (vm_compute; reflexivity).
  assert (H8 : Parent e = Some 2) by reflexivity.
  assert (Hch : childrenOf w 2 = [3; 4]) by (vm_compute; reflexivity).
  assert (H9 : 3 ∈ childrenOf w 2) by (exact (eq_ind_r (fun l => 3 ∈ l)
                                                (list_elem_of_here 3 [4]) Hch)).
  split; [exact H1|]. split; [exact (proj1 (removeEntry_unlinks "q" w) H1)|].
  split; [exact H2|]. split; [exact H3|]. split; [exact H4|].
  split; [exact (proj1 (proj2 (removeEntry_unlinks "" w)) 1 r H2 H3 H4)|].
  split; [exact H5|]. split; [exact H6|]. split; [exact H7|]. split; [exact H8|].
  split; [exact H9|].
  exact (proj2 (proj2 (removeEntry_unlinks "a/1" w)) 3 e 2 H5 H6 H7 H8 H9).
Defined.

(** ** Memory in the states that operations reach *)

(** X12.  In every state in which a run of [NewFs] and operations of
    the backend, on any remote, comes back, memory is well-formed: an
    indexed path points at an entry, every child in a list of children
    is an entry made after its parent, so that no entry is below itself,
    and the children-first traversal from an indexed entry is defined
    within the fuel that [Purge] takes. *)
Theorem reached_states_are_well_formed (f : Fs) (ops : list Op) (w : World) :
  runOps f ops = Ok tt w ->
  wf w /\
  (forall k p, dirMap_Path (dmap w) !! k = Some p -> is_Some (entries w !! p)) /\
  (forall p c, c ∈ childrenOf w p -> p < c /\ is_Some (entries w !! c)) /\
  (forall k p, dirMap_Path (dmap w) !! k = Some p ->
     is_Some (postorder (nextPtr w) (entries w) (arrays w) p)).
Proof.
  intros Hrun. pose proof (reachable_states_wf f ops w Hrun) as Hwf.
  split; [exact Hwf|]. split; [apply (wf_index w Hwf)|]. split.
  - intros p c Hc.
    destruct (childrenOf_wf w p c Hwf Hc) as (e & a & He & Ha & Hlen & Hch).
    destruct (wf_entry w Hwf p e He) as (_ & _ & a0 & Ha0 & _ & Hlive & Hall).
    rewrite Ha in Ha0. injection Ha0 as <-. rewrite Hch in Hc.
    apply Hall; [by apply (subseteq_take (s_len (Children e)) a)|by apply Hlive].
  - intros k p Hk. apply postorder_defined; [exact Hwf| |lia].
    eapply wf_index; eauto.
Qed.

(** A run that moves a directory under itself, where [recurse] goes
    down into entries that the move has made. *)
Lemma reached_states_are_well_formed_witness :
  let ops := [OpMkdir "a/1"; OpMkdir "a/2"; OpDirMove 7 "a" "a/2/x/y/z/w";
              OpPurge "a/2/x"; OpMkdir "a"; OpRmdir "a"] in
  let w := stateAfter fs0 ops in
  runOps fs0 ops = Ok tt w /\
  wf w /\
  (forall k p, dirMap_Path (dmap w) !! k = Some p -> is_Some (entries w !! p)) /\
  (forall p c, c ∈ childrenOf w p -> p < c /\ is_Some (entries w !! c)) /\
  (forall k p, dirMap_Path (dmap w) !! k = Some p ->
     is_Some (postorder (nextPtr w) (entries w) (arrays w) p)).
Proof.
  intros ops w.
  assert (H1 : runOps fs0 ops = Ok tt w) by (vm_compute; reflexivity).
  split; [exact H1|].
  exact (reached_states_are_well_formed fs0 ops w H1).
Defined.

(** ** Listings *)

Lemma sameTree_live w w' p :
  sameTree w w' -> is_Some (entries w !! p) -> is_Some (entries w' !! p).
Proof.
  intros Hs [e He]. destruct (sameTree_lookup _ _ _ _ Hs He) as (e' & He' & _). eauto.
Qed.

Lemma sameTree_hashAt w w' p : sameTree w w' -> hashAt w' p = hashAt w p.
Proof.
  intros Hs. unfold hashAt. destruct (entries w !! p) as [e|] eqn:He.
  - destruct (sameTree_lookup _ _ _ _ Hs He) as (e' & He' & Hsk). rewrite He'.
    unfold skeleton in Hsk. cbn. congruence.
  - destruct (entries w' !! p) as [e'|] eqn:He'; [|reflexivity].
    destruct (sameTree_lookup _ _ _ _ (sameTree_sym _ _ Hs) He') as (e & He2 & _).
    congruence.
Qed.

Lemma sameTree_childrenOf w w' p : sameTree w w' -> childrenOf w' p = childrenOf w p.
Proof.
  intros Hs. unfold childrenOf, childrenIn.
  destruct Hs as (_ & Ha & _ & _ & Hsk). rewrite Ha.
  assert (H : skeleton <$> entries w' !! p = skeleton <$> entries w !! p)
    by (rewrite <- !lookup_fmap; by rewrite Hsk).
  destruct (entries w' !! p) as [e'|], (entries w !! p) as [e|]; cbn in H;
    try discriminate; [|reflexivity].
  injection H as _ _ _ ->. reflexivity.
Qed.

(** The file index of a live entry can always be asked for. *)
Lemma Files_ok f d w :
  is_Some (entries w !! d) ->
  exists r w', Files f d w = Ok r w' /\ sameTree w w'.
Proof.
  intros [e He].
  destruct (Files f d w) as [r w'|msg|] eqn:HF.
  - exists r, w'. split; [reflexivity|]. by apply Files_spec in HF as (? & _).
  - exfalso. unfold Files, bind, fillFiles, bind, deref in HF. rewrite He in HF.
    destruct (files e) as [m|] eqn:Hf.
    { unfold ret in HF. rewrite He in HF. discriminate. }
    unfold setFiles, bind, deref, store, modify in HF. rewrite He in HF.
    set (w1 := set_entries w _) in HF.
    assert (He1 : entries w1 !! d = Some (set_files e (Some ∅)))
      by apply lookup_insert_eq.
    destruct (readMapFile f d _ w1) as [r1 w2|msg'|] eqn:HR.
    + destruct (readMapFile_loaded _ _ _ _ _ _ _ He1 ltac:(cbn; eauto) HR)
        as (e2 & He2 & _).
      destruct r1; unfold setFiles, bind, deref, store, modify, ret in HF;
        rewrite He2 in HF; cbn in HF; discriminate.
    + clear HF. unfold readMapFile, bind, call in HR.
      destruct (reply _ _ _); [destruct (errors_Is _ _); discriminate|].
      unfold openObj, call in HR. cbn [trace set_trace] in HR.
      destruct (reply _ _ _); [discriminate|].
      destruct (content _ _ _) as [data tail].
      match type of HR with
      | context [fillLines d ?l ?w0] =>
          destruct (fillLines_ok d l w0 _ He1 ltac:(cbn; eauto)) as (r3 & w3 & HL);
          rewrite HL in HR
      end.
      destruct r3; [discriminate|]. destruct tail; discriminate.
    + by apply returns_readMapFile in HR.
  - by apply returns_Files in HF.
Qed.

(** [NewObject] comes back from well-formed memory and keeps the tree. *)
Lemma NewObject_ok f remote w :
  wf w -> exists r w', NewObject f remote w = Ok r w' /\ sameTree w w'.
Proof.
  intros Hwf. unfold NewObject, bind, lookupPath, toHash.
  destruct (dirMap_Path (dmap w) !! remote).
  { eexists _, _. split; [reflexivity|apply sameTree_refl]. }
  destruct (path_Split remote) as [par leaf]. unfold bind, lookupPath. cbn [ret fst snd].
  destruct (dirMap_Path (dmap w) !! _) as [entry|] eqn:Hentry.
  2:{ eexists _, _. split; [reflexivity|apply sameTree_refl]. }
  pose proof (wf_index w Hwf _ _ Hentry) as Hlive.
  destruct (Files_ok f entry w Hlive) as (fl & w1 & HF & Hs). rewrite HF.
  destruct fl as [err|fls]; [eexists _, _; split; [reflexivity|exact Hs]|].
  destruct (fls !! leaf); [|eexists _, _; split; [reflexivity|exact Hs]].
  destruct (sameTree_live _ _ _ Hs Hlive) as [e1 He1].
  unfold deref. rewrite He1. unfold call.
  destruct (reply _ _ _); eexists _, _; (split; [reflexivity|]);
    (eapply sameTree_trans; [exact Hs|apply sameTree_set_trace]).
Qed.

Lemma listFiles_ok f entryPath names : forall w,
  wf w ->
  exists es w', listFiles f entryPath names w = Ok es w' /\ sameTree w w' /\
                dirsOf es = [] /\ length es <= length names.
Proof.
  induction names as [|k names IH]; intros w Hwf.
  - exists [], w. split; [reflexivity|]. split; [apply sameTree_refl|].
    split; [reflexivity|cbn; lia].
  - cbn [listFiles]. cbv zeta.
    destruct (NewObject_ok f (TrimPrefix (TrimPrefix (path_Join [entryPath; k]) (root f)) "/")
                w Hwf) as (o & w1 & HN & Hs1).
    unfold bind. rewrite HN.
    destruct (IH w1 (wf_sameTree _ _ Hwf Hs1)) as (es & w2 & HL & Hs2 & Hd & Hlen).
    rewrite HL. eexists _, _. split; [reflexivity|].
    split; [eapply sameTree_trans; eauto|].
    destruct o; (split; [exact Hd|cbn [length]; lia]).
Qed.

(** The map from keys to children. *)
Lemma childNames_spec cs : forall m0 w,
  (forall c, c ∈ cs -> is_Some (entries w !! c)) ->
  childNames cs m0 w = Ok (foldl (fun m c => <[hashAt w c := c]> m) m0 cs) w.
Proof.
  induction cs as [|c cs IH]; intros m0 w Hlive; [reflexivity|].
  destruct (Hlive c) as [e He]; [left|].
  cbn [childNames foldl]. unfold bind, deref. rewrite He.
  rewrite IH by (intros c' Hc'; apply Hlive; by right).
  assert (hashAt w c = Hash e) as -> by (unfold hashAt; by rewrite He).
  reflexivity.
Qed.

Lemma childNames_values (hash : ptr -> string) cs : forall (m0 : gmap string ptr),
  NoDup (map hash cs) -> (forall c, c ∈ cs -> m0 !! hash c = None) ->
  map_to_list (foldl (fun m c => <[hash c := c]> m) m0 cs)
  ≡ₚ map (fun c => (hash c, c)) cs ++ map_to_list m0.
Proof.
  induction cs as [|c cs IH]; intros m0 Hnd Hfresh; [reflexivity|].
  cbn [map] in Hnd. apply NoDup_cons in Hnd as [Hc Hnd].
  cbn [foldl map]. rewrite IH.
  - rewrite map_to_list_insert by (apply Hfresh; left).
    by rewrite <- Permutation_middle.
  - exact Hnd.
  - intros c' Hc'. rewrite lookup_insert_ne; [apply Hfresh; by right|].
    intros Heq. apply Hc. rewrite Heq. apply list_elem_of_fmap. eauto.
Qed.

(** What the match against the listing of the remote keeps: every child
    is in the matched directories or is left in the map, once. *)
Lemma matchDirs_spec baseDirs : forall (m : gmap string ptr) es m',
  matchDirs m baseDirs = (es, m') ->
  map (fun d => (default "" (dir_base d), dir_entry d)) (dirsOf es)
    ++ map_to_list m' ≡ₚ map_to_list m /\
  Forall (fun x => exists d c, x = EntDir {| dir_base := Some d; dir_entry := c |}) es.
Proof.
  induction baseDirs as [|d rest IH]; intros m es m' H; cbn [matchDirs] in H.
  - injection H as <- <-. split; [reflexivity|constructor].
  - destruct (m !! d) as [c|] eqn:Hd; [|by apply IH].
    destruct (matchDirs (delete d m) rest) as [es0 m0] eqn:HM.
    injection H as <- <-. destruct (IH _ _ _ HM) as [Hperm Hall].
    split.
    + change (dirsOf (EntDir {| dir_base := Some d; dir_entry := c |} :: es0))
        with ({| dir_base := Some d; dir_entry := c |} :: dirsOf es0).
      cbn [map app dir_base dir_entry default]. rewrite Hperm.
      by apply map_to_list_delete.
    + constructor; [eauto|exact Hall].
Qed.

Lemma childNames_keeps (hash : ptr -> string) cs : forall (m0 : gmap string ptr) k,
  is_Some (m0 !! k) -> is_Some (foldl (fun m c => <[hash c := c]> m) m0 cs !! k).
Proof.
  induction cs as [|c cs IH]; intros m0 k Hk; [exact Hk|].
  cbn [foldl]. apply IH. destruct (decide (hash c = k)) as [->|Hne].
  - rewrite lookup_insert_eq. eauto.
  - by rewrite lookup_insert_ne.
Qed.

Lemma childNames_size (hash : ptr -> string) cs :
  (0 <? size (foldl (fun m c => <[hash c := c]> m) (∅ : gmap string ptr) cs))
  = negb (bool_decide (cs = [])).
Proof.
  destruct cs as [|c cs]; [reflexivity|].
  rewrite bool_decide_eq_false_2 by discriminate. cbn [negb foldl].
  apply Nat.ltb_lt.
  destruct (childNames_keeps hash cs (<[hash c := c]> ∅) (hash c)) as [x Hx].
  { rewrite lookup_insert_eq. eauto. }
  match goal with |- 0 < size ?m => destruct (decide (size m = 0)) as [Hz|Hnz] end;
    [|lia].
  apply map_size_empty_iff in Hz. rewrite Hz, lookup_empty in Hx. discriminate.
Qed.

(** [list], step by step. *)
Lemma Fs_list_spec f (ls : Lister) entry w :
  wf w -> is_Some (entries w !! entry) ->
  exists fl w1, Files f entry w = Ok fl w1 /\ sameTree w w1 /\
    match fl with
    | inl err => Fs_list f ls entry w = Ok (inl err) w1
    | inr fls =>
        match (if negb (bool_decide (childrenOf w entry = [])) then
                 match ls (trace w1) with
                 | inl err => inl err
                 | inr baseDirs => inr (matchDirs (childKeys w entry) baseDirs)
                 end
               else inr ([], childKeys w entry)) with
        | inl err => Fs_list f ls entry w = Ok (inl err) w1
        | inr (dirs, unmatched) =>
            exists objs w',
              Fs_list f ls entry w
              = Ok (inr (dirs
                         ++ map (fun kv => EntDir {| dir_base := None;
                                                     dir_entry := snd kv |})
                                (map_to_list unmatched)
                         ++ objs)) w' /\
              sameTree w w' /\ dirsOf objs = [] /\ length objs <= size fls
        end
    end.
Proof.
  intros Hwf [e He].
  destruct (wf_entry w Hwf entry e He) as (_ & _ & a & Ha & Hlen & Hlive & Hall).
  assert (Hcs : childrenOf w entry = take (s_len (Children e)) a)
    by (by apply childrenOf_eq).
  assert (Hnames : childNames (take (s_len (Children e)) a) ∅ w
                   = Ok (childKeys w entry) w).
  { unfold childKeys. rewrite Hcs. apply childNames_spec. intros c Hc.
    apply Hall; [by apply (subseteq_take (s_len (Children e)) a)|by apply Hlive]. }
  assert (Hsize : (0 <? size (childKeys w entry))
                  = negb (bool_decide (childrenOf w entry = [])))
    by apply childNames_size.
  destruct (Files_ok f entry w ltac:(eauto)) as (fl & w1 & HF & Hs).
  exists fl, w1. split; [exact HF|]. split; [exact Hs|].
  assert (HU : Fs_list f ls entry w =
            match fl with
            | inl err => Ok (inl err) w1
            | inr fls =>
                match (if negb (bool_decide (childrenOf w entry = [])) then
                         match ls (trace w1) with
                         | inl err => inl err
                         | inr baseDirs => inr (matchDirs (childKeys w entry) baseDirs)
                         end
                       else inr ([], childKeys w entry)) with
                | inl err => Ok (inl err) w1
                | inr (dirs, unmatched) =>
                    (let* e := deref entry in
                     let* objs := listFiles f (Path e) (map fst (map_to_list fls)) in
                     ret (inr (dirs
                               ++ map (fun kv => EntDir {| dir_base := None;
                                                           dir_entry := snd kv |})
                                      (map_to_list unmatched)
                               ++ objs))) w1
                end
            end).
  { unfold Fs_list. unfold bind at 1. unfold deref at 1. rewrite He.
    unfold bind at 1. unfold getArray. rewrite Ha.
    unfold bind at 1. rewrite Hnames. unfold bind at 1. rewrite HF.
    destruct fl as [err|fls]; [reflexivity|].
    unfold bind at 1. unfold get. cbv zeta. rewrite Hsize.
    destruct (negb (bool_decide (childrenOf w entry = []))); [|reflexivity].
    destruct (ls (trace w1)) as [err|baseDirs]; [reflexivity|].
    destruct (matchDirs (childKeys w entry) baseDirs); reflexivity. }
  rewrite HU. destruct fl as [err|fls]; [reflexivity|].
  destruct (if negb (bool_decide (childrenOf w entry = [])) then _ else _)
    as [err|[dirs unmatched]]; [reflexivity|].
  destruct (sameTree_live _ _ _ Hs ltac:(eauto)) as [e1 He1].
  unfold bind at 1. unfold deref. rewrite He1.
  destruct (listFiles_ok f (Path e1) (map fst (map_to_list fls)) w1
              (wf_sameTree _ _ Hwf Hs)) as (objs & w' & HL & Hs' & Hd & Hlen').
  unfold bind. rewrite HL. exists objs, w'. split; [reflexivity|].
  split; [eapply sameTree_trans; eauto|]. split; [exact Hd|].
  rewrite length_map, length_map_to_list in Hlen'. exact Hlen'.
Qed.

Lemma dirsOf_app a b : dirsOf (a ++ b) = dirsOf a ++ dirsOf b.
Proof. apply omap_app. Qed.

Lemma objsOf_app a b : objsOf (a ++ b) = objsOf a ++ objsOf b.
Proof. apply omap_app. Qed.

Lemma dirsOf_unmatched (l : list (string * ptr)) :
  dirsOf (map (fun kv => EntDir {| dir_base := None; dir_entry := snd kv |}) l)
  = map (fun kv => {| dir_base := None; dir_entry := snd kv |}) l.
Proof. induction l as [|x l IH]; [reflexivity|]. cbn. f_equal. exact IH. Qed.

Lemma objsOf_unmatched (l : list (string * ptr)) :
  objsOf (map (fun kv => EntDir {| dir_base := None; dir_entry := snd kv |}) l) = [].
Proof. induction l as [|x l IH]; [reflexivity|exact IH]. Qed.

Lemma objsOf_dirs es :
  Forall (fun x => exists d c, x = EntDir {| dir_base := Some d; dir_entry := c |}) es ->
  objsOf es = [].
Proof. induction 1 as [|x es (d & c & ->) _ IH]; [reflexivity|exact IH]. Qed.

Lemma objsOf_length es : length (objsOf es) <= length es.
Proof.
  induction es as [|[d|o] es IH]; [reflexivity| |].
  - change (objsOf (EntDir d :: es)) with (objsOf es). cbn [length]. lia.
  - change (objsOf (EntObj o :: es)) with (o :: objsOf es). cbn [length]. lia.
Qed.

(** What is matched and what is left make up the children by key. *)
Lemma matched_spec (ls : Lister) w w1 entry dirs unmatched :
  (if negb (bool_decide (childrenOf w entry = [])) then
     match ls (trace w1) with
     | inl err => inl err
     | inr baseDirs => inr (matchDirs (childKeys w entry) baseDirs)
     end
   else inr ([], childKeys w entry)) = inr (dirs, unmatched) ->
  map (fun d => (default "" (dir_base d), dir_entry d)) (dirsOf dirs)
    ++ map_to_list unmatched ≡ₚ map_to_list (childKeys w entry) /\
  Forall (fun x => exists d c, x = EntDir {| dir_base := Some d; dir_entry := c |}) dirs.
Proof.
  destruct (negb _).
  - destruct (ls (trace w1)) as [err|baseDirs]; [discriminate|].
    intros [= H]. by apply matchDirs_spec in H.
  - intros [= <- <-]. split; [reflexivity|constructor].
Qed.

(** A key of the map of children is the key of the child it holds. *)
Lemma childKeys_key w p k c : childKeys w p !! k = Some c -> k = hashAt w c.
Proof.
  unfold childKeys.
  assert (H : forall cs (m0 : gmap string ptr),
            (forall k c, m0 !! k = Some c -> k = hashAt w c) ->
            forall k c, foldl (fun m c => <[hashAt w c := c]> m) m0 cs !! k = Some c ->
                        k = hashAt w c).
  { induction cs as [|c0 cs IH]; intros m0 Hm0 k0 c1; [apply Hm0|].
    cbn [foldl]. apply IH. intros k1 c2 Hk.
    destruct (decide (hashAt w c0 = k1)) as [<-|Hne].
    - rewrite lookup_insert_eq in Hk. by injection Hk as <-.
    - rewrite lookup_insert_ne in Hk by exact Hne. by apply Hm0. }
  apply H. intros k1 c1 Hk. rewrite lookup_empty in Hk. discriminate.
Qed.

(** The match against the listing of the remote: what is matched is
    listed, and no key that is left is listed. *)
Lemma matchDirs_listed baseDirs : forall (m : gmap string ptr) es m',
  matchDirs m baseDirs = (es, m') ->
  (forall x, x ∈ dirsOf es ->
     exists d, dir_base x = Some d /\ d ∈ baseDirs /\ m !! d = Some (dir_entry x)) /\
  (forall k c, m' !! k = Some c -> m !! k = Some c /\ (k ∉ baseDirs)).
Proof.
  induction baseDirs as [|d rest IH]; intros m es m' H; cbn [matchDirs] in H.
  - injection H as <- <-. split.
    + intros x Hx. by apply elem_of_nil in Hx.
    + intros k c Hk. split; [exact Hk|]. intros Hin. by apply elem_of_nil in Hin.
  - destruct (m !! d) as [c0|] eqn:Hd.
    + destruct (matchDirs (delete d m) rest) as [es0 m0] eqn:HM.
      injection H as <- <-. destruct (IH _ _ _ HM) as [H1 H2]. split.
      * intros x Hx.
        change (dirsOf (EntDir {| dir_base := Some d; dir_entry := c0 |} :: es0))
          with ({| dir_base := Some d; dir_entry := c0 |} :: dirsOf es0) in Hx.
        apply elem_of_cons in Hx as [->|Hx].
        -- exists d. split; [reflexivity|]. split; [left|exact Hd].
        -- destruct (H1 x Hx) as (d0 & Hb & Hin & Hl). exists d0.
           split; [exact Hb|]. split; [by right|].
           apply lookup_delete_Some in Hl. tauto.
      * intros k c Hk. destruct (H2 k c Hk) as [Hl Hnot].
        apply lookup_delete_Some in Hl as [Hne Hl]. split; [exact Hl|].
        intros Hin. apply elem_of_cons in Hin as [->|Hin]; [done|by apply Hnot].
    + destruct (IH _ _ _ H) as [H1 H2]. split.
      * intros x Hx. destruct (H1 x Hx) as (d0 & Hb & Hin & Hl). exists d0.
        split; [exact Hb|]. split; [by right|exact Hl].
      * intros k c Hk. destruct (H2 k c Hk) as [Hl Hnot]. split; [exact Hl|].
        intros Hin. apply elem_of_cons in Hin as [->|Hin]; [congruence|by apply Hnot].
Qed.

(** X17.  [List] of a directory that is not indexed fails with
    ErrorDirNotFound and changes nothing.  Otherwise, when the children
    have distinct keys, a listing that succeeds holds every child
    directory exactly once, whatever the wrapped remote lists: a child
    whose key the remote lists is given with the directory of the
    remote, named by that key, and a child whose key it does not list is
    given all the same, without a directory of the remote.  Listing does
    not change the tree. *)
Theorem List_lists_every_subdirectory_once (f : Fs) (ls : Lister) (dir : string)
    (w : World) :
  let d := path_Join [root f; dir] in
  (dirMap_Path (dmap w) !! d = None ->
     Fs_List f ls dir w = Ok (inl ErrorDirNotFound) w) /\
  (forall entry ents w',
     wf w -> dirMap_Path (dmap w) !! d = Some entry ->
     NoDup (map (hashAt w) (childrenOf w entry)) ->
     Fs_List f ls dir w = Ok (inr ents) w' ->
     map dir_entry (dirsOf ents) ≡ₚ childrenOf w entry /\
     (forall x h, x ∈ dirsOf ents -> dir_base x = Some h ->
                  h = hashAt w (dir_entry x)) /\
     sameTree w w' /\
     exists fls w1,
       Files f entry w = Ok (inr fls) w1 /\
       match ls (trace w1) with
       | inr baseDirs =>
           forall x, x ∈ dirsOf ents ->
             dir_base x = if bool_decide (hashAt w (dir_entry x) ∈ baseDirs)
                          then Some (hashAt w (dir_entry x)) else None
       | inl _ => childrenOf w entry = []
       end).
Proof.
  intros d. split.
  - intros Hd. unfold Fs_List, bind, lookupPath. fold d. rewrite Hd. reflexivity.
  - intros entry ents w' Hwf Hd Hnd HL.
    unfold Fs_List, bind, lookupPath in HL. fold d in HL. rewrite Hd in HL.
    destruct (Fs_list_spec f ls entry w Hwf (wf_index w Hwf _ _ Hd))
      as (fl & w1 & HF & Hs & Hspec).
    destruct fl as [err|fls]; [rewrite Hspec in HL; discriminate|].
    destruct (if negb _ then _ else _) as [err|[dirs unmatched]] eqn:Hm;
      [rewrite Hspec in HL; discriminate|].
    destruct Hspec as (objs & w'' & HE & Hs' & Hobjs & _).
    rewrite HE in HL. injection HL as <- <-.
    pose proof Hm as Hm0.
    apply matched_spec in Hm as [Hperm Hall].
    assert (Hkeys : map_to_list (childKeys w entry)
                    ≡ₚ map (fun c => (hashAt w c, c)) (childrenOf w entry)).
    { unfold childKeys. rewrite childNames_values; [|exact Hnd|intros; apply lookup_empty].
      by rewrite map_to_list_empty, app_nil_r. }
    rewrite !dirsOf_app, dirsOf_unmatched, Hobjs, app_nil_r.
    split; [|split; [|split; [exact Hs'|]]].
    + rewrite map_app, map_map. cbn [dir_entry].
      transitivity (map snd (map (fun d0 => (default "" (dir_base d0), dir_entry d0))
                                 (dirsOf dirs) ++ map_to_list unmatched)).
      { rewrite map_app, map_map. reflexivity. }
      rewrite Hperm, Hkeys, map_map. cbn [snd]. by rewrite map_id.
    + intros x h Hx Hh. apply elem_of_app in Hx as [Hx|Hx].
      * assert (Hin : (h, dir_entry x) ∈ map_to_list (childKeys w entry)).
        { rewrite <- Hperm. apply elem_of_app. left. apply list_elem_of_fmap.
          exists x. rewrite Hh. auto. }
        rewrite Hkeys in Hin. apply list_elem_of_fmap in Hin as (c & [= -> ->] & _).
        reflexivity.
      * apply list_elem_of_fmap in Hx as (kv & -> & _). discriminate.
    + exists fls, w1. split; [exact HF|].
      destruct (bool_decide (childrenOf w entry = [])) eqn:Hnil; cbn [negb] in Hm0.
      * apply bool_decide_eq_true in Hnil. injection Hm0 as <- <-.
        assert (Hempty : childKeys w entry = ∅)
          by (unfold childKeys; rewrite Hnil; reflexivity).
        destruct (ls (trace w1)) as [err|baseDirs]; [exact Hnil|].
        intros x Hx. rewrite Hempty, map_to_list_empty in Hx.
        by apply elem_of_nil in Hx.
      * destruct (ls (trace w1)) as [err|baseDirs]; [discriminate|].
        injection Hm0 as Hm0. apply matchDirs_listed in Hm0 as [Hin Hout].
        intros x Hx. apply elem_of_app in Hx as [Hx|Hx].
        -- destruct (Hin x Hx) as (k & Hb & Hk & Hl).
           apply childKeys_key in Hl. subst k.
           rewrite bool_decide_eq_true_2 by exact Hk. exact Hb.
        -- apply list_elem_of_fmap in Hx as ([k c] & -> & Hkc).
           apply elem_of_map_to_list in Hkc. destruct (Hout k c Hkc) as [Hl Hnot].
           apply childKeys_key in Hl. subst k. cbn [dir_entry dir_base snd].
           by rewrite bool_decide_eq_false_2.
Qed.

(** The root with the directories a and b, over a remote that lists a
    twice, something else, and not b. *)
Lemma List_lists_every_subdirectory_once_witness :
  let w := stateAfter fs0 [OpMkdir "a"; OpMkdir "b"; OpPut "hello" "a/x"] in
  let ls := listerOf ["a"; "zz"; "a"] in
  let ents := [EntDir {| dir_base := Some "a"; dir_entry := 2 |};
               EntDir {| dir_base := None; dir_entry := 3 |}] in
  let w' := after (Fs_List fs0 ls "") w in
  dirMap_Path (dmap w) !! path_Join [root fs0; "q"] = None /\
  Fs_List fs0 ls "q" w = Ok (inl ErrorDirNotFound) w /\
  wf w /\ dirMap_Path (dmap w) !! path_Join [root fs0; ""] = Some 1 /\
  NoDup (map (hashAt w) (childrenOf w 1)) /\
  Fs_List fs0 ls "" w = Ok (inr ents) w' /\
  map dir_entry (dirsOf ents) ≡ₚ childrenOf w 1 /\
  (forall x h, x ∈ dirsOf ents -> dir_base x = Some h -> h = hashAt w (dir_entry x)) /\
  sameTree w w' /\
  exists fls w1,
    Files fs0 1 w = Ok (inr fls) w1 /\
    match ls (trace w1) with
    | inr baseDirs =>
        forall x, x ∈ dirsOf ents ->
          dir_base x = if bool_decide (hashAt w (dir_entry x) ∈ baseDirs)
                       then Some (hashAt w (dir_entry x)) else None
    | inl _ => childrenOf w 1 = []
    end.
Proof.
  intros w ls ents w'.
  assert (H1 : dirMap_Path (dmap w) !! path_Join [root fs0; "q"] = None)
    by (vm_compute; reflexivity).
  assert (H2 : wf w) by apply stateAfter_wf.
  assert (H3 : dirMap_Path (dmap w) !! path_Join [root fs0; ""] = Some 1)
    by (vm_compute; reflexivity).
  assert (Hk : map (hashAt w) (childrenOf w 1) = ["a"; "b"]) by (vm_compute; reflexivity).
  assert (Hab : NoDup ["a"; "b"]).
  { apply NoDup_cons. split; [|apply NoDup_singleton].
    intros Hin. apply list_elem_of_singleton in Hin. discriminate. }
  assert (H4 : NoDup (map (hashAt w) (childrenOf w 1)))
    by (exact (eq_ind_r (fun l => NoDup l) Hab Hk)).
  assert (H5 : Fs_List fs0 ls "" w = Ok (inr ents) w') by (vm_compute; reflexivity).
  split; [exact H1|].
  split; [exact (proj1 (List_lists_every_subdirectory_once fs0 ls "q" w) H1)|].
  split; [exact H2|]. split; [exact H3|]. split; [exact H4|]. split; [exact H5|].
  exact (proj2 (List_lists_every_subdirectory_once fs0 ls "" w) 1 ents w' H2 H3 H4 H5).
Defined.

(** X18.  [List] of an indexed directory, on well-formed memory, comes
    back without a panic and does not change the tree.  It fails only
    with the error of loading the file index of the directory or, when
    the directory has children, with the error of the listing of the
    wrapped remote; a directory without children is listed without
    asking the remote for its listing.  A file that cannot be fetched is
    left out of the listing without an error, so that a listing holds at
    most as many objects as the file index holds names. *)
Theorem List_fails_only_on_index_or_listing (f : Fs) (ls : Lister) (dir : string)
    (w : World) (entry : ptr) :
  wf w -> dirMap_Path (dmap w) !! path_Join [root f; dir] = Some entry ->
  exists fl w1 r w',
    Files f entry w = Ok fl w1 /\ Fs_List f ls dir w = Ok r w' /\ sameTree w w' /\
    match fl with
    | inl err => r = inl err /\ w' = w1
    | inr fls =>
        if bool_decide (childrenOf w entry = [])
        then exists ents, r = inr ents /\ dirsOf ents = [] /\ length ents <= size fls
        else match ls (trace w1) with
             | inl err => r = inl err /\ w' = w1
             | inr _ => exists ents, r = inr ents /\ length (objsOf ents) <= size fls
             end
    end.
Proof.
  intros Hwf Hd.
  destruct (Fs_list_spec f ls entry w Hwf (wf_index w Hwf _ _ Hd))
    as (fl & w1 & HF & Hs & Hspec).
  assert (HL : Fs_List f ls dir w = Fs_list f ls entry w).
  { unfold Fs_List, bind, lookupPath. rewrite Hd. reflexivity. }
  exists fl, w1. rewrite HL. destruct fl as [err|fls].
  { exists (inl err), w1. auto. }
  destruct (bool_decide (childrenOf w entry = [])) eqn:Hcs; cbn [negb] in Hspec.
  - destruct Hspec as (objs & w' & HE & Hs' & Hobjs & Hlen).
    apply bool_decide_eq_true in Hcs.
    assert (Hempty : map_to_list (childKeys w entry) = []).
    { unfold childKeys. rewrite Hcs. cbn [foldl]. apply map_to_list_empty. }
    rewrite Hempty in HE. cbn [map app] in HE.
    eexists _, _. split; [exact HF|]. split; [exact HE|]. split; [exact Hs'|].
    exists objs. auto.
  - destruct (ls (trace w1)) as [err|baseDirs].
    { exists (inl err), w1. auto. }
    destruct (matchDirs (childKeys w entry) baseDirs) as [dirs unmatched] eqn:HM.
    destruct Hspec as (objs & w' & HE & Hs' & Hobjs & Hlen).
    eexists _, _. split; [exact HF|]. split; [exact HE|]. split; [exact Hs'|].
    eexists. split; [reflexivity|].
    apply matchDirs_spec in HM as [_ Hall].
    rewrite !objsOf_app, (objsOf_dirs _ Hall), objsOf_unmatched. cbn [app].
    pose proof (objsOf_length objs). lia.
Qed.

(** The directory a, which has a file and no children, over a remote
    whose listing fails. *)
Lemma List_fails_only_on_index_or_listing_witness :
  let w := stateAfter fs0 [OpMkdir "a"; OpMkdir "b"; OpPut "hello" "a/x"] in
  wf w /\ dirMap_Path (dmap w) !! path_Join [root fs0; "a"] = Some 2 /\
  exists fl w1 r w',
    Files fs0 2 w = Ok fl w1 /\ Fs_List fs0 listerFails "a" w = Ok r w' /\
    sameTree w w' /\
    match fl with
    | inl err => r = inl err /\ w' = w1
    | inr fls =>
        if bool_decide (childrenOf w 2 = [])
        then exists ents, r = inr ents /\ dirsOf ents = [] /\ length ents <= size fls
        else match listerFails (trace w1) with
             | inl err => r = inl err /\ w' = w1
             | inr _ => exists ents, r = inr ents /\ length (objsOf ents) <= size fls
             end
    end.
Proof.
  intros w.
  assert (H1 : wf w) by apply stateAfter_wf.
  assert (H2 : dirMap_Path (dmap w) !! path_Join [root fs0; "a"] = Some 2)
    by (vm_compute; reflexivity).
  split; [exact H1|]. split; [exact H2|].
  exact (List_fails_only_on_index_or_listing fs0 listerFails "a" w 2 H1 H2).
Defined.

Lemma Fs_list_ok f (ls : Lister) entry w :
  wf w -> is_Some (entries w !! entry) ->
  exists r w', Fs_list f ls entry w = Ok r w' /\ sameTree w w'.
Proof.
  intros Hwf Hlive.
  destruct (Fs_list_spec f ls entry w Hwf Hlive) as (fl & w1 & HF & Hs & Hspec).
  destruct fl as [err|fls]; [eauto|].
  destruct (if negb _ then _ else _) as [err|[dirs unmatched]]; [eauto|].
  destruct Hspec as (objs & w' & HE & Hs' & _). eauto.
Qed.

Lemma rangeFrom_ok (body : ptr -> M (option error)) a arr n :
  (forall p w, wf w -> is_Some (entries w !! p) -> nextPtr w - p <= n ->
     exists r w', body p w = Ok r w' /\ sameTree w w') ->
  forall k i w,
    wf w -> arrays w !! a = Some arr ->
    (forall j, j < k -> exists c, arr !! (i + j) = Some c /\
                 is_Some (entries w !! c) /\ nextPtr w - c <= n) ->
    exists r w', rangeFrom a k i body w = Ok r w' /\ sameTree w w'.
Proof.
  intros Hbody. induction k as [|k IH]; intros i w Hwf Ha Hcs.
  - exists None, w. split; [reflexivity|apply sameTree_refl].
  - destruct (Hcs 0 ltac:(lia)) as (c & Hc & Hlive & Hfuel).
    rewrite Nat.add_0_r in Hc.
    cbn [rangeFrom]. unfold bind at 1. unfold arrayAt, bind, getArray. rewrite Ha, Hc.
    unfold ret at 1.
    destruct (Hbody c w Hwf Hlive Hfuel) as (r & w1 & HB & Hs). rewrite HB.
    destruct r as [err|]; [eexists _, _; split; [reflexivity|exact Hs]|].
    destruct (IH (S i) w1) as (r' & w' & HR & Hs').
    + eapply wf_sameTree; eauto.
    + destruct Hs as (_ & -> & _). exact Ha.
    + intros j Hj. destruct (Hcs (S j) ltac:(lia)) as (c' & Hc' & Hlive' & Hfuel').
      exists c'. rewrite <- Nat.add_succ_comm in Hc'. split; [exact Hc'|].
      split; [eapply sameTree_live; eauto|].
      destruct Hs as (_ & _ & -> & _). exact Hfuel'.
    + exists r', w'. split; [exact HR|]. eapply sameTree_trans; eauto.
Qed.

(** The fuel that [ListR] takes is enough on well-formed memory. *)
Lemma ListR_recurse_ok f (ls : Lister) cb : forall n p w,
  wf w -> is_Some (entries w !! p) -> nextPtr w - p <= n ->
  exists r w', ListR_recurse n f ls cb p w = Ok r w' /\ sameTree w w'.
Proof.
  induction n as [|n IH]; intros p w Hwf Hlive Hfuel.
  - destruct Hlive as [e He]. destruct (wf_entry w Hwf p e He) as (Hlt & _). lia.
  - cbn [ListR_recurse].
    destruct (Fs_list_ok f ls p w Hwf Hlive) as (r & w1 & HL & Hs).
    unfold bind at 1. rewrite HL.
    destruct r as [err|ents]; [eexists _, _; split; [reflexivity|exact Hs]|].
    destruct (cb ents); [eexists _, _; split; [reflexivity|exact Hs]|].
    pose proof (wf_sameTree _ _ Hwf Hs) as Hwf1.
    destruct (sameTree_live _ _ _ Hs Hlive) as [e1 He1].
    unfold bind, deref. rewrite He1.
    destruct (wf_entry w1 Hwf1 p e1 He1) as (Hlt & _ & a & Ha & Hlen & Hnn & Hall).
    destruct (rangeFrom_ok (ListR_recurse n f ls cb) (s_arr (Children e1)) a n IH
                (s_len (Children e1)) 0 w1 Hwf1 Ha) as (r' & w' & HR & Hs').
    + intros j Hj. destruct (lookup_lt_is_Some_2 a j ltac:(lia)) as [c Hc].
      exists c. split; [exact Hc|].
      assert (Hin : c ∈ take (s_len (Children e1)) a).
      { apply elem_of_take. eauto. }
      destruct (Hall c) as [Hpc Hc'];
        [by apply (subseteq_take (s_len (Children e1)) a)|by apply Hnn|].
      split; [exact Hc'|]. destruct Hs as (_ & _ & Hn & _). lia.
    + unfold rangeSlice. rewrite HR. exists r', w'. split; [reflexivity|].
      eapply sameTree_trans; eauto.
Qed.

(** X19.  [ListR] of a directory that is not indexed fails with
    ErrorDirNotFound.  On an indexed directory, on well-formed memory,
    it comes back, whatever the callback answers, and does not change
    the tree; the directory itself is listed first, and when that
    listing fails or the callback refuses it, the error is returned at
    once and no directory below is listed. *)
Theorem ListR_comes_back_and_keeps_the_tree (f : Fs) (ls : Lister) (dir : string)
    (callback : list DirEntry -> option error) (w : World) :
  let d := path_Join [root f; dir] in
  (dirMap_Path (dmap w) !! d = None ->
     Fs_ListR f ls dir callback w = Ok (Some ErrorDirNotFound) w) /\
  (forall entry, wf w -> dirMap_Path (dmap w) !! d = Some entry ->
     exists r w', Fs_ListR f ls dir callback w = Ok r w' /\ sameTree w w' /\
       (forall err w1, Fs_list f ls entry w = Ok (inl err) w1 ->
          r = Some err /\ w' = w1) /\
       (forall ents w1 err, Fs_list f ls entry w = Ok (inr ents) w1 ->
          callback ents = Some err -> r = Some err /\ w' = w1)).
Proof.
  intros d. split.
  - intros Hd. unfold Fs_ListR, bind, lookupPath. fold d. rewrite Hd. reflexivity.
  - intros entry Hwf Hd.
    assert (HE : Fs_ListR f ls dir callback w
                 = ListR_recurse (nextPtr w) f ls callback entry w).
    { unfold Fs_ListR, bind, lookupPath, get. fold d. rewrite Hd. reflexivity. }
    destruct (ListR_recurse_ok f ls callback (nextPtr w) entry w Hwf
                (wf_index w Hwf _ _ Hd) ltac:(lia)) as (r & w' & HR & Hs).
    exists r, w'. rewrite HE. split; [exact HR|]. split; [exact Hs|].
    pose proof (wf_next w Hwf) as Hpos.
    destruct (nextPtr w) as [|n]; [lia|]. cbn [ListR_recurse] in HR.
    unfold bind at 1 in HR. split.
    + intros err w1 HL. rewrite HL in HR. by injection HR as <- <-.
    + intros ents w1 err HL Hcb. rewrite HL, Hcb in HR. by injection HR as <- <-.
Qed.

(** The whole tree, with a callback that refuses the first tranche. *)
Lemma ListR_comes_back_and_keeps_the_tree_witness :
  let w := stateAfter fs0 [OpMkdir "a"; OpMkdir "b"; OpPut "hello" "a/x"] in
  let ls := listerOf [] in
  let callback := fun _ : list DirEntry => Some (ErrNew "stop") in
  dirMap_Path (dmap w) !! path_Join [root fs0; "q"] = None /\
  Fs_ListR fs0 ls "q" callback w = Ok (Some ErrorDirNotFound) w /\
  wf w /\ dirMap_Path (dmap w) !! path_Join [root fs0; ""] = Some 1 /\
  exists r w', Fs_ListR fs0 ls "" callback w = Ok r w' /\ sameTree w w' /\
    (forall err w1, Fs_list fs0 ls 1 w = Ok (inl err) w1 -> r = Some err /\ w' = w1) /\
    (forall ents w1 err, Fs_list fs0 ls 1 w = Ok (inr ents) w1 ->
       callback ents = Some err -> r = Some err /\ w' = w1).
Proof.
  intros w ls callback.
  assert (H1 : dirMap_Path (dmap w) !! path_Join [root fs0; "q"] = None)
    by (vm_compute; reflexivity).
  assert (H2 : wf w) by apply stateAfter_wf.
  assert (H3 : dirMap_Path (dmap w) !! path_Join [root fs0; ""] = Some 1)
    by (vm_compute; reflexivity).
  split; [exact H1|].
  split; [exact (proj1 (ListR_comes_back_and_keeps_the_tree fs0 ls "q" callback w) H1)|].
  split; [exact H2|]. split; [exact H3|].
  exact (proj2 (ListR_comes_back_and_keeps_the_tree fs0 ls "" callback w) 1 H2 H3).
Defined.

(** ** A purge that succeeds *)

Lemma dropAll_in ks : forall (m : gmap string ptr) k, k ∈ ks -> dropAll ks m !! k = None.
Proof.
  induction ks as [|k0 ks IH]; intros m k Hk; [by apply elem_of_nil in Hk|].
  cbn [dropAll foldl]. fold (dropAll ks (delete k0 m)).
  destruct (decide (k ∈ ks)) as [Hin|Hnin]; [by apply IH|].
  apply elem_of_cons in Hk as [->|Hk]; [|done].
  destruct (dropAll ks (delete k0 m) !! k0) as [p|] eqn:E; [|reflexivity].
  apply dropAll_lookup in E. by rewrite lookup_delete_eq in E.
Qed.

Lemma dropAll_notin ks : forall (m : gmap string ptr) k,
  k ∉ ks -> dropAll ks m !! k = m !! k.
Proof.
  induction ks as [|k0 ks IH]; intros m k Hk; [reflexivity|].
  cbn [dropAll foldl]. fold (dropAll ks (delete k0 m)).
  rewrite IH by (intros Hin; apply Hk; by right).
  apply lookup_delete_ne. intros ->. apply Hk. left.
Qed.

(** X13.  After a [Purge] that returned nil, every entry under the
    directory, the directory included, has had its container deleted and
    is in neither index, and the paths of no other entry have left the
    path index; the entries themselves and their lists of children are
    as they were. *)
Theorem Purge_success_unindexes_the_subtree (f : Fs) (dir : string) (w w' : World)
    (entry : ptr) :
  wf w -> dirMap_Path (dmap w) !! path_Join [root f; dir] = Some entry ->
  Purge f dir w = Ok None w' ->
  exists l,
    postorder (nextPtr w) (entries w) (arrays w) entry = Some l /\ entry ∈ l /\
    (forall p, p ∈ l ->
       (CPurge (hashAt w p), None) ∈ trace w' /\
       dirMap_Path (dmap w') !! pathAt w p = None /\
       dirMap_Hash (dmap w') !! hashAt w p = None) /\
    (forall k, (forall p, p ∈ l -> pathAt w p <> k) ->
       dirMap_Path (dmap w') !! k = dirMap_Path (dmap w) !! k) /\
    entries w' = entries w /\ arrays w' = arrays w.
Proof.
  intros Hwf Hd HP. unfold Purge in HP.
  destruct (feat_Purge (base f)); [|discriminate]. cbn [negb] in HP.
  unfold bind, lookupPath, get in HP. rewrite Hd in HP.
  destruct (postorder_defined w Hwf (nextPtr w) entry) as [l Hl];
    [eapply wf_index; eauto|lia|].
  rewrite (Purge_purge_postorder f _ _ _ _ Hl) in HP.
  destruct (purgeEach_spec f l w)
    as (r & w1 & done & rest & HE & -> & Hn & Hs & Hent & Htr & HPa & HHa).
  { intros q Hq. eapply postorder_elem; eauto. }
  rewrite HE in HP.
  destruct (dirMap_write f w1) as [werr w2| |] eqn:HW; try discriminate.
  pose proof (purgeEach_heap _ _ _ _ _ HE) as (_ & Harr & _).
  apply dirMap_write_spec in HW as [bytes ->].
  destruct werr; [discriminate|]. injection HP as -> <-.
  rewrite (Hn eq_refl), app_nil_r in *.
  exists done. split; [exact Hl|]. split.
  { destruct (nextPtr w) as [|n]; [discriminate|]. cbn [postorder] in Hl.
    destruct (childrenIn _ _ _); [|discriminate].
    destruct (mapM _ _); [|discriminate]. injection Hl as <-.
    apply elem_of_app. right. left. }
  split; [|split; [|split; [exact Hent|exact Harr]]].
  - intros p Hp. cbn [trace dmap set_trace]. split; [|split].
    + rewrite Htr. apply elem_of_app. left. apply elem_of_app. right.
      unfold purgeEvents. apply elem_of_app. left.
      apply list_elem_of_fmap. eauto.
    + rewrite HPa. apply dropAll_in. apply list_elem_of_fmap. eauto.
    + rewrite HHa. apply dropAll_in. apply list_elem_of_fmap. eauto.
  - intros k Hk. cbn [dmap set_trace]. rewrite HPa. apply dropAll_notin.
    intros Hin. apply list_elem_of_fmap in Hin as (p & -> & Hp). by apply (Hk p).
Qed.

(** The directory a with its children a/1 and a/2, purged. *)
Lemma Purge_success_unindexes_the_subtree_witness :
  let w := stateAfter fs0 [OpMkdir "a/1"; OpMkdir "a/2"] in
  let w' := after (Purge fs0 "a") w in
  wf w /\ dirMap_Path (dmap w) !! path_Join [root fs0; "a"] = Some 2 /\
  Purge fs0 "a" w = Ok None w' /\
  exists l,
    postorder (nextPtr w) (entries w) (arrays w) 2 = Some l /\ 2 ∈ l /\
    (forall p, p ∈ l ->
       (CPurge (hashAt w p), None) ∈ trace w' /\
       dirMap_Path (dmap w') !! pathAt w p = None /\
       dirMap_Hash (dmap w') !! hashAt w p = None) /\
    (forall k, (forall p, p ∈ l -> pathAt w p <> k) ->
       dirMap_Path (dmap w') !! k = dirMap_Path (dmap w) !! k) /\
    entries w' = entries w /\ arrays w' = arrays w.
Proof.
  intros w w'.
  assert (H1 : wf w) by apply stateAfter_wf.
  assert (H2 : dirMap_Path (dmap w) !! path_Join [root fs0; "a"] = Some 2)
    by (vm_compute; reflexivity).
  assert (H3 : Purge fs0 "a" w = Ok None w') by (vm_compute; reflexivity).
  split; [exact H1|]. split; [exact H2|]. split; [exact H3|].
  exact (Purge_success_unindexes_the_subtree fs0 "a" w w' 2 H1 H2 H3).
Defined.

(** ** Writing a file index after a load that failed, in both revisions *)

(** X7.  When the first load of a file index fails with an error other
    than not-found, [write] of the earlier entries.go returns the error
    wrapped, and called again it replaces the stored index by an empty
    one; [write] of the later entries.go, after the same failed load,
    writes nothing and says that the map file is not loaded. *)
Theorem write_after_a_failed_load (f : Fs) (d : ptr) (w : World) (e : dirEntry)
    (err : error) :
  entries w !! d = Some e -> files e = None ->
  let k := path_Join [Hash e; "map"] in
  reply (base f) (trace w) (CNewObject k) = Some err ->
  errors_Is err ErrorObjectNotFound = false ->
  let t1 := trace w ++ [(CNewObject k, Some err)] in
  let w1 := set_trace (set_entries w (<[d := set_files e (Some ∅)]> (entries w))) t1 in
  Earlier.dirEntry_write f d w = Ok (Some (ErrorfW msg_fetch_files err)) w1 /\
  Earlier.dirEntry_write f d w1 = call f (CPut k "") w1 /\
  exists w2,
    Files f d w = Ok (inl err) w2 /\ trace w2 = t1 /\
    dirEntry_write f d w2 = Ok (Some (ErrNew msg_not_loaded)) w2.
Proof.
  intros He Hf k Hr Hnf t1 w1. split; [|split].
  - unfold Earlier.dirEntry_write, bind, Earlier.Files, bind, deref. rewrite He, Hf.
    unfold setFiles, bind, deref, store, modify. rewrite He.
    unfold readMapFile, bind, call. cbn [trace set_entries]. fold k.
    rewrite Hr, Hnf. reflexivity.
  - unfold Earlier.dirEntry_write, bind, Earlier.Files, bind, deref.
    assert (Hl : <[d := set_files e (Some ∅)]> (entries w) !! d
                 = Some (set_files e (Some ∅))) by apply lookup_insert_eq.
    subst w1. cbn [entries set_trace set_entries]. rewrite Hl.
    cbn [files set_files ret entries set_trace set_entries]. rewrite Hl. reflexivity.
  - eexists. split; [|split].
    + unfold Files, bind, fillFiles, bind, deref. rewrite He, Hf.
      unfold setFiles, bind, deref, store, modify. rewrite He.
      unfold readMapFile, bind, call. cbn [trace set_entries]. fold k.
      rewrite Hr, Hnf. cbn [ret entries set_trace set_entries].
      rewrite lookup_insert_eq. reflexivity.
    + reflexivity.
    + unfold dirEntry_write, bind, deref. cbn [entries set_entries set_trace].
      rewrite lookup_insert_eq. reflexivity.
Qed.

(** The first look for the file index of "a" times out. *)
Lemma write_after_a_failed_load_witness :
  let f := fsTimeout in
  let w := stateAfter fs0 [OpMkdir "a"] in
  let e := entryOf "a" 1 1 0 None in
  let err := ErrNew "timeout" in
  let k := path_Join [Hash e; "map"] in
  let t1 := trace w ++ [(CNewObject k, Some err)] in
  let w1 := set_trace (set_entries w (<[2 := set_files e (Some ∅)]> (entries w))) t1 in
  entries w !! 2 = Some e /\ files e = None /\
  reply (base f) (trace w) (CNewObject k) = Some err /\
  errors_Is err ErrorObjectNotFound = false /\
  Earlier.dirEntry_write f 2 w = Ok (Some (ErrorfW msg_fetch_files err)) w1 /\
  Earlier.dirEntry_write f 2 w1 = call f (CPut k "") w1 /\
  exists w2,
    Files f 2 w = Ok (inl err) w2 /\ trace w2 = t1 /\
    dirEntry_write f 2 w2 = Ok (Some (ErrNew msg_not_loaded)) w2.
Proof.
  intros f w e err k t1 w1.
  assert (H1 : entries w !! 2 = Some e) by (vm_compute; reflexivity).
  assert (H2 : files e = None) by reflexivity.
  assert (H3 : reply (base f) (trace w) (CNewObject k) = Some err)
    by (vm_compute; reflexivity).
  assert (H4 : errors_Is err ErrorObjectNotFound = false) by reflexivity.
  split; [exact H1|]. split; [exact H2|]. split; [exact H3|]. split; [exact H4|].
  exact (write_after_a_failed_load f 2 w e err H1 H2 H3 H4).
Defined.

(** ** The file index that Put writes *)

(** X21.  The last thing a [Put] that succeeded has asked of the remote
    is to write the file index of the directory, in which the name of
    the file is mapped to the hash of the name. *)
Theorem Put_writes_the_file_index (f : Fs) (data remote : string) (w : World)
    (o : object) (w' : World) :
  Put f data remote w = Ok (Some o, None) w' ->
  exists e m evs,
    entries w' !! o_dirEntry o = Some e /\ files e = Some m /\
    m !! snd (path_Split remote) = Some (hasher f (snd (path_Split remote))) /\
    trace w' = evs ++ [(CPut (path_Join [Hash e; "map"]) (fileIndexBytes m), None)].
Proof.
  intros H. unfold Put, put in H.
  destruct (containsChar nl remote); [discriminate|].
  unfold toHash in H. destruct (path_Split remote) as [par leaf]. cbn [fst snd] in *.
  unfold bind at 1 2 in H. unfold lookupPath at 1 in H. cbn [ret] in H.
  destruct (dirMap_Path (dmap w) !! _) as [entry|]; [|discriminate].
  unfold bind at 1 in H. unfold deref at 1 in H.
  destruct (entries w !! entry) as [e|]; [|discriminate].
  unfold bind at 1 in H.
  destruct (prepareDest f _ _ _ w) as [perr w1| |]; try discriminate.
  destruct perr; [discriminate|].
  unfold bind at 1 in H.
  destruct (call f _ w1) as [derr w2| |]; try discriminate.
  destruct derr; [discriminate|].
  unfold bind at 1 in H.
  destruct (Files f entry w2) as [fl w3| |]; try discriminate.
  destruct fl as [?|fls]; [discriminate|].
  unfold bind at 1 in H.
  destruct (filesInsert entry leaf (hasher f leaf) w3) as [u w4| |] eqn:HI;
    try discriminate.
  apply filesInsert_spec in HI as (e3 & m & He3 & Hm & ->).
  unfold bind in H.
  destruct (dirEntry_write f entry _) as [werr w5| |] eqn:HW; try discriminate.
  injection H as <- -> <-. cbn [o_dirEntry].
  unfold dirEntry_write, bind, deref in HW. cbn [entries set_entries] in HW.
  rewrite lookup_insert_eq in HW. cbn [files set_files Hash] in HW.
  apply call_spec in HW as [_ ->].
  exists (set_files e3 (Some (<[leaf := hasher f leaf]> m))), (<[leaf := hasher f leaf]> m),
    (trace w3).
  split; [cbn [entries set_trace set_entries]; apply lookup_insert_eq|].
  split; [reflexivity|]. split; [apply lookup_insert_eq|reflexivity].
Qed.

(** a/x put into directory "a". *)
Lemma Put_writes_the_file_index_witness :
  let w := stateAfter fs0 [OpMkdir "a"] in
  let o := {| obj := "a/x/data"; o_path := "a/x"; basePath := "a/x";
              o_dirEntry := 2 |} in
  let w' := after (Put fs0 "hello" "a/x") w in
  Put fs0 "hello" "a/x" w = Ok (Some o, None) w' /\
  exists e m evs,
    entries w' !! o_dirEntry o = Some e /\ files e = Some m /\
    m !! snd (path_Split "a/x") = Some (hasher fs0 (snd (path_Split "a/x"))) /\
    trace w' = evs ++ [(CPut (path_Join [Hash e; "map"]) (fileIndexBytes m), None)].
Proof.
  intros w o w'.
  assert (H1 : Put fs0 "hello" "a/x" w = Ok (Some o, None) w')
    by (vm_compute; reflexivity).
  split; [exact H1|].
  exact (Put_writes_the_file_index fs0 "hello" "a/x" w o w' H1).
Defined.

(** ** The tree stays in agreement with the path index *)

Lemma linked_sameTree w w' : sameTree w w' -> linked w -> linked w'.
Proof.
  intros Hs [Hp Hr Hc]. pose proof (sameTree_sym _ _ Hs) as Hs'.
  assert (Hd : dmap w' = dmap w) by apply Hs.
  split.
  - intros k p e' Hk He'. rewrite Hd in Hk.
    destruct (sameTree_lookup _ _ _ _ Hs' He') as (e & He & Hsk).
    unfold skeleton in Hsk. injection Hsk as HP _ _ _. rewrite <- HP. eauto.
  - intros k p e' Hk He'. rewrite Hd in Hk.
    destruct (sameTree_lookup _ _ _ _ Hs' He') as (e & He & Hsk).
    unfold skeleton in Hsk. injection Hsk as _ _ HPa _. rewrite <- HPa. eauto.
  - intros k p e' parent Hk He' Hpar. rewrite Hd in Hk.
    destruct (sameTree_lookup _ _ _ _ Hs' He') as (e & He & Hsk).
    unfold skeleton in Hsk. injection Hsk as _ _ HPa _.
    rewrite (sameTree_childrenOf w w' parent Hs). eapply Hc; eauto. congruence.
Qed.

Lemma linked_grows f w w' : wf w -> grows f w w' -> linked w -> linked w'.
Proof.
  intros Hwf Hg [Hp Hr Hc]. split.
  - intros k p e' Hk He'.
    destruct (dirMap_Path (dmap w) !! k) as [q|] eqn:Hk0.
    + pose proof (grows_index _ _ _ Hg k q Hk0) as Hk1.
      rewrite Hk in Hk1. injection Hk1 as ->.
      destruct (wf_index w Hwf k q Hk0) as [e0 He0].
      destruct (grows_entries _ _ _ Hg q e0 He0) as (e1 & He1 & HP & _).
      rewrite He' in He1. injection He1 as <-. rewrite HP. eauto.
    + destruct (grows_new _ _ _ Hg k p Hk Hk0) as (_ & e1 & He1 & HP & _).
      rewrite He' in He1. injection He1 as <-. exact HP.
  - intros k p e' Hk He'.
    destruct (dirMap_Path (dmap w) !! k) as [q|] eqn:Hk0.
    + pose proof (grows_index _ _ _ Hg k q Hk0) as Hk1.
      rewrite Hk in Hk1. injection Hk1 as ->.
      destruct (wf_index w Hwf k q Hk0) as [e0 He0].
      destruct (grows_entries _ _ _ Hg q e0 He0) as (e1 & He1 & _ & _ & HPa & _).
      rewrite He' in He1. injection He1 as <-. rewrite HPa. eauto.
    + destruct (grows_new _ _ _ Hg k p Hk Hk0)
        as (_ & e1 & He1 & _ & _ & _ & Hrest).
      rewrite He' in He1. injection He1 as <-.
      destruct (String.eqb k "") eqn:Hk1.
      * apply String.eqb_eq in Hk1. tauto.
      * apply String.eqb_neq in Hk1. destruct Hrest as (pp & Hpp & _).
        split; [congruence|tauto].
  - intros k p e' parent Hk He' Hpar.
    destruct (dirMap_Path (dmap w) !! k) as [q|] eqn:Hk0.
    + pose proof (grows_index _ _ _ Hg k q Hk0) as Hk1.
      rewrite Hk in Hk1. injection Hk1 as ->.
      destruct (wf_index w Hwf k q Hk0) as [e0 He0].
      destruct (grows_entries _ _ _ Hg q e0 He0) as (e1 & He1 & _ & _ & HPa & _).
      rewrite He' in He1. injection He1 as <-.
      apply (grows_children _ _ _ Hg). eapply Hc; eauto. congruence.
    + destruct (grows_new _ _ _ Hg k p Hk Hk0)
        as (_ & e1 & He1 & _ & _ & _ & Hrest).
      rewrite He' in He1. injection He1 as <-.
      destruct (String.eqb k ""); [congruence|].
      destruct Hrest as (pp & Hpp & _ & Hin). congruence.
Qed.

Lemma keeps_bind {A B} (m : M A) (k : A -> M B) :
  keeps m -> (forall a, keeps (k a)) -> keeps (bind m k).
Proof.
  intros Hm Hk w b w' Hwf Hl. unfold bind.
  destruct (m w) as [a w1| |] eqn:E; try discriminate.
  intros H. destruct (Hm w a w1 Hwf Hl E) as [Hwf1 Hl1]. eapply Hk; eauto.
Qed.

Lemma keeps_sameTree {A} (m : M A) :
  (forall w a w', m w = Ok a w' -> sameTree w w') -> keeps m.
Proof.
  intros H w a w' Hwf Hl E. apply H in E. split.
  - eapply wf_sameTree; eauto.
  - eapply linked_sameTree; eauto.
Qed.

Lemma keeps_same {A} (m : M A) :
  (forall w a w', m w = Ok a w' -> w' = w) -> keeps m.
Proof. intros H w a w' Hwf Hl E. apply H in E. subst. auto. Qed.

Lemma keeps_ret {A} (a : A) : keeps (ret a).
Proof. apply keeps_same. intros w b w' H. by injection H. Qed.
Lemma keeps_panic {A} msg : keeps (@panic A msg).
Proof. intros w b w' _ _ H. discriminate. Qed.
Lemma keeps_get : keeps get.
Proof. apply keeps_same. intros w b w' H. by injection H. Qed.
Lemma keeps_deref p : keeps (deref p).
Proof.
  apply keeps_same. intros w b w'. unfold deref. destruct (_ !! _); [|discriminate].
  intros H. by injection H.
Qed.
Lemma keeps_getArray a : keeps (getArray a).
Proof.
  apply keeps_same. intros w b w'. unfold getArray. destruct (_ !! _); [|discriminate].
  intros H. by injection H.
Qed.
Lemma keeps_arrayAt a i : keeps (arrayAt a i).
Proof.
  unfold arrayAt. apply keeps_bind; [apply keeps_getArray|].
  intros l. destruct (l !! i); [apply keeps_ret|apply keeps_panic].
Qed.
Lemma keeps_lookupPath p : keeps (lookupPath p).
Proof. apply keeps_same. intros w b w' H. by injection H. Qed.
Lemma keeps_lookupHash p : keeps (lookupHash p).
Proof. apply keeps_same. intros w b w' H. by injection H. Qed.
Lemma keeps_call f c : keeps (call f c).
Proof.
  apply keeps_sameTree. intros w b w' H. apply call_spec in H as [_ ->].
  apply sameTree_set_trace.
Qed.
Lemma keeps_openObj f r : keeps (openObj f r).
Proof.
  apply keeps_sameTree. intros w b w' H. apply openObj_spec in H as [err ->].
  apply sameTree_set_trace.
Qed.
Lemma keeps_setFiles d m : keeps (setFiles d m).
Proof.
  apply keeps_sameTree. intros w b w' H. apply setFiles_spec in H as (e & He & ->).
  by apply sameTree_set_files.
Qed.
Lemma keeps_filesInsert d n h : keeps (filesInsert d n h).
Proof. apply keeps_sameTree. intros w b w' H. by apply filesInsert_frame in H as [Hs _]. Qed.
Lemma keeps_filesDelete d n : keeps (filesDelete d n).
Proof.
  apply keeps_sameTree. intros w b w'.
  unfold filesDelete, bind, deref, store, modify, ret.
  destruct (entries w !! d) as [e|] eqn:He; [|discriminate].
  destruct (files e); intros H; injection H as _ <-; [|apply sameTree_refl].
  by apply sameTree_set_files.
Qed.

(** Dropping a path from the index. *)
Lemma keeps_unregister p h : keeps (unregister p h).
Proof.
  intros w b w' Hwf [Hp Hr Hc] H. split; [eapply preserves_unregister; eauto|].
  unfold unregister, modify in H. injection H as _ <-. split.
  - intros k q e Hk He. cbn in Hk, He. apply lookup_delete_Some in Hk as [_ Hk]. eauto.
  - intros k q e Hk He. cbn in Hk, He. apply lookup_delete_Some in Hk as [_ Hk]. eauto.
  - intros k q e parent Hk He Hpar. cbn in Hk, He.
    apply lookup_delete_Some in Hk as [_ Hk].
    change (childrenOf (set_dmap w _) parent) with (childrenOf w parent). eauto.
Qed.

(** Making an entry, with the parents that are missing. *)
Lemma keeps_newDirEntry f p : keeps (newDirEntry f p).
Proof.
  intros w u w' Hwf Hl H.
  destruct (newDirEntry_grows f p w Hwf) as (w1 & H1 & Hwf1 & Hg & _).
  rewrite H1 in H. injection H as H. subst w'. split; [exact Hwf1|].
  exact (linked_grows f w w1 Hwf Hg Hl).
Qed.

(** Taking an entry out: under the agreement of tree and index the
    entry is found among the children of its parent. *)
Lemma keeps_removeEntry path : keeps (removeEntry path).
Proof.
  intros w u w' Hwf Hl H. split; [eapply preserves_removeEntry; eauto|].
  destruct (dirMap_Path (dmap w) !! path) as [entry|] eqn:Hpath.
  2:{ unfold removeEntry, bind, lookupPath in H. rewrite Hpath in H.
      injection H as H. subst w'. exact Hl. }
  destruct (wf_index w Hwf path entry Hpath) as [e He].
  destruct (Parent e) as [parent|] eqn:Hpar.
  2:{ unfold removeEntry, bind, lookupPath, deref in H.
      rewrite Hpath, He, Hpar in H. discriminate. }
  pose proof (linked_child w Hl path entry e parent Hpath He Hpar) as Hin.
  destruct (removeEntry_linked path w entry e parent Hwf Hpath He Hpar Hin)
    as (w1 & before & after & HR & Hwf1 & Hb & Hnb & Ha & Hoth & HP & HH & Htr
        & Hent & Hents & Hskel).
  rewrite HR in H. injection H as H. subst w'.
  assert (Hne : forall k p, dirMap_Path (dmap w1) !! k = Some p ->
            k <> path /\ dirMap_Path (dmap w) !! k = Some p).
  { intros k p Hk. rewrite HP in Hk. apply lookup_delete_Some in Hk as [Hk1 Hk2].
    split; [congruence|exact Hk2]. }
  split.
  - intros k p e1 Hk He1. destruct (Hne k p Hk) as [_ Hk0].
    destruct (Hskel p e1 He1) as (e0 & He0 & HPa & _).
    rewrite <- HPa. eapply linked_path; eauto.
  - intros k p e1 Hk He1. destruct (Hne k p Hk) as [_ Hk0].
    destruct (Hskel p e1 He1) as (e0 & He0 & _ & _ & HPar & _).
    rewrite <- HPar. eapply linked_root; eauto.
  - intros k p e1 par Hk He1 Hpar1. destruct (Hne k p Hk) as [Hkne Hk0].
    destruct (Hskel p e1 He1) as (e0 & He0 & _ & _ & HPar & _).
    assert (Hin0 : p ∈ childrenOf w par).
    { eapply linked_child; eauto. congruence. }
    destruct (decide (par = parent)) as [->|Hpne]; [|by rewrite Hoth].
    rewrite Ha. rewrite Hb in Hin0.
    apply elem_of_app in Hin0 as [Hin0|Hin0]; [apply elem_of_app; by left|].
    apply elem_of_cons in Hin0 as [->|Hin0]; [|apply elem_of_app; by right].
    exfalso. apply Hkne.
    rewrite <- (linked_path w Hl k entry e Hk0 He).
    apply (linked_path w Hl path entry e Hpath He).
Qed.

Create HintDb keeps.
#[export] Hint Resolve keeps_ret keeps_panic keeps_get keeps_deref
  keeps_getArray keeps_arrayAt keeps_lookupPath keeps_lookupHash
  keeps_call keeps_openObj keeps_unregister keeps_setFiles
  keeps_filesInsert keeps_filesDelete keeps_newDirEntry keeps_removeEntry : keeps.

Ltac keeps_step :=
  match goal with
  | |- keeps (bind _ _) => apply keeps_bind; [|intros ?]
  | |- keeps (match ?x with _ => _ end) => destruct x
  | |- keeps (if ?x then _ else _) => destruct x
  | |- keeps (let '(_, _) := ?x in _) => destruct x
  | |- keeps _ => solve [auto with keeps]
  end.
Ltac keeps_tac := repeat keeps_step.

Lemma keeps_fillLines d lines : keeps (fillLines d lines).
Proof. induction lines; simpl; keeps_tac. Qed.
#[export] Hint Resolve keeps_fillLines : keeps.
Lemma keeps_readMapFile f d r : keeps (readMapFile f d r).
Proof. unfold readMapFile. keeps_tac. Qed.
#[export] Hint Resolve keeps_readMapFile : keeps.
Lemma keeps_fillFiles f d : keeps (fillFiles f d).
Proof. unfold fillFiles. keeps_tac. Qed.
#[export] Hint Resolve keeps_fillFiles : keeps.
Lemma keeps_Files f d : keeps (Files f d).
Proof. unfold Files. keeps_tac. Qed.
#[export] Hint Resolve keeps_Files : keeps.
Lemma keeps_dirEntry_write f d : keeps (dirEntry_write f d).
Proof. unfold dirEntry_write. keeps_tac. Qed.
#[export] Hint Resolve keeps_dirEntry_write : keeps.
Lemma keeps_rootIndexLines paths : keeps (rootIndexLines paths).
Proof. induction paths; simpl; keeps_tac. Qed.
#[export] Hint Resolve keeps_rootIndexLines : keeps.
Lemma keeps_dirMap_write f : keeps (dirMap_write f).
Proof. unfold dirMap_write. keeps_tac. Qed.
#[export] Hint Resolve keeps_dirMap_write : keeps.

Lemma keeps_rangeFrom a body : (forall v, keeps (body v)) ->
  forall k i, keeps (rangeFrom a k i body).
Proof.
  intros Hb. induction k as [|k IH]; intros i; cbn [rangeFrom]; keeps_tac; auto.
Qed.

Lemma keeps_rangeSlice s body :
  (forall v, keeps (body v)) -> keeps (rangeSlice s body).
Proof. intros H. apply keeps_rangeFrom. exact H. Qed.

Lemma keeps_rewriteNames f h d fls : keeps (rewriteNames f h d fls).
Proof. induction fls as [|[n k] fls IH]; cbn [rewriteNames]; keeps_tac. Qed.
#[export] Hint Resolve keeps_rewriteNames : keeps.

Lemma keeps_rewriteNameFiles f d : keeps (rewriteNameFiles f d).
Proof. unfold rewriteNameFiles. keeps_tac. Qed.
#[export] Hint Resolve keeps_rewriteNameFiles : keeps.

Lemma keeps_DirMove_recurse f s d n : forall entry,
  keeps (DirMove_recurse n f s d entry).
Proof.
  induction n as [|n IH]; intros entry; [intros w a w' _ _ H; discriminate|].
  cbn [DirMove_recurse]. keeps_tac. apply keeps_rangeSlice. exact IH.
Qed.

Lemma keeps_Purge_purge f n : forall entry, keeps (Purge_purge n f entry).
Proof.
  induction n as [|n IH]; intros entry; [intros w a w' _ _ H; discriminate|].
  cbn [Purge_purge]. keeps_tac. apply keeps_rangeSlice. exact IH.
Qed.

#[export] Hint Resolve keeps_DirMove_recurse keeps_Purge_purge : keeps.

Lemma keeps_loadLines f lines : keeps (loadLines f lines).
Proof. induction lines; cbn [loadLines]; keeps_tac. Qed.
#[export] Hint Resolve keeps_loadLines : keeps.

(** A new directory map: the index is emptied, then the root is made. *)
Lemma keeps_newDirMap f : keeps (newDirMap f).
Proof.
  unfold newDirMap. apply keeps_bind; [|intros; auto with keeps].
  intros w u w' Hwf _ H. unfold modify in H. injection H as _ <-. split.
  - apply wf_set_dmap; [exact Hwf|]. simpl. intros k p Hk.
    rewrite lookup_empty in Hk. discriminate.
  - split; cbn; intros k p e; intros; rewrite lookup_empty in *; discriminate.
Qed.
#[export] Hint Resolve keeps_newDirMap : keeps.

Lemma keeps_toHash f r : keeps (toHash f r).
Proof. unfold toHash. keeps_tac. Qed.
Lemma keeps_prepareDest f o d h : keeps (prepareDest f o d h).
Proof. unfold prepareDest. keeps_tac. Qed.
#[export] Hint Resolve keeps_toHash keeps_prepareDest : keeps.

Lemma keeps_NewFs f : keeps (NewFs f).
Proof. unfold NewFs, loadDirectoryMap. keeps_tac. Qed.
Lemma keeps_Mkdir f dir : keeps (Mkdir f dir).
Proof. unfold Mkdir. keeps_tac. Qed.
Lemma keeps_Rmdir f dir : keeps (Rmdir f dir).
Proof. unfold Rmdir. keeps_tac. Qed.
Lemma keeps_Purge f dir : keeps (Purge f dir).
Proof. unfold Purge. keeps_tac. Qed.
Lemma keeps_DirMove n f s d : keeps (DirMove n f s d).
Proof. unfold DirMove. keeps_tac. Qed.
Lemma keeps_NewObject f r : keeps (NewObject f r).
Proof. unfold NewObject. keeps_tac. Qed.
Lemma keeps_Put f data r : keeps (Put f data r).
Proof. unfold Put, put. keeps_tac. Qed.
Lemma keeps_Copy f o r : keeps (Copy f o r).
Proof. unfold Copy. keeps_tac. Qed.
Lemma keeps_Remove f o : keeps (Remove f o).
Proof. unfold Remove. keeps_tac. Qed.
Lemma keeps_wrappedNotify f p t : keeps (wrappedNotify f p t).
Proof. unfold wrappedNotify. keeps_tac. Qed.
#[export] Hint Resolve keeps_wrappedNotify : keeps.
Lemma keeps_ChangeNotify f evs : keeps (ChangeNotify f evs).
Proof.
  unfold ChangeNotify. destruct (feat_ChangeNotify (base f)); [|auto with keeps].
  induction evs as [|[p t] evs IH]; cbn [notifyAll]; keeps_tac.
Qed.

Lemma keeps_exec f op : keeps (exec f op).
Proof.
  destruct op; cbn [exec]; keeps_tac;
    auto using keeps_NewFs, keeps_Mkdir, keeps_Rmdir, keeps_Purge,
      keeps_DirMove, keeps_NewObject, keeps_Put, keeps_Copy,
      keeps_Remove, keeps_ChangeNotify.
Qed.

Lemma linked_emptyWorld : linked emptyWorld.
Proof. split; cbn; intros k p e; intros; rewrite lookup_empty in *; discriminate. Qed.

Lemma reachable_states_linked (f : Fs) (ops : list Op) (w : World) :
  runOps f ops = Ok tt w -> wf w /\ linked w.
Proof.
  unfold runOps, bind. destruct (NewFs f emptyWorld) as [r w1| |] eqn:E; try discriminate.
  apply keeps_NewFs in E; [|apply wf_emptyWorld|apply linked_emptyWorld].
  revert w1 E. induction ops as [|op ops IH]; intros w1 Hw1 H.
  - injection H as <-. exact Hw1.
  - cbn [execAll] in H. unfold bind in H.
    destruct (exec f op w1) as [u w2| |] eqn:E; try discriminate.
    eapply IH; [|exact H]. destruct Hw1. eapply keeps_exec; eauto.
Qed.

(** On a tree that agrees with the index [Rmdir] comes back for every
    directory but the one with the empty path. *)
Lemma Rmdir_comes_back f dir w :
  wf w -> linked w -> path_Join [root f; dir] <> "" ->
  exists r w', Rmdir f dir w = Ok r w'.
Proof.
  intros Hwf Hl Hne. unfold Rmdir, bind, lookupPath.
  set (d := path_Join [root f; dir]) in *.
  destruct (dirMap_Path (dmap w) !! d) as [entry|] eqn:Hd; [|by eexists _, _].
  destruct (Files_ok f entry w) as (fl & w1 & HF & Hs); [eapply wf_index; eauto|].
  rewrite HF. destruct fl as [err|fls]; [by eexists _, _|].
  pose proof (wf_sameTree _ _ Hwf Hs) as Hwf1.
  pose proof (linked_sameTree _ _ Hs Hl) as Hl1.
  assert (Hd1 : dirMap_Path (dmap w1) !! d = Some entry).
  { destruct Hs as (-> & _). exact Hd. }
  destruct (wf_index w1 Hwf1 d entry Hd1) as [e He].
  unfold deref. rewrite He.
  destruct ((0 <? size fls) || (0 <? s_len (Children e))); [by eexists _, _|].
  destruct (Parent e) as [parent|] eqn:Hpar.
  2:{ exfalso. apply Hne. by apply (linked_root w1 Hl1 d entry e Hd1 He). }
  pose proof (linked_child w1 Hl1 d entry e parent Hd1 He Hpar) as Hin.
  destruct (removeEntry_linked d w1 entry e parent Hwf1 Hd1 He Hpar Hin)
    as (w2 & before & after & HR & Hwf2 & _).
  rewrite HR. rewrite dirMap_write_exact by (intros k p; apply (wf_index w2 Hwf2)).
  unfold call. destruct (reply _ _ (CPut _ _)); [by eexists _, _|].
  destruct (reply _ _ (COperationsPurge _)) as [err|]; [|by eexists _, _].
  destruct (errors_Is err ErrorDirNotFound); by eexists _, _.
Qed.

(** X29.  In every state in which a run of [NewFs] and operations of
    the backend comes back, the tree agrees with the path index: an
    indexed path points at the entry of that path, the entry of the
    empty path is the only indexed entry without a parent, and every
    other indexed entry is among the children of its parent.  So
    [removeEntry] comes back for every path but the empty one, and
    [Rmdir] comes back for every directory whose joined path is not
    empty: the panic for an inconsistent tree is never met. *)
Theorem reached_trees_agree_with_the_index (f : Fs) (ops : list Op) (w : World) :
  runOps f ops = Ok tt w ->
  linked w /\
  (forall path, path <> "" -> exists w', removeEntry path w = Ok tt w') /\
  (forall dir, path_Join [root f; dir] <> "" ->
     exists r w', Rmdir f dir w = Ok r w').
Proof.
  intros Hrun. destruct (reachable_states_linked f ops w Hrun) as [Hwf Hl].
  split; [exact Hl|]. split.
  - intros path Hne. unfold removeEntry, bind, lookupPath.
    destruct (dirMap_Path (dmap w) !! path) as [entry|] eqn:Hp; [|by eexists].
    destruct (wf_index w Hwf path entry Hp) as [e He].
    destruct (Parent e) as [parent|] eqn:Hpar.
    2:{ exfalso. apply Hne. by apply (linked_root w Hl path entry e Hp He). }
    pose proof (linked_child w Hl path entry e parent Hp He Hpar) as Hin.
    destruct (removeEntry_linked path w entry e parent Hwf Hp He Hpar Hin)
      as (w2 & before & after & HR & _).
    exists w2. unfold removeEntry, bind, lookupPath in HR. rewrite Hp in HR. exact HR.
  - intros dir Hne. by apply Rmdir_comes_back.
Qed.

(** A run with a purge, a directory made again, a move and a removal. *)
Lemma reached_trees_agree_with_the_index_witness :
  let ops := [OpMkdir "a/1"; OpMkdir "a/2"; OpDirMove 7 "a" "a/2/x/y/z/w";
              OpPurge "a/2/x"; OpMkdir "a"; OpRmdir "a"] in
  let w := stateAfter fs0 ops in
  runOps fs0 ops = Ok tt w /\
  linked w /\
  (forall path, path <> "" -> exists w', removeEntry path w = Ok tt w') /\
  (forall dir, path_Join [root fs0; dir] <> "" ->
     exists r w', Rmdir fs0 dir w = Ok r w').
Proof.
  intros ops w.
  assert (H1 : runOps fs0 ops = Ok tt w) by (vm_compute; reflexivity).
  split; [exact H1|].
  exact (reached_trees_agree_with_the_index fs0 ops w H1).
Defined.

(** * The claims, one by one *)

(** ** The directory tree after Purge *)

(** C1 (the code breaks the claim).  [Purge] drops a node from both
    indices and leaves it in its parent's [Children]; making the
    directory again puts a second entry with the same path and the same
    key next to it, so the tree holds two distinct entries that share
    LogicalPath and StorageKey. *)
Theorem Purge_breaks_tree_invariant :
  let w := stateAfter fs0 [OpMkdir "a"; OpPurge "a"; OpMkdir "a"] in
  dirMap_Path (dmap w) !! "" = Some 1 /\
  childrenOf w 1 = [2; 3] /\
  skeleton <$> entries w !! 2
    = Some ("a", "a", Some 1, {| s_arr := 1; s_len := 0 |}) /\
  skeleton <$> entries w !! 3
    = Some ("a", "a", Some 1, {| s_arr := 3; s_len := 0 |}) /\
  ~ tree_invariant fs0 w.
Proof.
  intros w.
  assert (Hroot : dirMap_Path (dmap w) !! "" = Some 1) by (vm_compute; reflexivity).
  assert (Hch : childrenOf w 1 = [2; 3]) by (vm_compute; reflexivity).
  assert (H2 : skeleton <$> entries w !! 2
               = Some ("a", "a", Some 1, {| s_arr := 1; s_len := 0 |}))
    by (vm_compute; reflexivity).
  assert (H3 : skeleton <$> entries w !! 3
               = Some ("a", "a", Some 1, {| s_arr := 3; s_len := 0 |}))
    by (vm_compute; reflexivity).
  conjs; try assumption.
  clearbody w. intros (_ & _ & Hdistinct).
  assert (R1 : reachable w 1) by (apply reach_root; exact Hroot).
  assert (R2 : reachable w 2).
  { apply (reach_child w 1 2 R1). rewrite Hch. left. }
  assert (R3 : reachable w 3).
  { apply (reach_child w 1 3 R1). rewrite Hch. right. left. }
  destruct (entries w !! 2) as [e2|] eqn:E2; [|discriminate].
  destruct (entries w !! 3) as [e3|] eqn:E3; [|discriminate].
  destruct (Hdistinct 2 3 e2 e3 R2 R3 E2 E3) as [Hp _]; [discriminate|].
  apply Hp. cbn [fmap option_fmap option_map] in H2, H3.
  unfold skeleton in H2, H3. congruence.
Qed.

(** ** The root index written and read back *)

(** C2 (the code breaks the claim).  The lines are written one per
    entry in ascending order of path, but reading them back does not
    always give the pairs that were written: with identity hashing a
    path with a space is cut at the wrong space, and a directory moved
    to a name with a newline (which [DirMove], unlike [Mkdir], [Put] and
    [Copy], lets through) makes the index unreadable. *)
Theorem root_index_round_trip_fails :
  (let w := stateAfter fs0 [OpMkdir "a b"] in
   indexPairs w = [("", ""); ("a b", "a b")] /\
   MemBase.lookup (trace w) "map" = Some (" " +:+ NL +:+ "a b a b" +:+ NL) /\
   indexPairs (stateAfter fs0 [OpMkdir "a b"; OpReload])
     = [("", ""); ("b a b", "b a b")]) /\
  (let xy := "x" +:+ NL +:+ "y" in
   let w := stateAfter fs0 [OpMkdir "a"; OpDirMove 1 "a" xy] in
   indexPairs w = [("", ""); (xy, xy)] /\
   MemBase.lookup (trace w) "map"
     = Some (" " +:+ NL +:+ xy +:+ " " +:+ xy +:+ NL) /\
   value (NewFs fs0) w = Some (Some (ErrorfQ msg_malformed "x"))).
Proof. evaluate. Qed.

(** ** A failed load of a file index *)

(** C3 (the code breaks the claim).  [Files] of the earlier entries.go
    makes the map before it reads and never takes it back: after a load
    that failed, the next access finds the empty map and returns it as
    loaded, without asking the remote again. *)
Theorem earlier_Files_caches_failed_load :
  let f := fsNone (MemBase.make (once (CNewObject "a/map") (ErrNew "timeout"))) in
  let w := stateAfter fs0 [OpMkdir "a"] in
  dirMap_Path (dmap w) !! "a" = Some 2 /\
  files <$> entries w !! 2 = Some None /\
  value (Earlier.Files f 2) w = Some (inl (ErrNew "timeout")) /\
  let w1 := after (Earlier.Files f 2) w in
  value (Earlier.Files f 2) w1 = Some (inr ∅) /\
  trace (after (Earlier.Files f 2) w1) = trace w1.
Proof. evaluate. Qed.

(** ** DirMove over a directory with three children *)

(** C4 (the code breaks the claim).  [recurse] ranges over
    [entry.Children] while [removeEntry] shifts that same array in
    place: with children a/1, a/2, a/3 the second turn reads a/3 and the
    third reads a/3 again; a/2 is never moved.  When the remote accepts
    the repeated move, "a" itself is moved and dropped and a/2 stays
    indexed under a parent that is gone; when it refuses, the move stops
    there with a/2 and "a" where they were.  [recurse] is given the
    depth 2 of this tree; with more it does the same
    ([DirMove_more_fuel]). *)
Theorem DirMove_skips_a_child :
  (let w := stateAfter fs0 [OpMkdir "a/1"; OpMkdir "a/2"; OpMkdir "a/3"] in
   map (pathAt w) (childrenOf w 2) = ["a/1"; "a/2"; "a/3"] /\
   value (DirMove 2 fs0 "a" "b") w = Some None /\
   let w' := after (DirMove 2 fs0 "a" "b") w in
   moves w' = [("a/1", "b/1"); ("a/3", "b/3"); ("a/3", "b/3"); ("a", "b")] /\
   map fst (indexPairs w') = [""; "a/2"; "b"; "b/1"; "b/3"]) /\
  (let f := fsNone (MemBase.make movedAway) in
   let w := stateAfter f [OpMkdir "a/1"; OpMkdir "a/2"; OpMkdir "a/3"] in
   value (DirMove 2 f "a" "b") w = Some (Some ErrorDirNotFound) /\
   let w' := after (DirMove 2 f "a" "b") w in
   moves w' = [("a/1", "b/1"); ("a/3", "b/3"); ("a/3", "b/3")] /\
   map fst (indexPairs w') = [""; "a"; "a/2"; "b"; "b/1"; "b/3"]).
Proof. evaluate. Qed.

(** ** Purge under a failure *)

(** C5, as worded, fails: with two children and a remote that refuses
    to purge the first, the second child and the directory itself are
    never tried. *)
Lemma Purge_not_best_effort :
  ~ Purge_best_effort fsFail "a" (stateAfter fsFail [OpMkdir "a/1"; OpMkdir "a/2"]).
Proof.
  set (w := stateAfter fsFail [OpMkdir "a/1"; OpMkdir "a/2"]).
  intros H.
  destruct (Purge fsFail "a" w) as [r w'| |] eqn:E;
    [|vm_compute in E; discriminate..].
  specialize (H 2 [3; 4; 2] r w').
  assert (Hc : ~ CPurge (hashAt w 4) ∈ calls w').
  { vm_compute in E. injection E as <- <-. vm_compute.
    intros Hin. repeat (apply elem_of_cons in Hin as [Hin|Hin]; [discriminate|]).
    by apply elem_of_nil in Hin. }
  assert (H1 : dirMap_Path (dmap w) !! path_Join [root fsFail; "a"] = Some 2)
    by (vm_compute; reflexivity).
  assert (H2 : postorder (nextPtr w) (entries w) (arrays w) 2 = Some [3; 4; 2])
    by (vm_compute; reflexivity).
  clearbody w. apply Hc. apply (H H1 H2 E 4). right. left.
Qed.

(** C5, amended.  Without the capability [Purge] fails with
    ErrorCantPurge and changes nothing; on a directory that is not
    indexed it fails with ErrorDirNotFound and changes nothing;
    otherwise it goes through the nodes under the directory children
    first, deletes each container and then drops the node from both
    indices, stops at the first container that cannot be deleted, and in
    every case writes the root index of what is then indexed: one line
    for every path but those of the nodes it has dropped.  It returns
    the error of that write or else the error that stopped it. *)
Theorem Purge_stops_at_first_error (f : Fs) (dir : string) (w : World) :
  let d := path_Join [root f; dir] in
  (feat_Purge (base f) = false ->
     Purge f dir w = Ok (Some ErrorCantPurge) w) /\
  (feat_Purge (base f) = true -> dirMap_Path (dmap w) !! d = None ->
     Purge f dir w = Ok (Some ErrorDirNotFound) w) /\
  (feat_Purge (base f) = true -> wf w ->
   forall entry, dirMap_Path (dmap w) !! d = Some entry ->
     exists l done rest purgeErr werr w',
       postorder (nextPtr w) (entries w) (arrays w) entry = Some l /\
       l = done ++ rest /\
       (purgeErr = None -> rest = []) /\ (is_Some purgeErr -> rest <> []) /\
       Purge f dir w =
         Ok (match werr with Some _ => werr | None => purgeErr end) w' /\
       trace w' = trace w ++ purgeEvents w done rest purgeErr
                          ++ [(CPut "map" (rootIndexBytes w'), werr)] /\
       dirMap_Path (dmap w') =
         dropAll (map (pathAt w) done) (dirMap_Path (dmap w)) /\
       dirMap_Hash (dmap w') =
         dropAll (map (hashAt w) done) (dirMap_Hash (dmap w)) /\
       entries w' = entries w /\ arrays w' = arrays w).
Proof.
  intros d. unfold Purge. fold d. split; [|split].
  - intros ->. reflexivity.
  - intros -> Hd. simpl. unfold bind, lookupPath. rewrite Hd. reflexivity.
  - intros -> Hwf entry Hd. simpl. unfold bind, lookupPath, get. rewrite Hd.
    destruct (postorder_defined w Hwf (nextPtr w) entry) as [l Hl].
    { eapply wf_index; eauto. }
    { lia. }
    rewrite (Purge_purge_postorder f _ _ _ _ Hl).
    destruct (purgeEach_spec f l w)
      as (r & w1 & done & rest & HE & -> & Hn & Hs & Hent & Htr & HP & HH).
    { intros q Hq. eapply postorder_elem; eauto. }
    rewrite HE.
    assert (Harr : arrays w1 = arrays w) by (eapply purgeEach_heap; eauto).
    rewrite dirMap_write_exact.
    2:{ intros k p Hk. rewrite Hent. rewrite HP in Hk. apply dropAll_lookup in Hk.
        eapply wf_index; eauto. }
    unfold call.
    set (bytes := rootIndexBytes w1).
    set (werr := reply (base f) (trace w1) (CPut "map" bytes)).
    exists (done ++ rest), done, rest, r, werr,
      (set_trace w1 (trace w1 ++ [(CPut "map" bytes, werr)])).
    split; [exact Hl|]. split; [reflexivity|]. split; [exact Hn|].
    split; [exact Hs|]. split.
    { destruct werr; reflexivity. }
    change (rootIndexBytes (set_trace w1 (trace w1 ++ [(CPut "map" bytes, werr)])))
      with bytes.
    simpl. rewrite Htr, <- app_assoc. auto.
Qed.

(** The amended statement at work: two children, the first cannot be
    purged. *)
Lemma Purge_stops_at_first_error_witness :
  let f := fsFail in
  let w := stateAfter fsFail [OpMkdir "a/1"; OpMkdir "a/2"] in
  feat_Purge (base f) = true /\ wf w /\
  dirMap_Path (dmap w) !! path_Join [root f; "a"] = Some 2 /\
  exists l done rest purgeErr werr w',
    postorder (nextPtr w) (entries w) (arrays w) 2 = Some l /\
    l = done ++ rest /\
    (purgeErr = None -> rest = []) /\ (is_Some purgeErr -> rest <> []) /\
    Purge f "a" w =
      Ok (match werr with Some _ => werr | None => purgeErr end) w' /\
    trace w' = trace w ++ purgeEvents w done rest purgeErr
                       ++ [(CPut "map" (rootIndexBytes w'), werr)] /\
    dirMap_Path (dmap w') =
      dropAll (map (pathAt w) done) (dirMap_Path (dmap w)) /\
    dirMap_Hash (dmap w') =
      dropAll (map (hashAt w) done) (dirMap_Hash (dmap w)) /\
    entries w' = entries w /\ arrays w' = arrays w.
Proof.
  intros f w.
  assert (H1 : feat_Purge (base f) = true) by reflexivity.
  assert (H2 : wf w) by apply stateAfter_wf.
  assert (H3 : dirMap_Path (dmap w) !! path_Join [root f; "a"] = Some 2)
    by (vm_compute; reflexivity).
  split; [exact H1|]. split; [exact H2|]. split; [exact H3|].
  exact (proj2 (proj2 (Purge_stops_at_first_error f "a" w)) H1 H2 2 H3).
Defined.

(** ** Rmdir *)

(** C6, as worded, fails: when the root index cannot be written the
    error of the write comes back, which is none of the four listed
    outcomes. *)
Lemma Rmdir_unlisted_outcome :
  ~ Rmdir_only_listed fsQuota "a" (stateAfter fsQuota [OpMkdir "a"]).
Proof.
  intros (r & w' & E & HL). vm_compute in E. injection E as <- <-.
  destruct HL as [H|[H|[H|[err H]]]]; discriminate.
Qed.

(** C6, amended.  On well-formed memory [Rmdir] has these outcomes and
    no other.  It fails with ErrorDirNotFound, changing nothing, when
    the path is not indexed; with the load error wrapped as a bad state
    when the file index cannot be loaded; with ErrorDirectoryNotEmpty
    when the directory has a file or a child.  An empty directory that
    is the root makes it panic with "cannot remove root directory", and
    one that is not among the children of its parent makes it panic as
    well.  Otherwise the entry leaves the children of its parent and
    both indices, no other entry but the parent changes, and the root
    index of what is then indexed is written: if that write fails its
    error is returned and nothing is purged; else the backing container
    is purged, and the result is nil when the purge succeeds or reports
    ErrorDirNotFound, and the error of the purge otherwise. *)
Theorem Rmdir_outcomes (f : Fs) (dir : string) (w : World) :
  let d := path_Join [root f; dir] in
  wf w ->
  (dirMap_Path (dmap w) !! d = None ->
     Rmdir f dir w = Ok (Some ErrorDirNotFound) w) /\
  (forall entry, dirMap_Path (dmap w) !! d = Some entry ->
     exists fl w1 e,
       Files f entry w = Ok fl w1 /\ entries w1 !! entry = Some e /\
       match fl with
       | inl err => Rmdir f dir w = Ok (Some (ErrorfW msg_bad_state err)) w1
       | inr fls =>
           if bool_decide (fls = ∅ /\ childrenOf w entry = []) then
             match Parent e with
             | None => Rmdir f dir w = Panic msg_remove_root
             | Some parent =>
                 if bool_decide (entry ∈ childrenOf w parent)
                 then Rmdir_removed f d entry e parent w1 (Rmdir f dir w)
                 else exists msg, Rmdir f dir w = Panic msg
             end
           else Rmdir f dir w = Ok (Some ErrorDirectoryNotEmpty) w1
       end).
Proof.
  intros d Hwf. split.
  { intros Hd. unfold Rmdir, bind, lookupPath. fold d. rewrite Hd. reflexivity. }
  intros entry Hd.
  destruct (Files_ok f entry w) as (fl & w1 & HF & Hs); [eapply wf_index; eauto|].
  pose proof (wf_sameTree _ _ Hwf Hs) as Hwf1.
  assert (Hd1 : dirMap_Path (dmap w1) !! d = Some entry).
  { destruct Hs as (-> & _). exact Hd. }
  destruct (wf_index w1 Hwf1 d entry Hd1) as [e He].
  exists fl, w1, e. split; [exact HF|]. split; [exact He|].
  unfold Rmdir, bind, lookupPath. fold d. rewrite Hd, HF.
  destruct fl as [err|fls]; [reflexivity|].
  unfold deref. rewrite He.
  assert (Hnil : childrenOf w entry = [] <-> s_len (Children e) = 0).
  { rewrite <- (sameTree_childrenOf w w1 entry Hs). by apply childrenOf_nil. }
  destruct (bool_decide (fls = ∅ /\ childrenOf w entry = [])) eqn:Hempty.
  2:{ apply bool_decide_eq_false in Hempty.
      destruct ((0 <? size fls) || (0 <? s_len (Children e))) eqn:Hne; [reflexivity|].
      exfalso. apply Hempty.
      apply orb_false_iff in Hne as [Hn1 Hn2]. apply Nat.ltb_ge in Hn1, Hn2.
      split; [apply map_size_empty_iff; lia|apply Hnil; lia]. }
  apply bool_decide_eq_true in Hempty as [-> Hch].
  apply Hnil in Hch. rewrite Hch, map_size_empty. cbn [Nat.ltb Nat.leb orb].
  destruct (Parent e) as [parent|] eqn:Hpar.
  2:{ unfold removeEntry, bind, lookupPath, deref. rewrite Hd1, He, Hpar. reflexivity. }
  destruct (bool_decide (entry ∈ childrenOf w parent)) eqn:Hin.
  - apply bool_decide_eq_true in Hin.
    rewrite <- (sameTree_childrenOf w w1 parent Hs) in Hin.
    destruct (removeEntry_linked d w1 entry e parent Hwf1 Hd1 He Hpar Hin)
      as (w2 & before & after & HR & Hwf2 & H1 & H2 & H3 & H4 & H5 & H6 & H7 & H8 & H9
          & _).
    exists w2, before, after.
    split; [exact H1|]. split; [exact H2|]. split; [exact H3|]. split; [exact H4|].
    split; [exact H9|]. split; [exact H5|]. split; [exact H6|]. split; [exact H7|]. split; [exact Hwf2|].
    rewrite HR. rewrite dirMap_write_exact by (intros k p; apply (wf_index w2 Hwf2)).
    unfold call. rewrite H7.
    destruct (reply (base f) (trace w1) (CPut "map" (rootIndexBytes w2))) as [err|];
      [reflexivity|].
    cbn [trace set_trace].
    destruct (reply (base f) _ (COperationsPurge (Hash e))) as [err|]; [|reflexivity].
    destruct (errors_Is err ErrorDirNotFound); reflexivity.
  - apply bool_decide_eq_false in Hin.
    rewrite <- (sameTree_childrenOf w w1 parent Hs) in Hin.
    unfold removeEntry, bind, lookupPath, deref. rewrite Hd1, He, Hpar.
    destruct (entries w1 !! parent) as [pe|] eqn:Hpe; [|eauto].
    destruct (wf_entry w1 Hwf1 parent pe Hpe) as (_ & _ & a & Ha & Hlen & _).
    unfold getArray. rewrite Ha.
    rewrite (childrenOf_eq w1 parent pe a Hpe Ha Hlen) in Hin.
    destruct (indexOf entry (take (s_len (Children pe)) a)) as [idx|] eqn:Hidx;
      [|eauto].
    exfalso. apply Hin. apply indexOf_Some in Hidx as [-> _].
    apply elem_of_app. right. left.
Qed.

(** The directory "a" of a tree that holds nothing else: it is removed,
    the root index is written and the container purged. *)
Lemma Rmdir_outcomes_witness :
  let f := fs0 in
  let w := stateAfter fs0 [OpMkdir "a"] in
  let d := path_Join [root f; "a"] in
  wf w /\ dirMap_Path (dmap w) !! d = Some 2 /\
  exists fl w1 e,
    Files f 2 w = Ok fl w1 /\ entries w1 !! 2 = Some e /\
    match fl with
    | inl err => Rmdir f "a" w = Ok (Some (ErrorfW msg_bad_state err)) w1
    | inr fls =>
        if bool_decide (fls = ∅ /\ childrenOf w 2 = []) then
          match Parent e with
          | None => Rmdir f "a" w = Panic msg_remove_root
          | Some parent =>
              if bool_decide (2 ∈ childrenOf w parent)
              then Rmdir_removed f d 2 e parent w1 (Rmdir f "a" w)
              else exists msg, Rmdir f "a" w = Panic msg
          end
        else Rmdir f "a" w = Ok (Some ErrorDirectoryNotEmpty) w1
    end.
Proof.
  intros f w d.
  assert (H1 : wf w) by apply stateAfter_wf.
  assert (H2 : dirMap_Path (dmap w) !! d = Some 2) by (vm_compute; reflexivity).
  split; [exact H1|]. split; [exact H2|].
  exact (proj2 (Rmdir_outcomes f "a" w H1) 2 H2).
Defined.

(** ** Names with a newline *)

(** C7, as worded, fails: [Mkdir] checks the path after [path.Join] has
    cleaned it, so a name whose newline sits in an element that [..]
    takes away is accepted, and a directory is made. *)
Lemma Mkdir_accepts_cleaned_newline : ~ rejects_newline fs0 w0.
Proof.
  intros H. destruct (H ("a" +:+ NL +:+ "/..") eq_refl) as [[q Hq] _].
  vm_compute in Hq. discriminate.
Qed.

(** C7, amended.  [Put] fails on every remote that contains a newline,
    and [Mkdir] on every directory whose joined and cleaned path
    contains a newline and is not indexed; both return the error without
    touching the state: tree, indices, file indices and remote are as
    before. *)
Theorem newline_names_rejected (f : Fs) (name : string) (w : World) :
  (containsChar nl name = true ->
   forall data,
     Put f data name w = Ok (None, Some (ErrorfQ msg_file_newline name)) w) /\
  (let dir := path_Join [root f; name] in
   containsChar nl dir = true -> dirMap_Path (dmap w) !! dir = None ->
   Mkdir f name w = Ok (Some (ErrorfQ msg_dir_newline dir)) w).
Proof.
  split.
  - intros Hnl data. unfold Put, put. rewrite Hnl. reflexivity.
  - intros dir Hnl Hd. unfold Mkdir, bind, lookupPath. fold dir.
    rewrite Hd, Hnl. reflexivity.
Qed.

(** A name with a newline in the middle, on a new tree. *)
Lemma newline_names_rejected_witness :
  let name := "a" +:+ NL +:+ "b" in
  containsChar nl name = true /\
  containsChar nl (path_Join [root fs0; name]) = true /\
  dirMap_Path (dmap w0) !! path_Join [root fs0; name] = None /\
  Put fs0 "data" name w0 = Ok (None, Some (ErrorfQ msg_file_newline name)) w0 /\
  Mkdir fs0 name w0
    = Ok (Some (ErrorfQ msg_dir_newline (path_Join [root fs0; name]))) w0.
Proof.
  intros name.
  assert (H1 : containsChar nl name = true) by reflexivity.
  assert (H2 : containsChar nl (path_Join [root fs0; name]) = true) by reflexivity.
  assert (H3 : dirMap_Path (dmap w0) !! path_Join [root fs0; name] = None)
    by (vm_compute; reflexivity).
  split; [exact H1|]. split; [exact H2|]. split; [exact H3|]. split.
  - exact (proj1 (newline_names_rejected fs0 name w0) H1 "data").
  - exact (proj2 (newline_names_rejected fs0 name w0) H2 H3).
Defined.

(** ** Name records *)

(** C8 (the code breaks the claim).  [Copy] hands [src.Remote()] to
    [prepareDest] where [put] hands the destination: after a copy of
    a/x to b/x the name record of b/x holds the line "a/x", the path of
    the source.  The record that [Put] wrote for a/x holds "a/x". *)
Theorem Copy_name_record_holds_source_path :
  let w := stateAfter fs0 [OpMkdir "a"; OpMkdir "b"; OpPut "hello" "a/x";
                           OpNewObject "b/x"] in
  let src := {| obj := "a/x/data"; o_path := "a/x"; basePath := "a/x";
                o_dirEntry := 2 |} in
  MemBase.lookup (trace w) "a/x/name" = Some ("a/x" +:+ NL) /\
  value (NewObject fs0 "a/x") w = Some (inr src) /\
  value (Copy fs0 src "b/x") w = Some (Some "b/x/data", None) /\
  let w' := after (Copy fs0 src "b/x") w in
  MemBase.lookup (trace w') "b/x/data" = Some "hello" /\
  MemBase.lookup (trace w') "b/x/name" = Some ("a/x" +:+ NL).
Proof. evaluate. Qed.

(** ** Change notification *)

(** C9 (the code breaks the claim).  The scan of the file index calls
    [notify] with the key of the matching entry, which is the file name,
    not the logical path: a change of the data of a/x is reported as
    "x".  Events that are not on a "data" leaf, too short, on an unknown
    directory or on an unknown file are dropped, and the events after
    them are still translated. *)
Theorem ChangeNotify_emits_file_name :
  let w := stateAfter fs0 [OpMkdir "a"; OpPut "hello" "a/x"] in
  value (NewObject fs0 "a/x") w
    = Some (inr {| obj := "a/x/data"; o_path := "a/x"; basePath := "a/x";
                   o_dirEntry := 2 |}) /\
  value (ChangeNotify fs0 [("a/x/data", EntryObject)]) w
    = Some [("x", EntryObject)] /\
  value (ChangeNotify fs0 [("a/x/name", EntryObject); ("x/data", EntryObject);
                           ("zz/x/data", EntryObject); ("a/y/data", EntryObject);
                           ("a/x/data", EntryDirectory)]) w
    = Some [("x", EntryDirectory)].
Proof. evaluate. Qed.

(** ** NewObject *)

(** C10 (the code breaks the claim).  [NewObject] looks the remote up
    in the path index as it is given, while the keys of the index are
    joined with the root, as [toHash], [Mkdir] and [List] join it.  Under
    the root "r" the directory "a" is indexed as "r/a": [Mkdir] and
    [List] find it, and [NewObject] says of "a" that the object is not
    there, and of "r/a", which is no directory under that root, that it
    is one. *)
Theorem NewObject_does_not_join_the_root :
  let f := fsRooted in
  let w := stateAfter f [OpMkdir "a"] in
  dirMap_Path (dmap w) !! path_Join [root f; "a"] = Some 3 /\
  value (Mkdir f "a") w = Some None /\
  value (Fs_List f (listerOf []) "a") w = Some (inr []) /\
  value (NewObject f "a") w = Some (inl ErrorObjectNotFound) /\
  dirMap_Path (dmap w) !! path_Join [root f; "r/a"] = None /\
  value (Fs_List f (listerOf []) "r/a") w = Some (inl ErrorDirNotFound) /\
  value (NewObject f "r/a") w = Some (inl ErrorIsDir).
Proof. evaluate. Qed.
